(** * Hybrid retrieval engine of the RAG tutor

    A shallow embedding of [src/retrieval/graph_retriever.py] and
    [src/retrieval/hybrid_retriever.py]: the graph expansion engine
    ([expand_seeds] and its helpers), the topological sequencer
    ([get_topological_order]) and the orchestrator ([retrieve],
    [retrieve_with_explicit_concepts]).

    Python [int] is [Z], [str] is [string], [None]-able values are
    [option], a [dict] read with a default is a [gmap], the insertion
    ordered [dict] of [_deduplicate_concepts] is an association list.
    The Neo4j store is a property graph and every Cypher query of the
    source is a function over it. *)

From stdpp Require Import gmap strings list fin_maps sorting pretty.
From Stdlib Require Import ZArith.

Local Open Scope string_scope.
Local Open Scope list_scope.
Local Open Scope nat_scope.
Local Open Scope stdpp_scope.

(** ** Python built-ins used by the source *)

(** [l[:stop]]: a negative [stop] counts from the end of the list. *)
Definition py_slice_to {A} (l : list A) (stop : Z) : list A :=
  if bool_decide (0 ≤ stop)%Z then take (Z.to_nat stop) l
  else take (Z.to_nat (Z.of_nat (length l) + stop)) l.

(** [sorted(l, key=key)] is a stable sort; insertion from the right keeps
    equal keys in their original order. *)
Fixpoint insert_by {A} (le : A → A → bool) (x : A) (l : list A) : list A :=
  match l with
  | [] => [x]
  | y :: l' => if le x y then x :: y :: l' else y :: insert_by le x l'
  end.

Definition stable_sort {A} (le : A → A → bool) (l : list A) : list A :=
  foldr (insert_by le) [] l.

Definition sorted {A} (key : A → Z) (l : list A) : list A :=
  stable_sort (λ x y, bool_decide (key x ≤ key y)%Z) l.

(** [l.index(x)], with [None] where Python raises [ValueError]. *)
Fixpoint index_of (x : string) (l : list string) : option nat :=
  match l with
  | [] => None
  | y :: l' => if bool_decide (y = x) then Some 0 else S <$> index_of x l'
  end.

(** [str.lower] on the ASCII range. *)
Definition lower_ascii (c : Ascii.ascii) : Ascii.ascii :=
  let n := Ascii.nat_of_ascii c in
  if bool_decide (65 ≤ n ≤ 90)%nat then Ascii.ascii_of_nat (n + 32) else c.

Fixpoint lower (s : string) : string :=
  match s with
  | EmptyString => EmptyString
  | String c s' => String (lower_ascii c) (lower s')
  end.

(** [x or d] on a string that may be [None]: the empty string is falsy too. *)
Definition or_default (x : option string) (d : string) : string :=
  match x with
  | Some s => if bool_decide (s = "") then d else s
  | None => d
  end.

(** ** Data model ([graph_retriever.py], dataclasses) *)

Record RetrievedConcept := mkRetrievedConcept {
  title : string;
  definition : string;
  difficulty : string;
  depth : Z;
  relation_to_seed : string;
  seed_concept : string;
}.

(** The field [title] of the source is [resource_title] here, [title] being
    the projection of [RetrievedConcept]. *)
Record RetrievedResource := mkRetrievedResource {
  url : option string;
  resource_type : string;
  resource_title : option string;
  concepts_explained : list string;
  page_numbers : option (list Z);
  timecodes : option (list (string * string));
}.

(** [text] is filled from the record as it is, so it can hold [None]. *)
Record RetrievedExample := mkRetrievedExample {
  text : option string;
  example_type : string;
  concept : string;
  source_url : string;
}.

Record Subgraph := mkSubgraph {
  seed_concepts : list string;
  concepts : list RetrievedConcept;
  resources : list RetrievedResource;
  examples : list RetrievedExample;
  prereq_chain : list (list string);
}.

(** ** The Neo4j store read by the queries *)

Inductive RelType := PREREQ_OF | IS_A | PART_OF | SIBLING | CONTRASTS_WITH.

(** [Concept] nodes are identified by their [title], which every one of
    them carries; the other properties may be missing. *)
Record ConceptNode := mkConceptNode {
  c_title : string;
  c_definition : option string;
  c_difficulty : option string;
}.

(** A relationship between two [Concept] nodes, named by their positions
    in [concept_nodes]. *)
Record Relationship := mkRelationship {
  r_start : nat;
  r_type : RelType;
  r_end : nat;
}.

Record ExampleNode := mkExampleNode {
  e_text : option string;
  e_example_type : option string;
  e_source_url : option string;
}.

Record ResourceNode := mkResourceNode {
  n_url : option string;
  n_type : option string;
}.

(** [exemplifies] and [explains] pair the position of an [Example] or
    [Resource] node with the position of the [Concept] node it points to. *)
Record Neo4j := mkNeo4j {
  concept_nodes : list ConceptNode;
  relationships : list Relationship;
  example_nodes : list ExampleNode;
  exemplifies : list (nat * nat);
  resource_nodes : list ResourceNode;
  explains : list (nat * nat);
}.

Definition concept_graph (nodes : list ConceptNode) (rels : list Relationship)
    : Neo4j :=
  mkNeo4j nodes rels [] [] [] [].

Definition node_title (g : Neo4j) (i : nat) : option string :=
  c_title <$> concept_nodes g !! i.

(** ** Topological sequencer: [GraphRetriever.get_topological_order] *)

(** [MATCH (a:Concept)-[:PREREQ_OF]->(b:Concept)
     WHERE a.title IN $titles AND b.title IN $titles
     RETURN a.title AS prereq, b.title AS dependent] *)
Definition internal_prereq_row (g : Neo4j) (titles : list string)
    (r : Relationship) : option (string * string) :=
  match r_type r with
  | PREREQ_OF =>
      a ← node_title g (r_start r);
      b ← node_title g (r_end r);
      if bool_decide (a ∈ titles) && bool_decide (b ∈ titles)
      then Some (a, b) else None
  | _ => None
  end.

Definition internal_prereq_edges (g : Neo4j) (titles : list string)
    : list (string * string) :=
  omap (internal_prereq_row g titles) (relationships g).

(** Reads of [defaultdict(int)] and [defaultdict(list)]. *)
Definition in_degree_at (in_degree : gmap string Z) (t : string) : Z :=
  default 0%Z (in_degree !! t).

Definition graph_at (graph : gmap string (list string)) (t : string)
    : list string :=
  default [] (graph !! t).

(** [for title in titles: in_degree[title] = 0] *)
Definition init_in_degree (titles : list string) : gmap string Z :=
  foldl (λ m t, <[t := 0%Z]> m) ∅ titles.

(** [graph[prereq].append(dependent); in_degree[dependent] += 1] *)
Definition add_edge (st : gmap string (list string) * gmap string Z)
    (e : string * string) : gmap string (list string) * gmap string Z :=
  (<[e.1 := graph_at st.1 e.1 ++ [e.2]]> st.1,
   <[e.2 := (in_degree_at st.2 e.2 + 1)%Z]> st.2).

Definition build_graph (titles : list string) (edges : list (string * string))
    : gmap string (list string) * gmap string Z :=
  foldl add_edge (∅, init_in_degree titles) edges.

(** Body of [for neighbor in graph[node]], on the pair (in_degree, queue). *)
Definition visit_neighbor (st : gmap string Z * list string)
    (neighbor : string) : gmap string Z * list string :=
  let in_degree' :=
    <[neighbor := (in_degree_at st.1 neighbor - 1)%Z]> st.1 in
  if bool_decide (in_degree_at in_degree' neighbor = 0%Z)
  then (in_degree', st.2 ++ [neighbor])
  else (in_degree', st.2).

Record KahnState := mkKahnState {
  ks_queue : list string;
  ks_result : list string;
  ks_in_degree : gmap string Z;
}.

(** One iteration of [while queue]. *)
Definition kahn_step (graph : gmap string (list string)) (node : string)
    (rest : list string) (st : KahnState) : KahnState :=
  let st' := foldl visit_neighbor (ks_in_degree st, rest) (graph_at graph node) in
  {| ks_queue := st'.2;
     ks_result := ks_result st ++ [node];
     ks_in_degree := st'.1 |}.

(** [while queue: ...] run for at most [fuel] iterations;
    [kahn_loop_drains] shows that the fuel given by
    [get_topological_order] always empties the queue. *)
Fixpoint kahn_loop (fuel : nat) (graph : gmap string (list string))
    (st : KahnState) : KahnState :=
  match fuel with
  | O => st
  | S fuel' =>
      match ks_queue st with
      | [] => st
      | node :: rest => kahn_loop fuel' graph (kahn_step graph node rest st)
      end
  end.

(** [for title in titles: if title not in result: result.append(title)] *)
Definition append_remaining (result titles : list string) : list string :=
  foldl (λ res t, if bool_decide (t ∈ res) then res else res ++ [t])
        result titles.

Definition kahn_run (titles : list string) (edges : list (string * string))
    : KahnState :=
  let gi := build_graph titles edges in
  kahn_loop (length titles) gi.1
    {| ks_queue := filter (λ t, in_degree_at gi.2 t = 0%Z) titles;
       ks_result := [];
       ks_in_degree := gi.2 |}.

Definition get_topological_order (g : Neo4j) (concepts : list RetrievedConcept)
    : list string :=
  let titles := title <$> concepts in
  let edges := internal_prereq_edges g titles in
  append_remaining (ks_result (kahn_run titles edges)) titles.

(** ** Cypher queries of the graph expansion engine *)

Global Instance RelType_eq_dec : EqDecision RelType.
Proof. solve_decision. Defined.

Definition rel_type_name (t : RelType) : string :=
  match t with
  | PREREQ_OF => "PREREQ_OF"
  | IS_A => "IS_A"
  | PART_OF => "PART_OF"
  | SIBLING => "SIBLING"
  | CONTRASTS_WITH => "CONTRASTS_WITH"
  end.

Definition indexed {A} (l : list A) : list (nat * A) := imap pair l.

(** [MATCH (c:Concept {title: t})]: the matching nodes with their positions. *)
Definition match_concepts (g : Neo4j) (t : string) : list (nat * ConceptNode) :=
  filter (λ ic, c_title ic.2 = t) (indexed (concept_nodes g)).

(** The relationships of the store whose two end nodes exist. *)
Definition bound_rels (g : Neo4j) : list (nat * Relationship) :=
  filter (λ ir, is_Some (concept_nodes g !! r_start ir.2)
                ∧ is_Some (concept_nodes g !! r_end ir.2))
         (indexed (relationships g)).

(** A path is the list of its relationships, the one touching the seed
    first; Cypher never repeats a relationship inside one path. *)
Definition Path := list (nat * Relationship).

(** [(prereq)-[:PREREQ_OF*1..d]->(v)]: all paths of 1 to [d] hops into [v]
    that avoid the relationships in [used]. *)
Fixpoint prereq_paths (g : Neo4j) (d : nat) (used : list nat) (v : nat)
    : list Path :=
  match d with
  | O => []
  | S d' =>
      ir ← filter (λ ir, r_type ir.2 = PREREQ_OF ∧ r_end ir.2 = v ∧ ir.1 ∉ used)
                  (bound_rels g);
      [ir] :: (cons ir <$> prereq_paths g d' (ir.1 :: used) (r_start ir.2))
  end.

(** The node a path into [v] starts from. *)
Definition path_start (v : nat) (p : Path) : nat :=
  match last p with
  | Some ir => r_start ir.2
  | None => v
  end.

(** [nodes(path)], from the far prerequisite to the seed node [v]. *)
Definition path_nodes (v : nat) (p : Path) : list nat :=
  reverse ((λ ir, r_start ir.2) <$> p) ++ [v].

(** [UNWIND $titles AS title MATCH (c:Concept {title: title})
     RETURN c.title, c.definition, c.difficulty] *)
Definition seed_query (g : Neo4j) (titles : list string) : list ConceptNode :=
  t ← titles; ic ← match_concepts g t; [ic.2].

Record PrereqRecord := mkPrereqRecord {
  p_title : string;
  p_definition : option string;
  p_difficulty : option string;
  p_depth : Z;
  p_seed_concept : string;
}.

(** Rows of [WITH seedTitle, prereq, length(path) AS dist]. *)
Definition prereq_bindings (g : Neo4j) (titles : list string) (d : nat)
    : list PrereqRecord :=
  seedTitle ← titles;
  seed ← match_concepts g seedTitle;
  path ← prereq_paths g d [] seed.1;
  match concept_nodes g !! path_start seed.1 path with
  | Some prereq =>
      [mkPrereqRecord (c_title prereq) (c_definition prereq)
         (c_difficulty prereq) (Z.of_nat (length path)) seedTitle]
  | None => []
  end.

(** The grouping key of [RETURN DISTINCT title, definition, difficulty,
    min(dist) AS depth, seed_concept]. *)
Definition same_group (a b : PrereqRecord) : Prop :=
  p_title a = p_title b ∧ p_definition a = p_definition b
  ∧ p_difficulty a = p_difficulty b ∧ p_seed_concept a = p_seed_concept b.

Global Instance same_group_dec a b : Decision (same_group a b).
Proof. unfold same_group. apply _. Defined.

Fixpoint min_into (row : PrereqRecord) (groups : list PrereqRecord)
    : list PrereqRecord :=
  match groups with
  | [] => [row]
  | grp :: rest =>
      if bool_decide (same_group grp row)
      then (if bool_decide (p_depth row < p_depth grp)%Z then row else grp) :: rest
      else grp :: min_into row rest
  end.

Definition aggregate_min (rows : list PrereqRecord) : list PrereqRecord :=
  foldl (λ groups row, min_into row groups) [] rows.

(** The query of [_get_prerequisites]; [ORDER BY depth] is a stable sort of
    the groups, which stand in the order of their first row. *)
Definition prerequisites_query (g : Neo4j) (titles : list string) (d : nat)
    : list PrereqRecord :=
  sorted p_depth (aggregate_min (prereq_bindings g titles d)).

(** The other end of relationship [r] when it is walked from [v] in either
    direction. *)
Definition far_ends (r : Relationship) (v : nat) : list nat :=
  (if bool_decide (r_start r = v) then [r_end r] else [])
  ++ (if bool_decide (r_end r = v) then [r_start r] else []).

(** [(v)-[r:IS_A|PART_OF|SIBLING|CONTRASTS_WITH*1..d]-(related)]: each path
    with the node it reaches. *)
Fixpoint peer_paths (g : Neo4j) (d : nat) (used : list nat) (v : nat)
    : list (Path * nat) :=
  match d with
  | O => []
  | S d' =>
      ir ← filter (λ ir, r_type ir.2 ≠ PREREQ_OF ∧ ir.1 ∉ used) (bound_rels g);
      w ← far_ends ir.2 v;
      ([ir], w) :: ((λ pw, (ir :: pw.1, pw.2)) <$> peer_paths g d' (ir.1 :: used) w)
  end.

Record RelatedRecord := mkRelatedRecord {
  l_title : string;
  l_definition : option string;
  l_difficulty : option string;
  l_relation_type : string;
  l_seed_concept : string;
}.

Global Instance RelatedRecord_eq_dec : EqDecision RelatedRecord.
Proof. solve_decision. Defined.

(** Rows of [WHERE related.title <> seedTitle
     WITH seedTitle, related, type(r[0]) AS rel_type]. *)
Definition related_bindings (g : Neo4j) (titles : list string) (d : nat)
    : list RelatedRecord :=
  seedTitle ← titles;
  seed ← match_concepts g seedTitle;
  pw ← peer_paths g d [] seed.1;
  match concept_nodes g !! pw.2, head pw.1 with
  | Some related, Some r0 =>
      if bool_decide (c_title related ≠ seedTitle)
      then [mkRelatedRecord (c_title related) (c_definition related)
              (c_difficulty related) (rel_type_name (r_type r0.2)) seedTitle]
      else []
  | _, _ => []
  end.

(** [RETURN DISTINCT]: the first copy of every row. *)
Definition distinct `{EqDecision A} (rows : list A) : list A :=
  foldl (λ acc row, if bool_decide (row ∈ acc) then acc else acc ++ [row])
        [] rows.

Definition related_query (g : Neo4j) (titles : list string) (d : nat)
    : list RelatedRecord :=
  distinct (related_bindings g titles d).

(** The query of [_get_prereq_chains] for one seed; [ORDER BY length(path)
    DESC] sorts on the negated length, [LIMIT 1] keeps the first row, and a
    row is the title list [[n IN nodes(path) | n.title]]. *)
Definition chain_candidates (g : Neo4j) (seed : string) (d : nat)
    : list (nat * Path) :=
  s ← match_concepts g seed; (λ p, (s.1, p)) <$> prereq_paths g d [] s.1.

Definition chain_query (g : Neo4j) (seed : string) (d : nat)
    : list (list string) :=
  let ordered :=
    sorted (λ sp, (- Z.of_nat (length sp.2))%Z) (chain_candidates g seed d) in
  (λ sp, omap (node_title g) (path_nodes sp.1 sp.2)) <$> take 1 ordered.

(** [result.single()] on a result of at most one row. *)
Definition single {A} (rows : list A) : option A := head rows.

Record ResourceRecord := mkResourceRecord {
  s_url : option string;
  s_resource_type : option string;
  s_concepts : list string;
}.

(** Rows of [MATCH (r:Resource)-[:EXPLAINS]->(c:Concept {title: conceptTitle})]. *)
Definition resource_bindings (g : Neo4j) (titles : list string)
    : list (ResourceNode * string) :=
  conceptTitle ← titles;
  c ← match_concepts g conceptTitle;
  rc ← filter (λ rc, rc.2 = c.1) (explains g);
  match resource_nodes g !! rc.1 with
  | Some r => [(r, c_title c.2)]
  | None => []
  end.

(** [RETURN DISTINCT r.url, r.type, collect(DISTINCT c.title)]: one group
    per (url, type). *)
Fixpoint collect_title (b : ResourceNode * string) (groups : list ResourceRecord)
    : list ResourceRecord :=
  match groups with
  | [] => [mkResourceRecord (n_url b.1) (n_type b.1) [b.2]]
  | grp :: rest =>
      if bool_decide (s_url grp = n_url b.1 ∧ s_resource_type grp = n_type b.1)
      then mkResourceRecord (s_url grp) (s_resource_type grp)
             (if bool_decide (b.2 ∈ s_concepts grp) then s_concepts grp
              else s_concepts grp ++ [b.2]) :: rest
      else grp :: collect_title b rest
  end.

Definition resources_query (g : Neo4j) (titles : list string)
    : list ResourceRecord :=
  foldl (λ groups b, collect_title b groups) [] (resource_bindings g titles).

Record ExampleRecord := mkExampleRecord {
  x_text : option string;
  x_example_type : option string;
  x_concept : string;
  x_source_url : option string;
}.

(** Rows of [MATCH (e:Example)-[:EXEMPLIFIES]->(c:Concept {title: conceptTitle})
     WITH c.title AS concept, e]. *)
Definition example_bindings (g : Neo4j) (titles : list string)
    : list (string * ExampleNode) :=
  conceptTitle ← titles;
  c ← match_concepts g conceptTitle;
  ec ← filter (λ ec, ec.2 = c.1) (exemplifies g);
  match example_nodes g !! ec.1 with
  | Some e => [(c_title c.2, e)]
  | None => []
  end.

(** [ORDER BY e.example_type]: ascending, [null] last. *)
Definition example_type_le (a b : option string) : bool :=
  match a, b with
  | Some x, Some y => String.leb x y
  | _, None => true
  | None, Some _ => false
  end.

(** [WITH concept, collect(e) AS examples]: one group per concept. *)
Fixpoint collect_example (b : string * ExampleNode)
    (groups : list (string * list ExampleNode))
    : list (string * list ExampleNode) :=
  match groups with
  | [] => [(b.1, [b.2])]
  | grp :: rest =>
      if bool_decide (grp.1 = b.1) then (grp.1, grp.2 ++ [b.2]) :: rest
      else grp :: collect_example b rest
  end.

(** The query of [_get_examples]; the list slice [[0..$max]] counts a
    negative bound from the end, as Python does. *)
Definition examples_query (g : Neo4j) (titles : list string) (max : Z)
    : list ExampleRecord :=
  let ordered :=
    stable_sort (λ a b, example_type_le (e_example_type a.2) (e_example_type b.2))
                (example_bindings g titles) in
  grp ← foldl (λ groups b, collect_example b groups) [] ordered;
  e ← py_slice_to grp.2 max;
  [mkExampleRecord (e_text e) (e_example_type e) grp.1 (e_source_url e)].

(** ** Graph expansion engine: [GraphRetriever] *)

Definition seed_of_record (record : ConceptNode) : RetrievedConcept :=
  mkRetrievedConcept (c_title record)
    (or_default (c_definition record) "")
    (or_default (c_difficulty record) "unknown")
    0 "seed" (c_title record).

Definition _get_seed_concepts (g : Neo4j) (titles : list string)
    : list RetrievedConcept :=
  seed_of_record <$> seed_query g titles.

(** The bound of a variable-length pattern is spliced into the query text
    with [str(depth)]; it is a natural number here, the text being no
    Cypher for a negative one. *)
Definition prerequisite_of_record (record : PrereqRecord) : RetrievedConcept :=
  mkRetrievedConcept (p_title record)
    (or_default (p_definition record) "")
    (or_default (p_difficulty record) "unknown")
    (p_depth record) "prerequisite" (p_seed_concept record).

Definition _get_prerequisites (g : Neo4j) (seed_titles : list string)
    (depth : nat) : list RetrievedConcept :=
  prerequisite_of_record <$> prerequisites_query g seed_titles depth.

Definition related_of_record (record : RelatedRecord) : RetrievedConcept :=
  mkRetrievedConcept (l_title record)
    (or_default (l_definition record) "")
    (or_default (l_difficulty record) "unknown")
    1 (lower (l_relation_type record)) (l_seed_concept record).

Definition _get_related_concepts (g : Neo4j) (seed_titles : list string)
    (depth : nat) : list RetrievedConcept :=
  related_of_record <$> related_query g seed_titles depth.

(** The insertion-ordered [dict] named [seen]. *)
Fixpoint dict_get {V} (d : list (string * V)) (k : string) : option V :=
  match d with
  | [] => None
  | kv :: d' => if bool_decide (kv.1 = k) then Some kv.2 else dict_get d' k
  end.

(** [d[k] = v]: a key already present keeps its place. *)
Fixpoint dict_set {V} (d : list (string * V)) (k : string) (v : V)
    : list (string * V) :=
  match d with
  | [] => [(k, v)]
  | kv :: d' =>
      if bool_decide (kv.1 = k) then (kv.1, v) :: d' else kv :: dict_set d' k v
  end.

(** [if c.title not in seen or c.depth < seen[c.title].depth: seen[c.title] = c] *)
Definition dedup_step (seen : list (string * RetrievedConcept))
    (c : RetrievedConcept) : list (string * RetrievedConcept) :=
  match dict_get seen (title c) with
  | None => dict_set seen (title c) c
  | Some old =>
      if bool_decide (depth c < depth old)%Z then dict_set seen (title c) c
      else seen
  end.

Definition seen_after (concepts : list RetrievedConcept)
    : list (string * RetrievedConcept) :=
  foldl dedup_step [] concepts.

(** [sorted(seen.values(), key=lambda x: x.depth)] *)
Definition sorted_concepts (concepts : list RetrievedConcept)
    : list RetrievedConcept :=
  sorted depth (snd <$> seen_after concepts).

Definition _deduplicate_concepts (concepts : list RetrievedConcept)
    (max_concepts : Z) : list RetrievedConcept :=
  py_slice_to (sorted_concepts concepts) max_concepts.

Definition _get_prereq_chains (g : Neo4j) (seed_titles : list string)
    (depth : nat) : list (list string) :=
  (λ seed, match single (chain_query g seed depth) with
           | Some titles => titles
           | None => [seed]
           end)
  <$> seed_titles.

Definition resource_of_record (record : ResourceRecord) : RetrievedResource :=
  mkRetrievedResource (s_url record)
    (or_default (s_resource_type record) "unknown")
    (s_url record) (s_concepts record) None None.

(** [if url in seen_urls: continue] and the two appends that follow. *)
Definition resource_step
    (st : list RetrievedResource * gset (option string))
    (record : ResourceRecord) : list RetrievedResource * gset (option string) :=
  if bool_decide (s_url record ∈ st.2) then st
  else (st.1 ++ [resource_of_record record], {[s_url record]} ∪ st.2).

Definition _get_resources (g : Neo4j) (concept_titles : list string)
    : list RetrievedResource :=
  (foldl resource_step ([], ∅) (resources_query g concept_titles)).1.

Definition example_of_record (record : ExampleRecord) : RetrievedExample :=
  mkRetrievedExample (x_text record)
    (or_default (x_example_type record) "unknown")
    (x_concept record)
    (or_default (x_source_url record) "").

Definition _get_examples (g : Neo4j) (concept_titles : list string)
    (max_per_concept : Z) : list RetrievedExample :=
  example_of_record <$> examples_query g concept_titles max_per_concept.

(** The list handed to [_deduplicate_concepts]: seeds, then prerequisites,
    then related concepts. *)
Definition gathered_concepts (g : Neo4j) (seed_titles : list string)
    (prereq_depth related_depth : nat) : list RetrievedConcept :=
  _get_seed_concepts g seed_titles
  ++ _get_prerequisites g seed_titles prereq_depth
  ++ _get_related_concepts g seed_titles related_depth.

Definition expand_seeds (g : Neo4j) (seed_titles : list string)
    (prereq_depth related_depth : nat) (max_concepts : Z)
    (max_examples_per_concept : Z) : Subgraph :=
  let concepts :=
    _deduplicate_concepts
      (gathered_concepts g seed_titles prereq_depth related_depth)
      max_concepts in
  let prereq_chains := _get_prereq_chains g seed_titles prereq_depth in
  let concept_titles := title <$> concepts in
  let resources := _get_resources g concept_titles in
  let examples := _get_examples g concept_titles max_examples_per_concept in
  mkSubgraph seed_titles concepts resources examples prereq_chains.

(** ** Hybrid retrieval orchestrator: [hybrid_retriever.py] *)

(** One entry of [ConceptEmbedder.search]; [score] is [round(score, 4)],
    held in ten-thousandths. *)
Record SemanticMatch := mkSemanticMatch {
  m_title : string;
  m_definition : string;
  m_difficulty : string;
  m_score : Z;
  m_full_text : string;
}.

(** The field [seed_concepts] of the source is [used_seed_concepts] here,
    [seed_concepts] being the projection of [Subgraph]. *)
Record RetrievalResult := mkRetrievalResult {
  query : string;
  semantic_matches : list SemanticMatch;
  used_seed_concepts : list string;
  subgraph : Subgraph;
  ordered_concepts : list string;
}.

(** The vector search gateway: [search(query, top_k, min_score)]. *)
Definition ConceptEmbedder := string → Z → Z → list SemanticMatch.

Record HybridRetriever := mkHybridRetriever {
  embedder : ConceptEmbedder;
  graph_retriever : Neo4j;
}.

(** Steps 3 and 4 of [retrieve] with the final assembly, shared by both
    entry points. *)
Definition expand_and_order (self : HybridRetriever) (query : string)
    (matches : list SemanticMatch) (seeds : list string)
    (prereq_depth related_depth : nat) (max_concepts : Z)
    (max_examples_per_concept : Z) : RetrievalResult :=
  let sg := expand_seeds (graph_retriever self) seeds prereq_depth
              related_depth max_concepts max_examples_per_concept in
  mkRetrievalResult query matches seeds sg
    (get_topological_order (graph_retriever self) (concepts sg)).

Definition retrieve (self : HybridRetriever) (query : string)
    (top_k_semantic : Z) (min_semantic_score : Z)
    (prereq_depth related_depth : nat) (max_concepts : Z)
    (max_examples_per_concept : Z) : RetrievalResult :=
  let matches := embedder self query top_k_semantic min_semantic_score in
  let seeds := m_title <$> matches in
  match seeds with
  | [] => mkRetrievalResult query [] [] (mkSubgraph [] [] [] [] []) []
  | _ :: _ =>
      expand_and_order self query matches seeds prereq_depth related_depth
        max_concepts max_examples_per_concept
  end.

(** [**kwargs], read with [kwargs.get(name, default)]. *)
Record Kwargs := mkKwargs {
  kw_top_k_semantic : option Z;
  kw_min_semantic_score : option Z;
  kw_prereq_depth : option nat;
  kw_related_depth : option nat;
  kw_max_concepts : option Z;
  kw_max_examples_per_concept : option Z;
}.

(** [for match in semantic_matches:
       if match["title"] not in seed_concepts: seed_concepts.append(...)] *)
Definition add_match (seed_concepts : list string) (m : SemanticMatch)
    : list string :=
  if bool_decide (m_title m ∈ seed_concepts) then seed_concepts
  else seed_concepts ++ [m_title m].

Definition union_seeds (explicit_concepts : list string)
    (matches : list SemanticMatch) : list string :=
  foldl add_match explicit_concepts matches.

Definition retrieve_with_explicit_concepts (self : HybridRetriever)
    (query : string) (explicit_concepts : list string) (kwargs : Kwargs)
    : RetrievalResult :=
  let matches :=
    embedder self query (default 3%Z (kw_top_k_semantic kwargs))
      (default 4000%Z (kw_min_semantic_score kwargs)) in
  expand_and_order self query matches (union_seeds explicit_concepts matches)
    (default 2 (kw_prereq_depth kwargs))
    (default 1 (kw_related_depth kwargs))
    (default 15%Z (kw_max_concepts kwargs))
    (default 2%Z (kw_max_examples_per_concept kwargs)).

(** *** Concrete stores used in the examples *)

Definition concept_of (t : string) (d : Z) (rel : string) : RetrievedConcept :=
  mkRetrievedConcept t "" "unknown" d rel t.

Definition bare_node (t : string) : ConceptNode := mkConceptNode t None None.

(** [Calculus -> Derivatives -> Gradient Descent] *)
Definition calculus_store : Neo4j :=
  concept_graph [bare_node "Gradient Descent"; bare_node "Derivatives"; bare_node "Calculus"]
          [mkRelationship 1 PREREQ_OF 0; mkRelationship 2 PREREQ_OF 1].

(** [A -> B -> A] *)
Definition cyclic_store : Neo4j :=
  concept_graph [bare_node "A"; bare_node "B"]
          [mkRelationship 0 PREREQ_OF 1; mkRelationship 1 PREREQ_OF 0].

(** [S -SIBLING-> T], [U -IS_A-> T], [T -PREREQ_OF-> S], [P -PREREQ_OF-> T],
    an example without text and one with text on [S], a resource without
    type on [S] and [T]. *)
Definition tutoring_store : Neo4j :=
  mkNeo4j
    [bare_node "S"; bare_node "T"; bare_node "U";
     mkConceptNode "P" (Some "") (Some "advanced")]
    [mkRelationship 0 SIBLING 1; mkRelationship 2 IS_A 1;
     mkRelationship 1 PREREQ_OF 0; mkRelationship 3 PREREQ_OF 1]
    [mkExampleNode None None None;
     mkExampleNode (Some "x = 1") (Some "code") (Some "http://e")]
    [(0, 0); (1, 0)]
    [mkResourceNode (Some "http://r") None]
    [(0, 0); (0, 1)].

(** [A -> C], [D -> B], [B -> C] *)
Definition diamond_store : Neo4j :=
  concept_graph [bare_node "A"; bare_node "B"; bare_node "C"; bare_node "D"]
          [mkRelationship 0 PREREQ_OF 2; mkRelationship 3 PREREQ_OF 1;
           mkRelationship 1 PREREQ_OF 2].

(** ** Callers of the retrieval engine *)

(** [Subgraph.concept_titles]: [[c.title for c in self.concepts]]. *)
Definition concept_titles (sg : Subgraph) : list string :=
  title <$> concepts sg.

(** The call of the chat interface ([app.py]):
    [retriever.retrieve(query=prompt, top_k_semantic=top_k,
       prereq_depth=prereq_depth, max_concepts=max_concepts)];
    the other parameters keep the defaults of [retrieve]. *)
Definition app_retrieve (self : HybridRetriever) (prompt : string)
    (top_k : Z) (prereq_depth : nat) (max_concepts : Z) : RetrievalResult :=
  retrieve self prompt top_k 4000%Z prereq_depth 1 max_concepts 2%Z.

(** ** Python helpers of the import and embedding scripts *)

(** A key of a JSON object or of a MongoDB document: absent, [null], or
    present with a value of the expected type. *)
Inductive field (A : Type) := Missing | Null | Value (a : A).
Arguments Missing {A}.
Arguments Null {A}.
Arguments Value {A} a.

(** [d.get(key)] and [d.get(key, default)]; the result [None] is Python's
    [None]. *)
Definition get {A} (f : field A) : option A :=
  match f with
  | Value a => Some a
  | _ => None
  end.

Definition get_or {A} (d : A) (f : field A) : option A :=
  match f with
  | Missing => Some d
  | Null => None
  | Value a => Some a
  end.

(** Truth value of a string that may be [None]. *)
Definition truthy (o : option string) : bool :=
  match o with
  | Some s => bool_decide (s ≠ "")
  | None => false
  end.

(** [sep.join(parts)] *)
Fixpoint join (sep : string) (parts : list string) : string :=
  match parts with
  | [] => ""
  | [p] => p
  | p :: rest => p +:+ sep +:+ join sep rest
  end.

(** [s[:n]], a [string] listing the characters of the Python [str]. *)
Fixpoint str_take (n : nat) (s : string) : string :=
  match n, s with
  | S n', String c s' => String c (str_take n' s')
  | _, _ => ""
  end.

(** [range(0, stop, step)] for a positive [step]. *)
Definition range_step (stop step : nat) : list nat :=
  (λ k, k * step) <$> seq 0 ((stop + step - 1) / step).

(** [l[i:j]] for [0 <= i <= j]. *)
Definition py_slice {A} (l : list A) (i j : nat) : list A :=
  take (j - i) (drop i l).

(** [for i in range(0, len(l), batch_size): batch = l[i:i + batch_size]]:
    the batches, in the order of the loop. *)
Definition batches {A} (l : list A) (batch_size : nat) : list (list A) :=
  (λ i, py_slice l i (i + batch_size)) <$> range_step (length l) batch_size.

(** ** Import of the examples: [graph/import_examples.py] *)

(** An entry of ["examples"] in [extractions.json] and an element of the
    file; the extraction prompt asks for strings. *)
Record JsonExample := mkJsonExample {
  j_text : field string;
  j_concept : field string;
  j_example_type : field string;
}.

Record Extraction := mkExtraction {
  ext_chunk_id : field string;
  ext_source_url : field string;
  ext_examples : field (list JsonExample);
}.

(** The dictionary appended to [all_examples]. *)
Record ExampleDoc := mkExampleDoc {
  doc_example_id : string;
  doc_text : string;
  doc_concept : string;
  doc_example_type : option string;
  doc_chunk_id : option string;
  doc_source_url : option string;
}.

(** [d[key]]: [None] is the [KeyError] of a missing key, [Some None] the
    value [None] of a key that is [null]. *)
Definition item {A} (f : field A) : option (option A) :=
  match f with
  | Missing => None
  | Null => Some None
  | Value a => Some (Some a)
  end.

(** [db.extractions.update_one({"chunk_id": chunk_id},
     {"$set": {"examples": examples}})] *)
Record ExtractionUpdate := mkExtractionUpdate {
  upd_chunk_id : option string;
  upd_examples : list JsonExample;
}.

(** [for ext in extractions: if ext.get("examples"):
       db.extractions.update_one({"chunk_id": ext["chunk_id"]}, ...)]:
    the updates made, and [false] when [ext["chunk_id"]] raised [KeyError]
    and ended the loop. An ["examples"] that is missing, [null] or empty is
    skipped. *)
Fixpoint update_extractions (extractions : list Extraction)
    : list ExtractionUpdate * bool :=
  match extractions with
  | [] => ([], true)
  | ext :: rest =>
      match get (ext_examples ext) with
      | Some (example :: examples) =>
          match item (ext_chunk_id ext) with
          | Some chunk_id =>
              let later := update_extractions rest in
              (mkExtractionUpdate chunk_id (example :: examples) :: later.1,
               later.2)
          | None => ([], false)
          end
      | _ => update_extractions rest
      end
  end.

(** How a run of the script ends. *)
Inductive Outcome := Completed | TypeError | KeyError.

(** What a run of [import_examples] writes, in the order of the writes:
    the documents upserted into the [examples] collection by [bulk_write],
    the updates of the [extractions] collection, and the batches of 500
    passed to the Neo4j query as [$examples]; with how the run ended. The
    deletions of [clear_existing] and the indexes are not part of it. *)
Record ImportRun := mkImportRun {
  mongo_upserts : list ExampleDoc;
  mongo_updates : list ExtractionUpdate;
  neo4j_batches : list (list ExampleDoc);
  outcome : Outcome;
}.

Section import_examples.
(** [hashlib.md5(s.encode()).hexdigest()[:16]] *)
Variable md5_hex16 : string → string.

Definition generate_example_id (text concept : string) : string :=
  md5_hex16 (text +:+ ":" +:+ concept).

(** The body of [for example in ext.get("examples", [])]: [None] where the
    loop continues without appending. *)
Definition example_doc (chunk_id source_url : option string)
    (example : JsonExample) : option ExampleDoc :=
  if truthy (get (j_text example)) && truthy (get (j_concept example)) then
    match j_text example, j_concept example with
    | Value text, Value concept =>
        Some (mkExampleDoc (generate_example_id text concept) text concept
                (get_or "unknown" (j_example_type example))
                chunk_id source_url)
    | _, _ => None
    end
  else None.

(** One turn of [for ext in extractions]; [None] is the [TypeError] raised
    by iterating over an ["examples"] that is [null]. *)
Definition extraction_docs (ext : Extraction) : option (list ExampleDoc) :=
  match get_or [] (ext_examples ext) with
  | Some examples =>
      Some (omap (example_doc (get_or "" (ext_chunk_id ext))
                              (get_or "" (ext_source_url ext))) examples)
  | None => None
  end.

Fixpoint all_examples (extractions : list Extraction)
    : option (list ExampleDoc) :=
  match extractions with
  | [] => Some []
  | ext :: rest =>
      match extraction_docs ext with
      | Some docs => app docs <$> all_examples rest
      | None => None
      end
  end.

(** [if ex_id not in seen_ids: seen_ids[ex_id] = True;
     unique_examples.append(ex)] *)
Definition unique_step (st : gset string * list ExampleDoc) (ex : ExampleDoc)
    : gset string * list ExampleDoc :=
  if bool_decide (doc_example_id ex ∈ st.1) then st
  else ({[doc_example_id ex]} ∪ st.1, st.2 ++ [ex]).

Definition unique_examples (all : list ExampleDoc) : list ExampleDoc :=
  (foldl unique_step (∅, []) all).2.

(** [import_examples]: collecting raises before anything is written; the
    loop over the extractions raises after the upserts and before the
    Neo4j session is opened. *)
Definition import_examples (extractions : list Extraction) : ImportRun :=
  match all_examples extractions with
  | None => mkImportRun [] [] [] TypeError
  | Some all =>
      let unique := unique_examples all in
      let updates := update_extractions extractions in
      if updates.2
      then mkImportRun unique updates.1 (batches unique 500) Completed
      else mkImportRun unique updates.1 [] KeyError
  end.
End import_examples.

(** ** Embedding of the concepts: [retrieval/concept_embeddings.py] *)

(** A document of the [concepts] collection. *)
Record ConceptDoc := mkConceptDoc {
  cd_title : field string;
  cd_definition : field string;
  cd_difficulty : field string;
  cd_aliases : field (list string);
  cd_mention_count : field Z;
}.

(** [ConceptEmbedder._concept_to_text]; [None] is the [TypeError] of
    joining a title that is [None]. *)
Definition _concept_to_text (concept : ConceptDoc) : option string :=
  title ← get_or "" (cd_title concept);
  let definition := get_or "" (cd_definition concept) in
  let aliases := get_or [] (cd_aliases concept) in
  Some (join ". "
          ([title]
           ++ (if truthy definition then [default "" definition] else [])
           ++ match aliases with
              | Some (a :: al) => ["Also known as: " +:+ join ", " (a :: al)]
              | _ => []
              end)).

Record ConceptMetadata := mkConceptMetadata {
  md_title : string;
  md_definition : string;
  md_difficulty : option string;
  md_mention_count : option Z;
}.

(** What one concept adds to [ids], [texts] and [metadatas]. *)
Record EmbedEntry := mkEmbedEntry {
  en_id : string;
  en_text : string;
  en_metadata : ConceptMetadata;
}.

(** The arguments of one call of [collection.add]. *)
Record AddCall (embedding : Type) := mkAddCall {
  add_ids : list string;
  add_embeddings : list embedding;
  add_documents : list string;
  add_metadatas : list ConceptMetadata;
}.
Arguments mkAddCall {embedding} _ _ _ _.
Arguments add_ids {embedding} _.
Arguments add_embeddings {embedding} _.
Arguments add_documents {embedding} _.
Arguments add_metadatas {embedding} _.

Section embed_all_concepts.
(** [hashlib.md5(s.encode()).hexdigest()[:16]] and
    [self.model.encode(texts, ...).tolist()]. *)
Variable md5_hex16 : string → string.
Variable embedding : Type.
Variable encode : list string → list embedding.

Definition _generate_id (title : string) : string := md5_hex16 title.

(** The body of [for concept in batch]: [Some None] where the loop
    continues on a missing title, [None] for the [TypeError] of slicing a
    definition that is [None]. *)
Definition embed_concept (concept : ConceptDoc) : option (option EmbedEntry) :=
  let title := get_or "" (cd_title concept) in
  if truthy title then
    text ← _concept_to_text concept;
    definition ← get_or "" (cd_definition concept);
    Some (Some (mkEmbedEntry (_generate_id (default "" title)) text
                  (mkConceptMetadata (default "" title)
                     (str_take 500 definition)
                     (get_or "unknown" (cd_difficulty concept))
                     (get_or 0%Z (cd_mention_count concept)))))
  else Some None.

Fixpoint embed_batch (batch : list ConceptDoc) : option (list EmbedEntry) :=
  match batch with
  | [] => Some []
  | concept :: rest =>
      match embed_concept concept with
      | Some (Some entry) => cons entry <$> embed_batch rest
      | Some None => embed_batch rest
      | None => None
      end
  end.

Definition add_call (entries : list EmbedEntry) : AddCall embedding :=
  mkAddCall (en_id <$> entries) (encode (en_text <$> entries))
    (en_text <$> entries) (en_metadata <$> entries).

(** The loop over the batches, on the calls of [collection.add] made so
    far and [total_embedded]; the count is [None] when a batch raises,
    the earlier calls having been made. *)
Fixpoint embed_batches (bs : list (list ConceptDoc))
    (calls : list (AddCall embedding)) (total_embedded : Z)
    : list (AddCall embedding) * option Z :=
  match bs with
  | [] => (calls, Some total_embedded)
  | batch :: bs' =>
      match embed_batch batch with
      | None => (calls, None)
      | Some [] => embed_batches bs' calls total_embedded
      | Some entries =>
          embed_batches bs' (calls ++ [add_call entries])
            (total_embedded + Z.of_nat (length entries))%Z
      end
  end.

(** [embed_all_concepts] on the documents found in MongoDB: the calls of
    [collection.add] and the returned count.  [range] raises [ValueError]
    on a step of 0 and is empty on a negative step. *)
Definition embed_all_concepts (concepts : list ConceptDoc) (batch_size : Z)
    : list (AddCall embedding) * option Z :=
  if bool_decide (batch_size = 0)%Z then ([], None)
  else if bool_decide (batch_size < 0)%Z then ([], Some 0%Z)
  else embed_batches (batches concepts (Z.to_nat batch_size)) [] 0%Z.
End embed_all_concepts.

(** ** Prompt context: [generation/answer_generator.py] *)

(** The line feed of the source's ["\n"]. *)
Definition nl : string := String (Ascii.ascii_of_nat 10) "".

(** [str.upper] on the ASCII range. *)
Definition upper_ascii (c : Ascii.ascii) : Ascii.ascii :=
  let n := Ascii.nat_of_ascii c in
  if bool_decide (97 ≤ n ≤ 122)%nat then Ascii.ascii_of_nat (n - 32) else c.

Fixpoint upper (s : string) : string :=
  match s with
  | EmptyString => EmptyString
  | String c s' => String (upper_ascii c) (upper s')
  end.

(** A string that may be [None], as an f-string prints it. *)
Definition str_of (o : option string) : string := default "None" o.

(** A list of integers, as an f-string prints it. *)
Definition repr_ints (l : list Z) : string :=
  "[" +:+ join ", " (pretty <$> l) +:+ "]".

(** [{c.title: c for c in result.subgraph.concepts}] *)
Definition concept_lookup (concepts : list RetrievedConcept)
    : list (string * RetrievedConcept) :=
  foldl (λ d c, dict_set d (title c) c) [] concepts.

(** The body of [for i, title in enumerate(result.ordered_concepts, 1)];
    the heading prints the title of the loop, which is the key under which
    the concept was found. *)
Definition concept_lines (lookup : list (string * RetrievedConcept))
    (i : nat) (t : string) : list string :=
  match dict_get lookup t with
  | Some concept =>
      [nl +:+ "**" +:+ pretty i +:+ ". " +:+ t +:+ "** ["
          +:+ or_default (Some (difficulty concept)) "unknown" +:+ "]";
       or_default (Some (definition concept)) "No definition available."]
      ++ (if bool_decide (relation_to_seed concept ≠ "seed")
          then ["*(Relationship: " +:+ relation_to_seed concept +:+ " of "
                  +:+ seed_concept concept +:+ ")*"]
          else [])
  | None => []
  end.

Definition concepts_sections (ordered : list string)
    (concepts : list RetrievedConcept) : list string :=
  mjoin (imap (λ i t, concept_lines (concept_lookup concepts) (S i) t) ordered).

(** [examples_by_concept], an insertion-ordered dictionary of lists. *)
Definition examples_by_concept (examples : list RetrievedExample)
    : list (string * list RetrievedExample) :=
  foldl (λ d ex, dict_set d (concept ex)
                   (default [] (dict_get d (concept ex)) ++ [ex]))
        [] examples.

Definition example_lines (ex : RetrievedExample) : list string :=
  ["- [" +:+ example_type ex +:+ "] " +:+ str_of (text ex)]
  ++ (if bool_decide (source_url ex ≠ "")
      then ["  Source: " +:+ source_url ex] else []).

Definition examples_sections (ordered : list string)
    (examples : list RetrievedExample) : list string :=
  match examples with
  | [] => []
  | _ :: _ =>
      [nl +:+ "### Examples from Course Materials"]
      ++ (concept_title ← ordered;
          match dict_get (examples_by_concept examples) concept_title with
          | Some exs =>
              [nl +:+ "**Examples for " +:+ concept_title +:+ ":**"]
              ++ (exs ≫= example_lines)
          | None => []
          end)
  end.

(** [by_type], keyed by [r.resource_type or "other"]. *)
Definition by_type (resources : list RetrievedResource)
    : list (string * list RetrievedResource) :=
  foldl (λ d r,
           let rtype := or_default (Some (resource_type r)) "other" in
           dict_set d rtype (default [] (dict_get d rtype) ++ [r]))
        [] resources.

(** The lines of one resource; [None] is the [KeyError] of a [timecodes]
    dictionary without ["start"] or ["end"]. *)
Definition resource_lines (r : RetrievedResource) : option (list string) :=
  let lines :=
    ["- " +:+ str_of (url r);
     "  Explains: " +:+ join ", " (take 3 (concepts_explained r))]
    ++ match page_numbers r with
       | Some (p :: ps) => ["  Pages: " +:+ repr_ints (p :: ps)]
       | _ => []
       end in
  match timecodes r with
  | Some (tc :: tcs) =>
      match dict_get (tc :: tcs) "start", dict_get (tc :: tcs) "end" with
      | Some start, Some stop =>
          Some (lines ++ ["  Time: " +:+ start +:+ "s - " +:+ stop +:+ "s"])
      | _, _ => None
      end
  | _ => Some lines
  end.

(** The lines of a loop whose body may raise. *)
Fixpoint collect_lines {A} (f : A → option (list string)) (l : list A)
    : option (list string) :=
  match l with
  | [] => Some []
  | x :: l' =>
      match f x with
      | Some lines => app lines <$> collect_lines f l'
      | None => None
      end
  end.

Definition resources_sections (resources : list RetrievedResource)
    : option (list string) :=
  match resources with
  | [] => Some []
  | _ :: _ =>
      cons (nl +:+ "### Available Resources for Further Reading")
      <$> collect_lines
            (λ group : string * list RetrievedResource,
               cons (nl +:+ "**" +:+ upper group.1 +:+ " Resources:**")
               <$> collect_lines resource_lines (take 5 group.2))
            (by_type resources)
  end.

Definition chain_sections (prereq_chain : list (list string)) : list string :=
  match prereq_chain with
  | [] => []
  | _ :: _ =>
      [nl +:+ "### Learning Path (Prerequisites → Target)"]
      ++ (chain ← prereq_chain;
          if bool_decide (1 < length chain) then ["- " +:+ join " → " chain]
          else [])
  end.

(** [AnswerGenerator._build_context]; [None] when it raises. *)
Definition _build_context (result : RetrievalResult) : option string :=
  let sg := subgraph result in
  match resources_sections (resources sg) with
  | Some resource_part =>
      Some (join nl
              (["### Relevant Concepts (ordered from foundational to advanced)"]
               ++ concepts_sections (ordered_concepts result) (concepts sg)
               ++ examples_sections (ordered_concepts result) (examples sg)
               ++ resource_part
               ++ chain_sections (prereq_chain sg)))
  | None => None
  end.

(** ** Vocabulary of the statements *)

(** The number of times [t] is listed in [l]. *)
Definition occurrences (t : string) (l : list string) : Z :=
  Z.of_nat (length (filter (λ x, x = t) l)).

(** The titles of [K] whose counter is still positive: with the length of
    the queue, the measure that the queue loop decreases. *)
Definition waiting (K : list string) (indeg : gmap string Z) : nat :=
  length (filter (λ t, 0 < in_degree_at indeg t)%Z K).

(** The store holds a [PREREQ_OF] relationship from a node titled [a] to a
    node titled [b]. *)
Definition prereq_of (g : Neo4j) (a b : string) : Prop :=
  ∃ r, r ∈ relationships g ∧ r_type r = PREREQ_OF
       ∧ node_title g (r_start r) = Some a ∧ node_title g (r_end r) = Some b.

(** A [PREREQ_OF] edge with both end points in the title set. *)
Definition internal_edge (g : Neo4j) (titles : list string) (a b : string) : Prop :=
  prereq_of g a b ∧ a ∈ titles ∧ b ∈ titles.

(** No title reaches itself along one or more edges. *)
Definition acyclic (R : relation string) : Prop := ∀ t, ¬ tc R t t.

(** Edges into [t] whose source is not yet in [res]. *)
Definition pending (edges : list (string * string)) (res : list string)
    (t : string) : Z :=
  occurrences t ((filter (λ e, e.1 ∉ res) edges).*2).

(** The state of the queue loop on distinct [titles] with internal [edges]:
    what is placed or queued is distinct, the counters hold the edges whose
    source is yet to be placed, and sources come before their targets. *)
Record kahn_inv (titles : list string) (edges : list (string * string))
    (st : KahnState) : Prop := {
  inv_nodup : NoDup (ks_result st ++ ks_queue st);
  inv_titles : ∀ t, t ∈ ks_result st ++ ks_queue st → t ∈ titles;
  inv_degree : ∀ t,
    in_degree_at (ks_in_degree st) t = pending edges (ks_result st) t;
  inv_ready : ∀ t, t ∈ titles →
    (t ∈ ks_result st ++ ks_queue st ↔ in_degree_at (ks_in_degree st) t = 0%Z);
  inv_order : ∀ a b, (a, b) ∈ edges → b ∈ ks_result st ++ ks_queue st →
    ∃ l1 l2, ks_result st ++ ks_queue st = l1 ++ b :: l2 ∧ a ∈ l1;
}.

(** Equal keys keep the order they had: a relation that holds from every
    element to the later ones still holds between equal keys. *)
Definition key_then {A : Type} (key : A → Z) (R : relation A) : relation A :=
  λ x y, (key x ≤ key y)%Z ∧ (key x = key y → R x y).

(** [sorted_concepts] is the per-title lowest-depth deduplication. *)
Definition lowest_depth_dedup (input l : list RetrievedConcept) : Prop :=
  NoDup (title <$> l)
  ∧ (∀ k, k ∈ l → k ∈ input)
  ∧ (∀ c, c ∈ input → ∃ k, k ∈ l ∧ title k = title c ∧ (depth k ≤ depth c)%Z).

(** Precedence of the stage an entry comes from: seed, prerequisite, related. *)
Definition stage_rank (c : RetrievedConcept) : nat :=
  if bool_decide (relation_to_seed c = "seed") then 0
  else if bool_decide (relation_to_seed c = "prerequisite") then 1
  else 2.

Definition seed_entry (c : RetrievedConcept) : Prop :=
  relation_to_seed c = "seed" ∧ depth c = 0%Z.

Definition prereq_entry (c : RetrievedConcept) : Prop :=
  relation_to_seed c = "prerequisite" ∧ (1 ≤ depth c)%Z.

Definition related_entry (c : RetrievedConcept) : Prop :=
  stage_rank c = 2 ∧ depth c = 1%Z.

(** The three blocks of the list given to [_deduplicate_concepts]. *)
Record staged (seeds prereqs related : list RetrievedConcept) : Prop := {
  staged_seeds : Forall seed_entry seeds;
  staged_prereqs : Forall prereq_entry prereqs;
  staged_prereqs_ascending :
    StronglySorted (λ x y, depth x ≤ depth y)%Z prereqs;
  staged_related : Forall related_entry related;
}.

(** Position class of an entry in [seen]: depth 0, prerequisite of depth 1,
    anything else. *)
Definition tier (c : RetrievedConcept) : nat :=
  if bool_decide (depth c ≤ 0)%Z then 0
  else if bool_decide (depth c = 1%Z ∧ relation_to_seed c = "prerequisite")
       then 1 else 2.

(** Order of [sorted_concepts] on a staged input: ascending depth, and
    at equal depth seed before prerequisite before related. *)
Definition precedes (x y : RetrievedConcept) : Prop :=
  (depth x < depth y)%Z ∨ (depth x = depth y ∧ stage_rank x ≤ stage_rank y).

(** The truncation property of [_deduplicate_concepts]: the kept
    entries are the first [max_concepts] of the deduplicated list, and every
    kept entry precedes every dropped one. *)
Definition keeps_lowest (input : list RetrievedConcept) (max_concepts : Z)
    : Prop :=
  ∃ dropped,
    sorted_concepts input = _deduplicate_concepts input max_concepts ++ dropped
    ∧ Z.of_nat (length (_deduplicate_concepts input max_concepts)) = max_concepts
    ∧ ∀ x y, x ∈ _deduplicate_concepts input max_concepts → y ∈ dropped →
             precedes x y.

Definition seed_S : RetrievedConcept := concept_of "S" 0 "seed".

Definition prereq_T2 : RetrievedConcept :=
  mkRetrievedConcept "T" "" "unknown" 2 "prerequisite" "S".

Definition prereq_P1 : RetrievedConcept :=
  mkRetrievedConcept "P" "" "unknown" 1 "prerequisite" "S".

Definition sibling_T1 : RetrievedConcept :=
  mkRetrievedConcept "T" "" "unknown" 1 "sibling" "S".

Definition sibling_Q1 : RetrievedConcept :=
  mkRetrievedConcept "Q" "" "unknown" 1 "sibling" "S".

(** [p] leads into [v] along [PREREQ_OF] relationships, the one entering [v]
    first. *)
Fixpoint is_prereq_path (g : Neo4j) (v : nat) (p : Path) : Prop :=
  match p with
  | [] => True
  | ir :: p' =>
      ir ∈ bound_rels g ∧ r_type ir.2 = PREREQ_OF ∧ r_end ir.2 = v
      ∧ is_prereq_path g (r_start ir.2) p'
  end.

(** A match of [()-[:PREREQ_OF*1..d]->(v)]: 1 to [d] hops, no relationship
    used twice. *)
Definition prereq_trail (g : Neo4j) (d : nat) (v : nat) (p : Path) : Prop :=
  p ≠ [] ∧ length p ≤ d ∧ is_prereq_path g v p ∧ NoDup p.*1.

(** [p] leads from [v] to [w] along peer relationships walked in either
    direction. *)
Fixpoint is_peer_path (g : Neo4j) (v : nat) (p : Path) (w : nat) : Prop :=
  match p with
  | [] => v = w
  | ir :: p' =>
      ir ∈ bound_rels g ∧ r_type ir.2 ≠ PREREQ_OF
      ∧ ∃ u, u ∈ far_ends ir.2 v ∧ is_peer_path g u p' w
  end.

Definition peer_trail (g : Neo4j) (d : nat) (v : nat) (p : Path) (w : nat)
    : Prop :=
  p ≠ [] ∧ length p ≤ d ∧ is_peer_path g v p w ∧ NoDup p.*1.

(** The lower-cased names of the four peer relation types. *)
Definition peer_relation_names : list string :=
  ["is_a"; "part_of"; "sibling"; "contrasts_with"].

Definition related_U : RetrievedConcept :=
  mkRetrievedConcept "U" "" "unknown" 1 "sibling" "S".

(** The answer of the chain query for one seed: the singleton of the seed
    when no path leads into it, and else the titles along a longest path
    [p]: counted from the far end of the path, the relationship number [i]
    leads from the node of the title number [i] of the chain to the node
    of the title that follows it. *)
Definition chain_for (g : Neo4j) (d : nat) (seed : string)
    (chain : list string) : Prop :=
  (chain = [seed]
   ∧ ∀ v p, node_title g v = Some seed → ¬ prereq_trail g d v p)
  ∨ (∃ v p,
       node_title g v = Some seed ∧ prereq_trail g d v p
       ∧ length chain = S (length p)
       ∧ (∀ i ir, reverse p !! i = Some ir →
            chain !! i = node_title g (r_start ir.2)
            ∧ chain !! S i = node_title g (r_end ir.2))
       ∧ last chain = Some seed
       ∧ ∀ v' p', node_title g v' = Some seed → prereq_trail g d v' p' →
                  length p' ≤ length p).

(** [RetrievalResult] of the empty-result state. *)
Definition empty_result (query : string) : RetrievalResult :=
  mkRetrievalResult query [] [] (mkSubgraph [] [] [] [] []) [].

Definition silent_retriever : HybridRetriever :=
  mkHybridRetriever (λ _ _ _, []) calculus_store.

Definition no_kwargs : Kwargs := mkKwargs None None None None None None.

Definition tutor_retriever : HybridRetriever :=
  mkHybridRetriever
    (λ _ _ _, [mkSemanticMatch "Derivatives" "" "unknown" 9000%Z "";
               mkSemanticMatch "Gradient Descent" "" "unknown" 7000%Z "";
               mkSemanticMatch "Calculus" "" "unknown" 5000%Z ""])
    calculus_store.

(** The store has a [Resource] node [rn] with an [EXPLAINS] relationship to
    a [Concept] node titled [t]. *)
Definition explains_title (g : Neo4j) (rn : ResourceNode) (t : string) : Prop :=
  ∃ ri ci cn,
    (ri, ci) ∈ explains g ∧ resource_nodes g !! ri = Some rn
    ∧ concept_nodes g !! ci = Some cn ∧ c_title cn = t.

(** The grouping key of a row of the resource query. *)
Definition resource_key (r : ResourceRecord) : option string * option string :=
  (s_url r, s_resource_type r).

Definition extend_group (grp : ResourceRecord) (t : string) : ResourceRecord :=
  mkResourceRecord (s_url grp) (s_resource_type grp)
    (if bool_decide (t ∈ s_concepts grp) then s_concepts grp
     else s_concepts grp ++ [t]).

(** The groups built by [collect_title] from the rows [bs]. *)
Record resource_groups (bs : list (ResourceNode * string))
    (groups : list ResourceRecord) : Prop := {
  groups_keys : NoDup (resource_key <$> groups);
  groups_cover : ∀ b, b ∈ bs → (n_url b.1, n_type b.1) ∈ resource_key <$> groups;
  groups_concepts_nodup : ∀ r, r ∈ groups → NoDup (s_concepts r);
  groups_inhabited : ∀ r, r ∈ groups → s_concepts r ≠ [];
  groups_concepts : ∀ r t, r ∈ groups →
    (t ∈ s_concepts r ↔
     ∃ rn, (rn, t) ∈ bs ∧ (n_url rn, n_type rn) = resource_key r);
}.

(** The store has an [Example] node [en] with an [EXEMPLIFIES] relationship
    to a [Concept] node titled [t]. *)
Definition exemplifies_title (g : Neo4j) (en : ExampleNode) (t : string) : Prop :=
  ∃ ei ci cn,
    (ei, ci) ∈ exemplifies g ∧ example_nodes g !! ei = Some en
    ∧ concept_nodes g !! ci = Some cn ∧ c_title cn = t.

(** The rows a group of examples contributes to the result. *)
Definition group_rows (max : Z) (grp : string * list ExampleNode)
    : list ExampleRecord :=
  e ← py_slice_to grp.2 max;
  [mkExampleRecord (e_text e) (e_example_type e) grp.1 (e_source_url e)].

(** The grouping key of a row of the prerequisite query. *)
Definition prereq_key (r : PrereqRecord)
    : string * option string * option string * string :=
  (p_title r, p_definition r, p_difficulty r, p_seed_concept r).

(** The groups built by [min_into] from the rows [rows]. *)
Record min_groups (rows groups : list PrereqRecord) : Prop := {
  mg_keys : NoDup (prereq_key <$> groups);
  mg_rows : ∀ r, r ∈ groups → r ∈ rows;
  mg_least : ∀ row, row ∈ rows →
    ∃ r, r ∈ groups ∧ prereq_key r = prereq_key row
         ∧ (p_depth r ≤ p_depth row)%Z;
}.

(** The examples listed by an extraction, none for a missing key. *)
Definition listed_examples (ext : Extraction) : list JsonExample :=
  match ext_examples ext with
  | Value examples => examples
  | _ => []
  end.

(** The result of the deduplication loop on [all]. *)
Record deduplicated (all unique : list ExampleDoc) : Prop := {
  dd_ids : NoDup (doc_example_id <$> unique);
  dd_sublist : unique `sublist_of` all;
  dd_first : ∀ u, u ∈ unique →
    ∃ l1 l2, all = l1 ++ u :: l2 ∧ doc_example_id u ∉ doc_example_id <$> l1;
  dd_cover : ∀ d, d ∈ all →
    doc_example_id d ∈ doc_example_id <$> unique;
}.

(** Two extractions: one lists an example twice and an example without
    text, the other has no ["examples"] key. *)
Definition sample_extractions : list Extraction :=
  [mkExtraction (Value "c1") (Value "http://a")
     (Value [mkJsonExample (Value "x = 1") (Value "S") Missing;
             mkJsonExample Null (Value "S") (Value "code");
             mkJsonExample (Value "x = 1") (Value "S") (Value "math")]);
   mkExtraction Missing Null Missing].

Definition sample_doc : ExampleDoc :=
  mkExampleDoc "x = 1:S" "x = 1" "S" (Some "unknown") (Some "c1")
    (Some "http://a").

(** An extraction with examples and no ["chunk_id"] key. *)
Definition unkeyed_extractions : list Extraction :=
  [mkExtraction Missing (Value "http://a")
     (Value [mkJsonExample (Value "x = 1") (Value "S") Missing])].

(** The title under which a document is embedded: a non-empty string. *)
Definition titled (concept : ConceptDoc) : option string :=
  match cd_title concept with
  | Value title => if bool_decide (title ≠ "") then Some title else None
  | _ => None
  end.

(** The documents of [concepts] that make [embed_all_concepts] raise: a
    title to embed and a definition that is [null]. *)
Definition unsliceable (concept : ConceptDoc) : Prop :=
  is_Some (titled concept) ∧ cd_definition concept = Null.

Definition three_concepts : list ConceptDoc :=
  [mkConceptDoc (Value "Calculus") (Value "The study of change.") Missing
     (Value ["Analysis"; "Infinitesimal calculus"]) (Value 3%Z);
   mkConceptDoc (Value "") (Value "No title.") Missing Missing Missing;
   mkConceptDoc (Value "Derivatives") Missing (Value "beginner") (Value [])
     Missing].

(** The lines of one concept, numbered [i]. *)
Definition concept_entry (i : nat) (concept : RetrievedConcept) : list string :=
  [nl +:+ "**" +:+ pretty i +:+ ". " +:+ title concept +:+ "** ["
      +:+ or_default (Some (difficulty concept)) "unknown" +:+ "]";
   or_default (Some (definition concept)) "No definition available."]
  ++ (if bool_decide (relation_to_seed concept ≠ "seed")
      then ["*(Relationship: " +:+ relation_to_seed concept +:+ " of "
              +:+ seed_concept concept +:+ ")*"]
      else []).

(** The examples of one concept, in the order of the subgraph. *)
Definition examples_of (examples : list RetrievedExample) (concept_title : string)
    : list RetrievedExample :=
  filter (λ ex, concept ex = concept_title) examples.

(** The lines of one concept that has examples. *)
Definition example_group (examples : list RetrievedExample)
    (concept_title : string) : list string :=
  match examples_of examples concept_title with
  | [] => []
  | ex :: exs =>
      [nl +:+ "**Examples for " +:+ concept_title +:+ ":**"]
      ++ ((ex :: exs) ≫= example_lines)
  end.

(** * Properties *)

Example order_calculus :
  get_topological_order calculus_store
    [concept_of "Gradient Descent" 0 "seed";
     concept_of "Derivatives" 1 "prerequisite";
     concept_of "Calculus" 2 "prerequisite"]
  = ["Calculus"; "Derivatives"; "Gradient Descent"].
Proof. vm_compute. reflexivity. Qed.

Example order_cycle :
  get_topological_order cyclic_store
    [concept_of "B" 0 "seed"; concept_of "A" 1 "prerequisite"]
  = ["B"; "A"].
Proof. vm_compute. reflexivity. Qed.

(** ** Counting occurrences *)

Lemma occurrences_nil t : occurrences t [] = 0%Z.
Proof. reflexivity. Qed.

Lemma occurrences_cons t x l :
  occurrences t (x :: l) = ((if bool_decide (x = t) then 1 else 0) + occurrences t l)%Z.
Proof.
  unfold occurrences. rewrite filter_cons.
  case_bool_decide; case_decide; try done; simpl; lia.
Qed.

Lemma occurrences_app t l k :
  occurrences t (l ++ k) = (occurrences t l + occurrences t k)%Z.
Proof. unfold occurrences. rewrite filter_app, length_app. lia. Qed.

Lemma occurrences_nonneg t l : (0 ≤ occurrences t l)%Z.
Proof. unfold occurrences. lia. Qed.

Lemma occurrences_pos t l : (0 < occurrences t l)%Z ↔ t ∈ l.
Proof.
  induction l as [|x l IH]; [rewrite occurrences_nil; split; [lia | inversion 1]|].
  rewrite occurrences_cons, elem_of_cons.
  pose proof (occurrences_nonneg t l) as Hnn.
  case_bool_decide as Hx; subst; split.
  - auto.
  - lia.
  - intros Hpos. right. apply IH. lia.
  - intros [Heq | Hin]; [congruence | apply IH in Hin; lia].
Qed.

Lemma in_degree_at_insert m k v t :
  in_degree_at (<[k := v]> m) t = if bool_decide (k = t) then v else in_degree_at m t.
Proof.
  unfold in_degree_at. rewrite lookup_insert.
  case_decide; case_bool_decide; done.
Qed.

Lemma graph_at_insert m k v t :
  graph_at (<[k := v]> m) t = if bool_decide (k = t) then v else graph_at m t.
Proof.
  unfold graph_at. rewrite lookup_insert.
  case_decide; case_bool_decide; done.
Qed.

Lemma init_in_degree_at titles t : in_degree_at (init_in_degree titles) t = 0%Z.
Proof.
  unfold init_in_degree.
  assert (∀ m, in_degree_at m t = 0%Z →
    in_degree_at (foldl (λ m t, <[t := 0%Z]> m) m titles) t = 0%Z) as H.
  { induction titles as [|x l IH]; intros m Hm; simpl; [done|].
    apply IH. rewrite in_degree_at_insert. by case_bool_decide. }
  apply H. reflexivity.
Qed.

Lemma build_graph_spec titles edges :
  (∀ a, graph_at (build_graph titles edges).1 a = (filter (λ e, e.1 = a) edges).*2)
  ∧ (∀ t, in_degree_at (build_graph titles edges).2 t = occurrences t (edges.*2)).
Proof.
  unfold build_graph.
  induction edges as [|e edges IH] using rev_ind.
  - simpl. split; [done|]. intros t. apply init_in_degree_at.
  - destruct IH as [IHg IHd]. rewrite foldl_snoc. split.
    + intros a. simpl. rewrite graph_at_insert, filter_app, fmap_app, IHg.
      rewrite filter_cons, filter_nil.
      case_bool_decide; case_decide; try done; subst.
      * done.
      * simpl. by rewrite app_nil_r.
    + intros t. simpl. rewrite in_degree_at_insert, fmap_app, !IHd.
      rewrite occurrences_app. simpl. rewrite occurrences_cons, occurrences_nil.
      case_bool_decide; subst; lia.
Qed.

(** ** The inner loop over the neighbours of a dequeued node *)

Lemma visit_neighbor_eq indeg q d :
  visit_neighbor (indeg, q) d
  = (<[d := (in_degree_at indeg d - 1)%Z]> indeg,
     if bool_decide (in_degree_at indeg d = 1%Z) then q ++ [d] else q).
Proof.
  unfold visit_neighbor. simpl. rewrite in_degree_at_insert.
  rewrite (bool_decide_eq_true_2 (d = d)) by done.
  repeat case_bool_decide; try done; lia.
Qed.

Lemma visit_fold ds : ∀ indeg q,
  (∀ t, in_degree_at (foldl visit_neighbor (indeg, q) ds).1 t
        = (in_degree_at indeg t - occurrences t ds)%Z)
  ∧ ∃ extra, (foldl visit_neighbor (indeg, q) ds).2 = q ++ extra
      ∧ NoDup extra
      ∧ ∀ t, t ∈ extra ↔ (0 < in_degree_at indeg t ≤ occurrences t ds)%Z.
Proof.
  induction ds as [|d ds IH]; intros indeg q.
  - simpl. split; [intros; rewrite occurrences_nil; lia|].
    exists []. rewrite app_nil_r. split; [done|]. split; [constructor|].
    intros t. rewrite occurrences_nil. split; [inversion 1 | lia].
  - simpl. rewrite visit_neighbor_eq.
    set (indeg1 := <[d := (in_degree_at indeg d - 1)%Z]> indeg).
    assert (∀ t, in_degree_at indeg1 t
                 = if bool_decide (d = t) then (in_degree_at indeg d - 1)%Z
                   else in_degree_at indeg t) as Hi1.
    { intros t. unfold indeg1. apply in_degree_at_insert. }
    destruct (bool_decide (in_degree_at indeg d = 1%Z)) eqn:Hone.
    + apply bool_decide_eq_true in Hone.
      destruct (IH indeg1 (q ++ [d])) as [IHd (extra & Hq & Hnd & Hex)].
      split.
      { intros t. rewrite IHd, Hi1, occurrences_cons.
        case_bool_decide; subst; lia. }
      exists (d :: extra). split; [by rewrite Hq, <- app_assoc|].
      split.
      { constructor; [|done]. rewrite Hex, Hi1.
        rewrite bool_decide_eq_true_2 by done. lia. }
      intros t. rewrite elem_of_cons, Hex, Hi1, occurrences_cons.
      pose proof (occurrences_nonneg t ds).
      case_bool_decide as Hdt; subst; split.
      * intros _. lia.
      * intros _. by left.
      * intros [Heq | Hpos]; [congruence | lia].
      * intros Hpos. right. lia.
    + apply bool_decide_eq_false in Hone.
      destruct (IH indeg1 q) as [IHd (extra & Hq & Hnd & Hex)].
      split.
      { intros t. rewrite IHd, Hi1, occurrences_cons.
        case_bool_decide; subst; lia. }
      exists extra. split; [done|]. split; [done|].
      intros t. rewrite Hex, Hi1, occurrences_cons.
      case_bool_decide; subst; lia.
Qed.

(** ** The fuel suffices: the queue is empty when [kahn_loop] stops *)

Lemma waiting_insert_notin K indeg d v :
  d ∉ K → waiting K (<[d := v]> indeg) = waiting K indeg.
Proof.
  unfold waiting. induction K as [|x K IH]; intros Hd; [done|].
  apply not_elem_of_cons in Hd as [Hne Hd].
  rewrite !filter_cons, in_degree_at_insert.
  rewrite bool_decide_eq_false_2 by done.
  case_decide; simpl; rewrite IH; done.
Qed.

Lemma waiting_insert_in K indeg d v :
  NoDup K → d ∈ K →
  waiting K (<[d := v]> indeg) + (if bool_decide (0 < in_degree_at indeg d)%Z then 1 else 0)
  = waiting K indeg + (if bool_decide (0 < v)%Z then 1 else 0).
Proof.
  intros Hnd. induction Hnd as [|x K Hx Hnd IH]; intros Hd; [inversion Hd|].
  unfold waiting in *. rewrite !filter_cons, in_degree_at_insert.
  destruct (decide (x = d)) as [->|Hne].
  - rewrite bool_decide_eq_true_2 by done.
    pose proof (waiting_insert_notin K indeg d v Hx) as Hw. unfold waiting in Hw.
    repeat case_decide; repeat case_bool_decide; simpl; try lia.
  - rewrite bool_decide_eq_false_2 by done.
    apply elem_of_cons in Hd as [Hd|Hd]; [congruence|].
    specialize (IH Hd).
    repeat case_decide; repeat case_bool_decide; simpl; try lia.
Qed.

Lemma visit_neighbor_measure K indeg q d :
  NoDup K → d ∈ K →
  length (visit_neighbor (indeg, q) d).2 + waiting K (visit_neighbor (indeg, q) d).1
  = length q + waiting K indeg.
Proof.
  intros Hnd Hd. rewrite visit_neighbor_eq. simpl.
  pose proof (waiting_insert_in K indeg d (in_degree_at indeg d - 1)%Z Hnd Hd) as Hw.
  repeat case_bool_decide; rewrite ?length_app; simpl; lia.
Qed.

Lemma visit_fold_measure K ds : ∀ indeg q,
  NoDup K → (∀ d, d ∈ ds → d ∈ K) →
  length (foldl visit_neighbor (indeg, q) ds).2
  + waiting K (foldl visit_neighbor (indeg, q) ds).1
  = length q + waiting K indeg.
Proof.
  induction ds as [|d ds IH]; intros indeg q Hnd Hin; [done|].
  simpl. destruct (visit_neighbor (indeg, q) d) as [i1 q1] eqn:Hv.
  rewrite IH; [|done|intros; apply Hin; by right].
  pose proof (visit_neighbor_measure K indeg q d Hnd) as Hm.
  rewrite Hv in Hm. apply Hm, Hin. by left.
Qed.

Lemma kahn_loop_drains_gen K graph fuel : ∀ st,
  NoDup K →
  (∀ node d, d ∈ graph_at graph node → d ∈ K) →
  length (ks_queue st) + waiting K (ks_in_degree st) ≤ fuel →
  ks_queue (kahn_loop fuel graph st) = [].
Proof.
  induction fuel as [|fuel IH]; intros st Hnd Hg Hm.
  - simpl. destruct (ks_queue st); [done | simpl in Hm; lia].
  - simpl. destruct (ks_queue st) as [|node rest] eqn:Hq; [done|].
    apply IH; [done..|]. unfold kahn_step. simpl.
    rewrite (visit_fold_measure K); [|done|intros; by eapply Hg].
    simpl in Hm. lia.
Qed.

Lemma filter_remove_dups_length (P : string → Prop) `{∀ x, Decision (P x)} l :
  length (filter P (remove_dups l)) ≤ length (filter P l).
Proof.
  induction l as [|x l IH]; [done|].
  rewrite (filter_cons P x l). simpl.
  destruct (decide_rel elem_of x l); [|rewrite filter_cons];
    destruct (decide (P x)); simpl; lia.
Qed.

Lemma filter_zero_pos_length (f : string → Z) l :
  length (filter (λ t, f t = 0%Z) l) + length (filter (λ t, 0 < f t)%Z l)
  ≤ length l.
Proof.
  induction l as [|x l IH]; [done|].
  rewrite !filter_cons. repeat case_decide; simpl; lia.
Qed.

Lemma kahn_loop_drains titles edges :
  (∀ e, e ∈ edges → e.2 ∈ titles) →
  ks_queue (kahn_run titles edges) = [].
Proof.
  intros Hint. unfold kahn_run.
  destruct (build_graph_spec titles edges) as [Hg Hd].
  apply (kahn_loop_drains_gen (remove_dups titles)).
  - apply NoDup_remove_dups.
  - intros node d. rewrite Hg, list_elem_of_fmap.
    intros (e & -> & He). apply list_elem_of_filter in He as [_ He].
    apply elem_of_remove_dups. by apply Hint.
  - simpl. unfold waiting.
    pose proof (filter_remove_dups_length
      (λ t, 0 < in_degree_at (build_graph titles edges).2 t)%Z titles).
    pose proof (filter_zero_pos_length
      (in_degree_at (build_graph titles edges).2) titles).
    lia.
Qed.

(** ** Declarative reading of the edge query *)

Lemma elem_of_internal_prereq_edges g titles a b :
  (a, b) ∈ internal_prereq_edges g titles ↔ internal_edge g titles a b.
Proof.
  unfold internal_prereq_edges, internal_edge, prereq_of.
  rewrite list_elem_of_omap. split.
  - intros (r & Hr & Hrow). unfold internal_prereq_row in Hrow.
    destruct (r_type r) eqn:Hty; try done.
    destruct (node_title g (r_start r)) as [a'|] eqn:Ha; [|done].
    destruct (node_title g (r_end r)) as [b'|] eqn:Hb; [|done].
    simpl in Hrow.
    destruct (bool_decide (a' ∈ titles)) eqn:Hta; [|done].
    destruct (bool_decide (b' ∈ titles)) eqn:Htb; [|done].
    simpl in Hrow. injection Hrow as -> ->.
    apply bool_decide_eq_true in Hta, Htb. eauto 10.
  - intros ((r & Hr & Hty & Ha & Hb) & Hta & Htb).
    exists r. split; [done|]. unfold internal_prereq_row.
    rewrite Hty, Ha, Hb. simpl.
    by rewrite !bool_decide_eq_true_2.
Qed.

(** ** Invariant of the queue loop on distinct titles *)

Lemma pending_zero edges res a t :
  pending edges res t = 0%Z → (a, t) ∈ edges → a ∈ res.
Proof.
  unfold pending. intros Hz He.
  destruct (decide (a ∈ res)) as [|Hn]; [done|]. exfalso.
  assert (t ∈ (filter (λ e, e.1 ∉ res) edges).*2) as Hin.
  { apply list_elem_of_fmap. exists (a, t). split; [done|].
    apply list_elem_of_filter. done. }
  apply occurrences_pos in Hin. lia.
Qed.

Lemma pending_pos edges res t :
  pending edges res t ≠ 0%Z → ∃ a, (a, t) ∈ edges ∧ a ∉ res.
Proof.
  unfold pending. intros Hz.
  pose proof (occurrences_nonneg t ((filter (λ e, e.1 ∉ res) edges).*2)).
  assert (t ∈ (filter (λ e, e.1 ∉ res) edges).*2) as Hin
    by (apply occurrences_pos; lia).
  apply list_elem_of_fmap in Hin as ([a b] & -> & He).
  apply list_elem_of_filter in He as [Hn He]. eauto.
Qed.

Lemma pending_snoc edges res node t :
  node ∉ res →
  (pending edges (res ++ [node]) t
   + occurrences t ((filter (λ e, e.1 = node) edges).*2))%Z
  = pending edges res t.
Proof.
  intros Hn. unfold pending.
  induction edges as [|e es IH]; [done|].
  rewrite !filter_cons.
  destruct (decide (e.1 ∉ res ++ [node])) as [H1|H1];
    destruct (decide (e.1 = node)) as [H2|H2];
    destruct (decide (e.1 ∉ res)) as [H3|H3];
    rewrite ?fmap_cons, ?occurrences_cons; try lia;
    exfalso; set_unfold; subst; tauto.
Qed.

Lemma pending_nil edges t : pending edges [] t = occurrences t (edges.*2).
Proof.
  unfold pending. f_equal. f_equal.
  induction edges as [|e es IH]; [done|].
  rewrite filter_cons. rewrite decide_True by apply not_elem_of_nil.
  by f_equal.
Qed.

Section kahn.
Variable titles : list string.
Variable edges : list (string * string).
Hypothesis titles_nodup : NoDup titles.
Hypothesis edges_internal : ∀ e, e ∈ edges → e.1 ∈ titles ∧ e.2 ∈ titles.

Let graph := (build_graph titles edges).1.

Lemma kahn_inv_init :
  kahn_inv titles edges {| ks_queue := filter (λ t, in_degree_at (build_graph titles edges).2 t = 0%Z) titles;
              ks_result := [];
              ks_in_degree := (build_graph titles edges).2 |}.
Proof using titles_nodup.
  destruct (build_graph_spec titles edges) as [_ Hd].
  split; simpl.
  - by apply NoDup_filter.
  - intros t Ht. by apply list_elem_of_filter in Ht as [_ Ht].
  - intros t. by rewrite Hd, pending_nil.
  - intros t Ht. rewrite list_elem_of_filter. tauto.
  - intros a b He Hb. apply list_elem_of_filter in Hb as [Hz _].
    rewrite Hd in Hz.
    assert (b ∈ edges.*2) as Hin.
    { apply list_elem_of_fmap. by exists (a, b). }
    apply occurrences_pos in Hin. lia.
Qed.

Lemma kahn_inv_step st node rest :
  kahn_inv titles edges st → ks_queue st = node :: rest →
  kahn_inv titles edges (kahn_step graph node rest st).
Proof using edges_internal.
  intros [Hnd Htit Hdeg Hready Hord] Hq.
  rewrite Hq in *.
  destruct (build_graph_spec titles edges) as [Hg _].
  unfold kahn_step. fold graph in Hg.
  destruct (visit_fold (graph_at graph node) (ks_in_degree st) rest)
    as [Hd' (extra & Hq' & Hnd' & Hex)].
  set (res := ks_result st) in *. set (indeg := ks_in_degree st) in *.
  assert (node ∉ res) as Hnode.
  { apply NoDup_app in Hnd as (_ & Hdis & _). intros Hin.
    apply (Hdis node Hin). by left. }
  assert (∀ t, (pending edges (res ++ [node]) t + occurrences t (graph_at graph node))%Z
               = pending edges res t) as Hsnoc.
  { intros t. rewrite Hg. by apply pending_snoc. }
  assert (∀ t, (0 ≤ pending edges (res ++ [node]) t)%Z) as Hnn.
  { intros t. apply occurrences_nonneg. }
  assert (∀ t, t ∈ extra → t ∈ titles) as Hext.
  { intros t Ht. apply Hex in Ht.
    assert (t ∈ graph_at graph node) as Hin by (apply occurrences_pos; lia).
    rewrite Hg in Hin. apply list_elem_of_fmap in Hin as (e & -> & He).
    apply list_elem_of_filter in He as [_ He]. by apply edges_internal. }
  assert (∀ t, t ∈ extra → t ∉ res ++ node :: rest) as Hfresh.
  { intros t Ht Hin. pose proof (Hext t Ht) as Htt.
    apply Hex in Ht. apply (Hready t Htt) in Hin. lia. }
  assert ((res ++ [node]) ++ rest ++ extra = (res ++ node :: rest) ++ extra) as HS.
  { by rewrite <- !app_assoc. }
  assert (∀ t, t ∈ titles →
    (t ∈ (res ++ node :: rest) ++ extra
     ↔ (in_degree_at indeg t - occurrences t (graph_at graph node))%Z = 0%Z))
    as Hready'.
  { intros t Ht. specialize (Hsnoc t). specialize (Hnn t).
    pose proof (Hdeg t) as Hdt. specialize (Hready t Ht).
    pose proof (occurrences_nonneg t (graph_at graph node)).
    rewrite elem_of_app, Hex. split.
    - intros [Hin | Hin]; [apply Hready in Hin|]; lia.
    - intros Hz. destruct (decide (in_degree_at indeg t = 0%Z)) as [H0|H0].
      + left. by apply Hready.
      + right. lia. }
  split; simpl; rewrite ?Hq', ?HS.
  - apply NoDup_app. split; [done|]. split; [|done].
    intros t Hin Hin'. by apply (Hfresh t Hin').
  - intros t [Hin | Hin]%elem_of_app; [by apply Htit | by apply Hext].
  - intros t. rewrite Hd', Hdeg. specialize (Hsnoc t). lia.
  - intros t Ht. rewrite Hd'. by apply Hready'.
  - intros a b He [Hin | Hin]%elem_of_app.
    + destruct (Hord a b He Hin) as (l1 & l2 & Hl & Ha).
      exists l1, (l2 ++ extra). split; [|done].
      rewrite Hl. by rewrite <- app_assoc.
    + assert (b ∈ titles) as Hb by (by apply Hext).
      assert (a ∈ res ++ [node]) as Ha.
      { apply (pending_zero edges _ a b); [|done].
        assert (b ∈ (res ++ node :: rest) ++ extra) as Hb'
          by (apply elem_of_app; by right).
        apply (Hready' b Hb) in Hb'. specialize (Hsnoc b).
        rewrite Hdeg in Hb'. lia. }
      apply list_elem_of_split in Hin as (e1 & e2 & ->).
      exists ((res ++ node :: rest) ++ e1), e2.
      split; [by rewrite <- !app_assoc|].
      apply elem_of_app. left.
      apply elem_of_app in Ha as [Ha | Ha]; apply elem_of_app; [by left|].
      right. apply list_elem_of_singleton in Ha as ->. by left.
Qed.

Lemma kahn_inv_loop fuel : ∀ st, kahn_inv titles edges st → kahn_inv titles edges (kahn_loop fuel graph st).
Proof using edges_internal.
  induction fuel as [|fuel IH]; intros st Hst; [done|].
  simpl. destruct (ks_queue st) as [|node rest] eqn:Hq; [done|].
  apply IH. by apply kahn_inv_step.
Qed.

Lemma kahn_inv_run : kahn_inv titles edges (kahn_run titles edges).
Proof using titles_nodup edges_internal.
  unfold kahn_run. apply kahn_inv_loop, kahn_inv_init.
Qed.
End kahn.

Lemma internal_prereq_edges_internal g titles e :
  e ∈ internal_prereq_edges g titles → e.1 ∈ titles ∧ e.2 ∈ titles.
Proof.
  destruct e as [a b]. rewrite elem_of_internal_prereq_edges.
  unfold internal_edge. simpl. tauto.
Qed.

(** The [while] loop of [get_topological_order] always runs to its end. *)
Lemma topological_queue_drains g concepts :
  ks_queue (kahn_run (title <$> concepts)
              (internal_prereq_edges g (title <$> concepts))) = [].
Proof.
  apply kahn_loop_drains. intros e He.
  by apply internal_prereq_edges_internal in He as [_ ?].
Qed.

Lemma filter_ext_in {A} (P1 P2 : A → Prop)
    `{!∀ x, Decision (P1 x), !∀ x, Decision (P2 x)} (l : list A) :
  (∀ x, x ∈ l → (P1 x ↔ P2 x)) → filter P1 l = filter P2 l.
Proof.
  induction l as [|a l IH]; intros Hiff; [done|].
  assert (P1 a ↔ P2 a) as Ha by (apply Hiff; by left).
  assert (filter P1 l = filter P2 l) as Hl
    by (apply IH; intros x Hx; apply Hiff; by right).
  rewrite !filter_cons, Hl.
  destruct (decide (P1 a)), (decide (P2 a)); tauto.
Qed.

Lemma append_remaining_distinct titles : ∀ res,
  NoDup titles →
  append_remaining res titles = res ++ filter (λ t, t ∉ res) titles.
Proof.
  unfold append_remaining.
  induction titles as [|t l IH]; intros res Hnd.
  - simpl. by rewrite app_nil_r.
  - apply NoDup_cons in Hnd as [Ht Hnd]. simpl. rewrite filter_cons.
    case_bool_decide as Hin.
    + rewrite decide_False by tauto. by apply IH.
    + rewrite decide_True by done. rewrite IH by done.
      rewrite <- app_assoc. simpl. f_equal. f_equal.
      apply filter_ext_in. intros x Hx.
      rewrite elem_of_app, list_elem_of_singleton.
      split; [tauto|]. intros Hn [?| ->]; tauto.
Qed.

(** ** Index of an element given a split of the list *)

Lemma index_of_app_l x l k :
  x ∈ l → ∃ i, index_of x (l ++ k) = Some i ∧ i < length l.
Proof.
  induction l as [|y l IH]; intros Hin; [inversion Hin|].
  simpl. case_bool_decide as Hy.
  - exists 0. split; [done | lia].
  - apply elem_of_cons in Hin as [->|Hin]; [done|].
    destruct (IH Hin) as (i & Hi & Hlt). exists (S i).
    rewrite Hi. split; [done | lia].
Qed.

Lemma index_of_app_r x l k :
  x ∉ l → index_of x (l ++ x :: k) = Some (length l).
Proof.
  induction l as [|y l IH]; intros Hin; simpl.
  - by rewrite bool_decide_eq_true_2.
  - apply not_elem_of_cons in Hin as [Hne Hin].
    rewrite bool_decide_eq_false_2 by done. by rewrite IH.
Qed.

Lemma index_of_before a b l1 l2 :
  NoDup (l1 ++ b :: l2) → a ∈ l1 →
  ∃ i j, index_of a (l1 ++ b :: l2) = Some i
         ∧ index_of b (l1 ++ b :: l2) = Some j ∧ i < j.
Proof.
  intros Hnd Ha.
  destruct (index_of_app_l a l1 (b :: l2) Ha) as (i & Hi & Hlt).
  exists i, (length l1). split; [done|]. split; [|done].
  apply index_of_app_r. apply NoDup_app in Hnd as (_ & Hdis & _).
  intros Hb. apply (Hdis b Hb). by left.
Qed.

(** ** No infinite descent in a finite acyclic relation *)

Lemma ancestors_of (R : relation string) (P : string → Prop) :
  (∀ t, P t → ∃ a, P a ∧ R a t) → acyclic R →
  ∀ n t, P t → ∃ l, length l = n ∧ NoDup l ∧ ∀ x, x ∈ l → P x ∧ tc R x t.
Proof.
  intros Hpred Hacyc. induction n as [|n IH]; intros t Ht.
  - exists []. split; [done|]. split; [constructor|]. intros x Hx. inversion Hx.
  - destruct (Hpred t Ht) as (a & Ha & Rat).
    destruct (IH a Ha) as (l & Hlen & Hnd & Hl).
    exists (a :: l). split; [simpl; lia|]. split.
    + constructor; [|done]. intros Hin.
      apply Hl in Hin as [_ Hcyc]. by apply (Hacyc a).
    + intros x [->|Hx]%elem_of_cons.
      * split; [done|]. by apply tc_once.
      * destruct (Hl x Hx) as [HPx Htc]. split; [done|].
        eapply tc_r; eauto.
Qed.

Lemma no_infinite_descent (R : relation string) (P : string → Prop)
    (K : list string) :
  (∀ t, P t → t ∈ K) → (∀ t, P t → ∃ a, P a ∧ R a t) → acyclic R →
  ∀ t, ¬ P t.
Proof.
  intros HK Hpred Hacyc t Ht.
  destruct (ancestors_of R P Hpred Hacyc (S (length K)) t Ht)
    as (l & Hlen & Hnd & Hl).
  assert (length l ≤ length K) as Hle.
  { apply submseteq_length, NoDup_submseteq; [done|].
    intros x Hx. apply HK. by apply Hl. }
  lia.
Qed.

(** ** Results on distinct titles *)

Section topological.
Variable g : Neo4j.
Variable concepts : list RetrievedConcept.
Hypothesis distinct_titles : NoDup (title <$> concepts).

Let titles := title <$> concepts.
Let edges := internal_prereq_edges g titles.
Let placed := ks_result (kahn_run titles edges).

Lemma placed_inv : kahn_inv titles edges (kahn_run titles edges).
Proof using distinct_titles.
  apply kahn_inv_run; [done|]. apply internal_prereq_edges_internal.
Qed.

Lemma placed_state :
  NoDup placed ∧ (∀ t, t ∈ placed → t ∈ titles)
  ∧ (∀ a b, (a, b) ∈ edges → b ∈ placed →
       ∃ l1 l2, placed = l1 ++ b :: l2 ∧ a ∈ l1)
  ∧ (∀ t, t ∈ titles → t ∉ placed →
       ∃ a, (a, t) ∈ edges ∧ a ∉ placed).
Proof using distinct_titles.
  destruct placed_inv as [Hnd Htit Hdeg Hready Hord].
  pose proof (topological_queue_drains g concepts) as Hq.
  fold titles edges in Hq. rewrite Hq, app_nil_r in *.
  fold placed in Hnd, Htit, Hdeg, Hready, Hord.
  repeat split; try done.
  intros t Ht Hn. apply pending_pos. rewrite <- Hdeg.
  intros Hz. apply Hn. by apply Hready.
Qed.

Lemma order_unfold :
  get_topological_order g concepts
  = placed ++ filter (λ t, t ∉ placed) titles.
Proof using distinct_titles.
  unfold get_topological_order. by apply append_remaining_distinct.
Qed.

Lemma order_nodup : NoDup (get_topological_order g concepts).
Proof using distinct_titles.
  rewrite order_unfold. destruct placed_state as (Hnd & _).
  apply NoDup_app. split; [done|]. split; [|by apply NoDup_filter].
  intros t Ht Hin. by apply list_elem_of_filter in Hin as [Hn _].
Qed.

Lemma order_elem t : t ∈ get_topological_order g concepts ↔ t ∈ titles.
Proof using distinct_titles.
  rewrite order_unfold, elem_of_app, list_elem_of_filter.
  destruct placed_state as (_ & Htit & _).
  split; [intros [?|[_ ?]]; auto|].
  intros Ht. destruct (decide (t ∈ placed)); auto.
Qed.

Lemma acyclic_all_placed :
  acyclic (internal_edge g titles) → ∀ t, t ∈ titles → t ∈ placed.
Proof using distinct_titles.
  intros Hacyc t Ht. destruct (decide (t ∈ placed)) as [|Hn]; [done|].
  exfalso.
  apply (no_infinite_descent (internal_edge g titles)
           (λ t, t ∈ titles ∧ t ∉ placed) titles) with t; try done.
  - by intros x [? _].
  - intros x [Hx Hxn]. destruct placed_state as (_ & _ & _ & Hleft).
    destruct (Hleft x Hx Hxn) as (a & He & Ha).
    pose proof (internal_prereq_edges_internal g titles _ He) as [Hat _].
    exists a. split; [done|]. by apply elem_of_internal_prereq_edges.
Qed.
End topological.

Lemma acyclic_of_rank (R : relation string) (rank : string → nat) :
  (∀ a b, R a b → rank a < rank b) → acyclic R.
Proof.
  intros Hrank.
  assert (∀ a b, tc R a b → rank a < rank b) as Htc.
  { intros a b Hab. induction Hab as [a b Hab | a b c Hab _ IH].
    - by apply Hrank.
    - apply Hrank in Hab. lia. }
  intros t Ht. apply Htc in Ht. lia.
Qed.

(** C1, as amended: on concepts with pairwise distinct titles the order is
    a permutation of the input titles, each title occurring exactly once,
    whatever the [PREREQ_OF] edges among them (cycles included); the titles
    the queue loop did not place follow the placed ones in input order. *)
Theorem topological_order_permutation g concepts :
  NoDup (title <$> concepts) →
  get_topological_order g concepts ≡ₚ title <$> concepts
  ∧ NoDup (get_topological_order g concepts)
  ∧ (∀ t, t ∈ title <$> concepts →
       occurrences t (get_topological_order g concepts) = 1%Z)
  ∧ get_topological_order g concepts
    = let placed := ks_result (kahn_run (title <$> concepts)
                      (internal_prereq_edges g (title <$> concepts))) in
      placed ++ filter (λ t, t ∉ placed) (title <$> concepts).
Proof.
  intros Hnd.
  pose proof (order_nodup g concepts Hnd) as Hout.
  pose proof (order_elem g concepts Hnd) as Hel.
  split; [by apply NoDup_Permutation|]. split; [done|].
  split; [|by apply order_unfold].
  intros t Ht. apply Hel in Ht. clear Hel.
  induction Hout as [|x l Hx Hout IH]; [inversion Ht|].
  rewrite occurrences_cons.
  apply elem_of_cons in Ht as [->|Ht].
  - rewrite bool_decide_eq_true_2 by done.
    pose proof (occurrences_nonneg x l) as Hnn.
    destruct (decide (occurrences x l = 0%Z)) as [->|Hpos]; [done|].
    exfalso. apply Hx, occurrences_pos. lia.
  - rewrite bool_decide_eq_false_2 by (intros ->; done).
    by rewrite IH.
Qed.

Lemma topological_order_permutation_witness :
  get_topological_order cyclic_store
    [concept_of "B" 0 "seed"; concept_of "A" 1 "prerequisite"]
  ≡ₚ ["B"; "A"].
Proof.
  apply (topological_order_permutation cyclic_store
           [concept_of "B" 0 "seed"; concept_of "A" 1 "prerequisite"]).
  simpl. apply (bool_decide_unpack _). vm_compute. exact I.
Defined.

(** C1 as stated fails: two input concepts with one title are both kept
    when nothing precedes them, so the title is listed twice; a repeated
    title that waits for a prerequisite is listed once. *)
Lemma topological_order_duplicate_titles :
  get_topological_order (concept_graph [] [])
    [concept_of "A" 0 "seed"; concept_of "A" 1 "prerequisite"] = ["A"; "A"]
  ∧ ¬ NoDup (get_topological_order (concept_graph [] [])
               [concept_of "A" 0 "seed"; concept_of "A" 1 "prerequisite"])
  ∧ get_topological_order diamond_store
      [concept_of "A" 0 "seed"; concept_of "C" 1 "is_a"; concept_of "C" 1 "sibling"]
    = ["A"; "C"].
Proof.
  split; [vm_compute; reflexivity|]. split; [|vm_compute; reflexivity].
  intros Hnd. apply (bool_decide_pack _) in Hnd. vm_compute in Hnd. exact Hnd.
Qed.

(** C2: on a concept set (distinct titles) whose internal [PREREQ_OF]
    relation is acyclic, every internal edge [(a, b)] has [a] at a strictly
    smaller index than [b] in the returned order. *)
Theorem topological_order_respects_prereqs g concepts a b :
  NoDup (title <$> concepts) →
  acyclic (internal_edge g (title <$> concepts)) →
  internal_edge g (title <$> concepts) a b →
  ∃ i j, index_of a (get_topological_order g concepts) = Some i
         ∧ index_of b (get_topological_order g concepts) = Some j
         ∧ i < j.
Proof.
  intros Hnd Hacyc Hab.
  pose proof (order_nodup g concepts Hnd) as Hout.
  rewrite (order_unfold g concepts Hnd) in *.
  destruct (placed_state g concepts Hnd) as (_ & _ & Hord & _).
  assert (b ∈ ks_result (kahn_run (title <$> concepts)
                 (internal_prereq_edges g (title <$> concepts)))) as Hb.
  { apply acyclic_all_placed; [done..|]. by destruct Hab as (_ & _ & ?). }
  apply elem_of_internal_prereq_edges in Hab.
  destruct (Hord a b Hab Hb) as (l1 & l2 & Hl & Ha).
  rewrite Hl in *. rewrite <- app_assoc in *. simpl in *.
  by apply index_of_before.
Qed.

Lemma topological_order_respects_prereqs_witness :
  ∃ i j,
    index_of "Calculus"
      (get_topological_order calculus_store
         [concept_of "Gradient Descent" 0 "seed";
          concept_of "Derivatives" 1 "prerequisite";
          concept_of "Calculus" 2 "prerequisite"]) = Some i
    ∧ index_of "Derivatives"
        (get_topological_order calculus_store
           [concept_of "Gradient Descent" 0 "seed";
            concept_of "Derivatives" 1 "prerequisite";
            concept_of "Calculus" 2 "prerequisite"]) = Some j
    ∧ i < j.
Proof.
  apply (topological_order_respects_prereqs calculus_store
           [concept_of "Gradient Descent" 0 "seed";
            concept_of "Derivatives" 1 "prerequisite";
            concept_of "Calculus" 2 "prerequisite"]).
  - simpl. apply (bool_decide_unpack _). vm_compute. exact I.
  - apply (acyclic_of_rank _ (λ t, if bool_decide (t = "Calculus") then 0
                                   else if bool_decide (t = "Derivatives") then 1
                                   else 2)).
    intros x y Hxy. apply elem_of_internal_prereq_edges in Hxy.
    vm_compute in Hxy.
    repeat (apply elem_of_cons in Hxy as [Hxy|Hxy];
            [injection Hxy as -> ->; vm_compute; lia|]).
    inversion Hxy.
  - apply elem_of_internal_prereq_edges. vm_compute.
    apply list_elem_of_further, list_elem_of_here.
Defined.

(** ** The insertion-ordered dictionary *)

Section dict.
Context {V : Type}.
Implicit Types (d : list (string * V)) (k : string) (v : V).

Lemma dict_get_None d k : dict_get d k = None ↔ k ∉ d.*1.
Proof.
  induction d as [|[k' v'] d IH]; simpl.
  - split; [intros _; apply not_elem_of_nil | done].
  - rewrite not_elem_of_cons. case_bool_decide as Hk; subst.
    + split; [done | tauto].
    + rewrite IH. split; [intros; split; [congruence | done] | tauto].
Qed.

Lemma dict_get_Some_elem d k v : dict_get d k = Some v → (k, v) ∈ d.
Proof.
  induction d as [|[k' v'] d IH]; simpl; [done|].
  case_bool_decide; subst.
  - intros [= ->]. by left.
  - intros Hg. right. by apply IH.
Qed.

Lemma dict_set_new d k v : dict_get d k = None → dict_set d k v = d ++ [(k, v)].
Proof.
  induction d as [|[k' v'] d IH]; simpl; [done|].
  case_bool_decide; [done|]. intros Hg. by rewrite IH.
Qed.

Lemma dict_set_keys d k v old :
  dict_get d k = Some old → (dict_set d k v).*1 = d.*1.
Proof.
  induction d as [|[k' v'] d IH]; simpl; [done|].
  case_bool_decide; subst; csimpl; [done|].
  intros Hg. f_equal. by apply IH.
Qed.

Lemma dict_set_values_fmap {B} (f : V → B) d k v old :
  dict_get d k = Some old → f old = f v →
  f <$> (dict_set d k v).*2 = f <$> d.*2.
Proof.
  induction d as [|[k' v'] d IH]; simpl; [done|].
  case_bool_decide; subst; csimpl.
  - intros [= ->] Hf. by rewrite Hf.
  - intros Hg Hf. f_equal. by apply IH.
Qed.

Lemma dict_set_elem d k v kv : kv ∈ dict_set d k v → kv = (k, v) ∨ kv ∈ d.
Proof.
  induction d as [|[k' v'] d IH]; simpl.
  - intros ->%list_elem_of_singleton. by left.
  - case_bool_decide; subst; simpl.
    + intros [->|?]%elem_of_cons; [by left | right; by right].
    + intros [->|Hin]%elem_of_cons; [right; by left|].
      destruct (IH Hin); [by left | right; by right].
Qed.

Lemma dict_get_set d k v k' :
  dict_get (dict_set d k v) k'
  = if bool_decide (k = k') then Some v else dict_get d k'.
Proof.
  induction d as [|[k0 v0] d IH]; simpl.
  - by repeat case_bool_decide.
  - repeat (case_bool_decide; subst; simpl); try done.
    all: rewrite IH.
    all: repeat (case_bool_decide; subst; simpl); done.
Qed.
End dict.

(** ** The stable sort *)

Section sorting.
Context {A : Type}.

Lemma insert_by_perm (le : A → A → bool) x l : insert_by le x l ≡ₚ x :: l.
Proof.
  induction l as [|y l IH]; simpl; [done|].
  destruct (le x y); [done|]. rewrite IH. apply Permutation_swap.
Qed.

Lemma stable_sort_perm (le : A → A → bool) l : stable_sort le l ≡ₚ l.
Proof.
  induction l as [|x l IH]; simpl; [done|].
  rewrite insert_by_perm. by f_equiv.
Qed.

Lemma sorted_perm (key : A → Z) l : sorted key l ≡ₚ l.
Proof. apply stable_sort_perm. Qed.

Lemma insert_by_key_then (key : A → Z) R x s :
  StronglySorted (key_then key R) s → Forall (R x) s →
  StronglySorted (key_then key R)
    (insert_by (λ x y, bool_decide (key x ≤ key y)%Z) x s).
Proof.
  induction s as [|y s IH]; intros Hs Hx; simpl.
  - constructor; [constructor | constructor].
  - apply StronglySorted_cons in Hs as [Hy Hs].
    apply Forall_cons in Hx as [Hxy Hx].
    case_bool_decide as Hle.
    + constructor; [constructor; [done|done]|].
      constructor; [by split|].
      rewrite Forall_forall in Hy, Hx. apply Forall_forall.
      intros z Hz. destruct (Hy z Hz) as [Hyz _]. split; [lia|].
      intros _. by apply Hx.
    + constructor; [by apply IH|].
      rewrite insert_by_perm. constructor; [|done].
      split; [lia | intros; lia].
Qed.

Lemma sorted_key_then (key : A → Z) R l :
  StronglySorted R l → StronglySorted (key_then key R) (sorted key l).
Proof.
  induction l as [|x l IH]; intros Hl; [constructor|].
  apply StronglySorted_cons in Hl as [Hx Hl].
  unfold sorted. simpl. apply insert_by_key_then; [by apply IH|].
  fold (sorted key l). by rewrite sorted_perm.
Qed.

Lemma StronglySorted_impl (R1 R2 : relation A) l :
  (∀ x y, R1 x y → R2 x y) → StronglySorted R1 l → StronglySorted R2 l.
Proof.
  intros Himpl. induction 1 as [|x l Hl IH Hx]; constructor; [done|].
  eapply Forall_impl; eauto.
Qed.

Lemma StronglySorted_True l : StronglySorted (λ _ _ : A, True) l.
Proof. induction l; constructor; [done|]. by apply Forall_forall. Qed.

Lemma sorted_ascending (key : A → Z) l :
  StronglySorted (λ x y, key x ≤ key y)%Z (sorted key l).
Proof.
  apply (StronglySorted_impl (key_then key (λ _ _, True))).
  - by intros x y [? _].
  - apply sorted_key_then, StronglySorted_True.
Qed.

Lemma StronglySorted_take (R : relation A) n l :
  StronglySorted R l → StronglySorted R (take n l).
Proof.
  intros Hl. rewrite <- (take_drop n l) in Hl.
  by apply StronglySorted_app_1_l in Hl.
Qed.

Lemma py_slice_to_take (l : list A) stop : ∃ n, py_slice_to l stop = take n l.
Proof. unfold py_slice_to. case_bool_decide; eauto. Qed.

Lemma py_slice_to_nonneg (l : list A) stop :
  (0 ≤ stop)%Z → py_slice_to l stop = take (Z.to_nat stop) l.
Proof. intros. unfold py_slice_to. by rewrite bool_decide_eq_true_2. Qed.
End sorting.

(** ** What [seen] holds after the loop *)

Lemma seen_after_snoc l c : seen_after (l ++ [c]) = dedup_step (seen_after l) c.
Proof. apply foldl_snoc. Qed.

Lemma seen_after_spec l :
  NoDup (seen_after l).*1
  ∧ (∀ k v, (k, v) ∈ seen_after l → title v = k ∧ v ∈ l)
  ∧ (∀ c, c ∈ l → ∃ v, dict_get (seen_after l) (title c) = Some v
                       ∧ (depth v ≤ depth c)%Z).
Proof.
  induction l as [|c l (Hnd & Hval & Hget)] using rev_ind.
  - split; [constructor|]. split; [intros ?? Hin; inversion Hin|].
    intros ? Hin; inversion Hin.
  - rewrite seen_after_snoc. unfold dedup_step.
    destruct (dict_get (seen_after l) (title c)) as [old|] eqn:Hold.
    + case_bool_decide as Hlt.
      * split; [by erewrite dict_set_keys|]. split.
        -- intros k v [ [= -> ->] | Hin]%dict_set_elem.
           ++ split; [done|]. apply elem_of_app. right. by left.
           ++ destruct (Hval k v Hin). split; [done|].
              apply elem_of_app. by left.
        -- intros c' Hc'. rewrite dict_get_set.
           case_bool_decide as Heq.
           ++ exists c. split; [done|].
              apply elem_of_app in Hc' as [Hc' | ->%list_elem_of_singleton]; [|lia].
              destruct (Hget c' Hc') as (v & Hv & Hle).
              rewrite <- Heq, Hold in Hv. injection Hv as ->. lia.
           ++ apply elem_of_app in Hc' as [Hc' | ->%list_elem_of_singleton];
                [|done]. by apply Hget.
      * split; [done|]. split.
        -- intros k v Hin. destruct (Hval k v Hin). split; [done|].
           apply elem_of_app. by left.
        -- intros c' [Hc' | ->%list_elem_of_singleton]%elem_of_app;
             [by apply Hget|].
           exists old. split; [done | lia].
    + rewrite dict_set_new by done. split.
      * rewrite fmap_app. simpl. apply NoDup_app. split; [done|].
        split; [|apply NoDup_singleton].
        intros k Hk ->%list_elem_of_singleton.
        by apply dict_get_None in Hold.
      * split.
        -- intros k v [Hin | [= -> ->]%list_elem_of_singleton]%elem_of_app.
           ++ destruct (Hval k v Hin). split; [done|].
              apply elem_of_app. by left.
           ++ split; [done|]. apply elem_of_app. right. by left.
        -- intros c' Hc'. rewrite <- dict_set_new by done.
           rewrite dict_get_set. case_bool_decide as Heq.
           ++ exists c. split; [done|].
              apply elem_of_app in Hc' as [Hc' | ->%list_elem_of_singleton]; [|lia].
              destruct (Hget c' Hc') as (v & Hv & Hle).
              rewrite <- Heq, Hold in Hv. done.
           ++ apply elem_of_app in Hc' as [Hc' | ->%list_elem_of_singleton];
                [|done]. by apply Hget.
Qed.

Lemma seen_after_titles l : title <$> (seen_after l).*2 = (seen_after l).*1.
Proof.
  destruct (seen_after_spec l) as (_ & Hval & _).
  induction (seen_after l) as [|[k v] d IH]; [done|].
  simpl. f_equal.
  - apply (Hval k v). by left.
  - apply IH. intros k' v' Hin. apply Hval. by right.
Qed.

Lemma sorted_concepts_dedup input : lowest_depth_dedup input (sorted_concepts input).
Proof.
  destruct (seen_after_spec input) as (Hnd & Hval & Hget).
  unfold sorted_concepts. split; [|split].
  - rewrite sorted_perm, seen_after_titles. done.
  - intros k Hk. rewrite sorted_perm in Hk.
    apply list_elem_of_fmap in Hk as ([k' v] & -> & Hin).
    by apply (Hval k' v).
  - intros c Hc. destruct (Hget c Hc) as (v & Hv & Hle).
    apply dict_get_Some_elem in Hv. exists v.
    split; [|split; [by apply (Hval _ _ Hv) | done]].
    rewrite sorted_perm. apply list_elem_of_fmap. by exists (title c, v).
Qed.

(** ** Deduplication keeps titles distinct and depths ascending *)

Lemma deduplicate_nodup cs max_concepts :
  NoDup (title <$> _deduplicate_concepts cs max_concepts).
Proof.
  unfold _deduplicate_concepts.
  destruct (py_slice_to_take (sorted_concepts cs) max_concepts) as [n ->].
  rewrite fmap_take. eapply sublist_NoDup; [|apply sublist_take].
  apply sorted_concepts_dedup.
Qed.

Lemma deduplicate_ascending cs max_concepts :
  StronglySorted (λ x y, depth x ≤ depth y)%Z
    (_deduplicate_concepts cs max_concepts).
Proof.
  unfold _deduplicate_concepts.
  destruct (py_slice_to_take (sorted_concepts cs) max_concepts) as [n ->].
  apply StronglySorted_take, sorted_ascending.
Qed.

Lemma deduplicate_length cs max_concepts :
  (0 ≤ max_concepts)%Z →
  (Z.of_nat (length (_deduplicate_concepts cs max_concepts)) ≤ max_concepts)%Z.
Proof.
  intros Hmax. unfold _deduplicate_concepts.
  rewrite py_slice_to_nonneg, length_take by done. lia.
Qed.

Lemma deduplicate_subset cs max_concepts c :
  c ∈ _deduplicate_concepts cs max_concepts → c ∈ cs.
Proof.
  unfold _deduplicate_concepts.
  destruct (py_slice_to_take (sorted_concepts cs) max_concepts) as [n ->].
  intros Hc. apply (sorted_concepts_dedup cs).
  apply elem_of_take in Hc as (i & Hi & _). by eapply list_elem_of_lookup_2.
Qed.

Lemma StronglySorted_fmap_inv {A B} (f : A → B) (R : relation B) l :
  StronglySorted R (f <$> l) → StronglySorted (λ x y, R (f x) (f y)) l.
Proof.
  induction l as [|x l IH]; csimpl; intros Hl; [constructor|].
  apply StronglySorted_cons in Hl as [Hx Hl].
  constructor; [by apply IH|]. by rewrite Forall_fmap in Hx.
Qed.

Lemma StronglySorted_impl_elem {A} (R1 R2 : relation A) l :
  (∀ x y, x ∈ l → y ∈ l → R1 x y → R2 x y) →
  StronglySorted R1 l → StronglySorted R2 l.
Proof.
  intros Himpl Hl. induction Hl as [|x l Hl IH Hx]; constructor.
  - apply IH. intros a b Ha Hb. apply Himpl; by right.
  - rewrite Forall_forall in *. intros y Hy.
    apply Himpl; [by left | by right | by apply Hx].
Qed.

Lemma StronglySorted_const {A} (f : A → nat) (n : nat) l :
  Forall (λ x, f x = n) l → StronglySorted (λ x y, f x ≤ f y) l.
Proof.
  intros Hl. induction Hl as [|x l Hx Hl IH]; constructor; [done|].
  eapply Forall_impl; [exact Hl|]. simpl. intros y Hy. lia.
Qed.

Lemma tier_seed c : seed_entry c → tier c = 0.
Proof.
  intros [_ Hd]. unfold tier. rewrite bool_decide_eq_true_2; [done | lia].
Qed.

Lemma tier_related c : related_entry c → tier c = 2.
Proof.
  intros [Hr Hd]. unfold tier, stage_rank in *.
  rewrite bool_decide_eq_false_2 by lia.
  rewrite bool_decide_eq_false_2; [done|]. intros [_ Hp].
  rewrite Hp in Hr. done.
Qed.

Lemma tier_prereq c :
  prereq_entry c → tier c = if bool_decide (depth c = 1%Z) then 1 else 2.
Proof.
  intros [Hr Hd]. unfold tier.
  rewrite bool_decide_eq_false_2 by lia.
  repeat case_bool_decide; try done; tauto.
Qed.

Lemma staged_tier_sorted seeds prereqs related :
  staged seeds prereqs related →
  StronglySorted (λ x y, tier x ≤ tier y) (seeds ++ prereqs ++ related).
Proof.
  intros [Hs Hp Hpa Hr].
  rewrite Forall_forall in Hs, Hp, Hr.
  apply StronglySorted_app_2; [| |apply StronglySorted_app_2].
  - intros x y Hx _. rewrite (tier_seed x) by auto. lia.
  - apply (StronglySorted_const _ 0). apply Forall_forall.
    intros x Hx. apply tier_seed. auto.
  - intros x y Hx Hy. rewrite (tier_related y) by auto.
    rewrite (tier_prereq x) by auto. case_bool_decide; lia.
  - eapply StronglySorted_impl_elem; [|exact Hpa].
    intros x y Hx Hy Hle. simpl in Hle.
    rewrite (tier_prereq x), (tier_prereq y) by auto.
    repeat case_bool_decide; try lia.
    destruct (Hp x Hx) as [_ ?]. lia.
  - apply (StronglySorted_const _ 2). apply Forall_forall.
    intros x Hx. apply tier_related. auto.
Qed.

(** A later entry replaces an earlier one only inside one tier, so the
    values of [seen] stay ordered by tier. *)
Lemma seen_after_tier_sorted l :
  StronglySorted (λ x y, tier x ≤ tier y) l →
  StronglySorted (λ x y, tier x ≤ tier y) (seen_after l).*2.
Proof.
  intros Hl. apply StronglySorted_fmap_inv.
  induction l as [|c l IH] using rev_ind; [constructor|].
  apply StronglySorted_app in Hl as (Hlc & Hl & _).
  specialize (IH Hl). rewrite seen_after_snoc. unfold dedup_step.
  destruct (seen_after_spec l) as (_ & Hval & _).
  assert (∀ v, v ∈ (seen_after l).*2 → tier v ≤ tier c) as Hbound.
  { intros v Hv. apply list_elem_of_fmap in Hv as ([k v'] & -> & Hin).
    apply Hlc; [by apply (Hval k v') | by left]. }
  destruct (dict_get (seen_after l) (title c)) as [old|] eqn:Hold.
  - case_bool_decide as Hlt; [|done].
    erewrite dict_set_values_fmap; [done | exact Hold |].
    assert (tier old ≤ tier c) as Hle.
    { apply Hbound. apply dict_get_Some_elem in Hold.
      apply list_elem_of_fmap. by exists (title c, old). }
    unfold tier in *. repeat case_bool_decide; try lia; try tauto.
    all: try (exfalso; intuition lia).
  - rewrite dict_set_new by done. rewrite !fmap_app. simpl.
    apply StronglySorted_app_2; [|done|repeat constructor].
    intros x1 x2 Hx1 ->%list_elem_of_singleton.
    apply list_elem_of_fmap in Hx1 as (v & -> & Hv). by apply Hbound.
Qed.

Lemma tier_rank x y :
  (seed_entry x ∨ prereq_entry x ∨ related_entry x) →
  (seed_entry y ∨ prereq_entry y ∨ related_entry y) →
  depth x = depth y → tier x ≤ tier y → stage_rank x ≤ stage_rank y.
Proof.
  intros Hx Hy Hd Ht.
  destruct Hx as [Hx | [Hx | Hx]], Hy as [Hy | [Hy | Hy]].
  all: try (rewrite (tier_seed x) in Ht by done).
  all: try (rewrite (tier_seed y) in Ht by done).
  all: try (rewrite (tier_prereq x) in Ht by done).
  all: try (rewrite (tier_prereq y) in Ht by done).
  all: try (rewrite (tier_related x) in Ht by done).
  all: try (rewrite (tier_related y) in Ht by done).
  all: unfold seed_entry, prereq_entry, related_entry in *.
  all: destruct Hx as [Hx1 Hx2], Hy as [Hy1 Hy2].
  all: unfold stage_rank in *.
  all: repeat case_bool_decide; try lia; try congruence.
Qed.

Lemma sorted_concepts_precedence seeds prereqs related :
  staged seeds prereqs related →
  StronglySorted precedes (sorted_concepts (seeds ++ prereqs ++ related)).
Proof.
  intros Hst. set (input := seeds ++ prereqs ++ related).
  pose proof (seen_after_tier_sorted input (staged_tier_sorted _ _ _ Hst)) as Hv.
  apply (sorted_key_then depth) in Hv. fold (sorted_concepts input) in Hv.
  eapply StronglySorted_impl_elem; [|exact Hv].
  assert (∀ x, x ∈ sorted_concepts input →
            seed_entry x ∨ prereq_entry x ∨ related_entry x) as Hwf.
  { intros x Hx. apply (sorted_concepts_dedup input) in Hx.
    destruct Hst as [Hs Hp _ Hr]. rewrite Forall_forall in Hs, Hp, Hr.
    unfold input in Hx. rewrite !elem_of_app in Hx.
    destruct Hx as [?|[?|?]]; auto. }
  intros x y Hx Hy [Hle Htie]. unfold precedes.
  destruct (decide (depth x = depth y)) as [Heq|Hne]; [|left; lia].
  right. split; [done|]. apply tier_rank; auto.
Qed.

(** C3, as amended: the concepts of the returned subgraph have pairwise
    distinct titles and ascending depth for every call; their number is at
    most [max_concepts] when [max_concepts] is not negative. *)
Theorem expand_seeds_concepts_invariant g seed_titles prereq_depth
    related_depth max_concepts max_examples_per_concept :
  let cs := concepts (expand_seeds g seed_titles prereq_depth related_depth
                        max_concepts max_examples_per_concept) in
  NoDup (title <$> cs)
  ∧ StronglySorted (λ x y, depth x ≤ depth y)%Z cs
  ∧ ((0 ≤ max_concepts)%Z → (Z.of_nat (length cs) ≤ max_concepts)%Z).
Proof.
  simpl. split; [apply deduplicate_nodup|].
  split; [apply deduplicate_ascending | apply deduplicate_length].
Qed.

Lemma expand_seeds_concepts_invariant_witness :
  (0 ≤ 2)%Z
  ∧ (Z.of_nat (length (concepts (expand_seeds calculus_store
        ["Gradient Descent"] 2 1 2 2))) ≤ 2)%Z.
Proof.
  split; [lia|].
  apply (expand_seeds_concepts_invariant calculus_store
           ["Gradient Descent"] 2 1 2 2). lia.
Defined.

(** C3 as stated fails on the length: a negative [max_concepts] cuts
    entries from the end of the list, here one of three. *)
Lemma expand_seeds_negative_max_concepts :
  length (concepts (expand_seeds calculus_store ["Gradient Descent"] 2 1 (-1) 2))
  = 2
  ∧ ¬ (Z.of_nat (length (concepts (expand_seeds calculus_store
          ["Gradient Descent"] 2 1 (-1) 2))) ≤ -1)%Z.
Proof. split; [vm_compute; reflexivity|]. vm_compute. intros H. by apply H. Qed.

Lemma keeps_lowest_staged seeds prereqs related max_concepts :
  staged seeds prereqs related →
  (0 ≤ max_concepts
   < Z.of_nat (length (sorted_concepts (seeds ++ prereqs ++ related))))%Z →
  keeps_lowest (seeds ++ prereqs ++ related) max_concepts.
Proof.
  intros Hst Hmax.
  set (input := seeds ++ prereqs ++ related) in *.
  pose proof (sorted_concepts_precedence _ _ _ Hst) as Hsorted.
  fold input in Hsorted.
  exists (drop (Z.to_nat max_concepts) (sorted_concepts input)).
  unfold _deduplicate_concepts. rewrite py_slice_to_nonneg by lia.
  split; [by rewrite take_drop|]. split; [rewrite length_take; lia|].
  intros x y Hx Hy. rewrite <- (take_drop (Z.to_nat max_concepts)) in Hsorted.
  by eapply StronglySorted_app_1_elem_of.
Qed.

(** C4, as amended: for a list made of a seed block, a prerequisite block
    in ascending depth (as the prerequisite query returns it) and a related
    block, and a [max_concepts] from 0 up to the number of deduplicated
    entries, exactly [max_concepts] entries are kept, and each kept entry
    has a lower depth than each dropped one, or the same depth and a stage
    that does not come later (seed, prerequisite, related). *)
Theorem deduplicate_truncation seeds prereqs related max_concepts :
  staged seeds prereqs related →
  (0 ≤ max_concepts
   < Z.of_nat (length (sorted_concepts (seeds ++ prereqs ++ related))))%Z →
  lowest_depth_dedup (seeds ++ prereqs ++ related)
    (sorted_concepts (seeds ++ prereqs ++ related))
  ∧ keeps_lowest (seeds ++ prereqs ++ related) max_concepts.
Proof.
  intros Hst Hmax. split; [apply sorted_concepts_dedup|].
  by apply keeps_lowest_staged.
Qed.

Lemma deduplicate_truncation_witness :
  keeps_lowest ([seed_S] ++ [prereq_P1; prereq_T2] ++ [sibling_T1; sibling_Q1]) 2.
Proof.
  apply (deduplicate_truncation [seed_S] [prereq_P1; prereq_T2]
           [sibling_T1; sibling_Q1] 2).
  - split.
    + repeat constructor.
    + repeat constructor; simpl; lia.
    + repeat constructor; simpl; lia.
    + repeat constructor.
  - vm_compute. split; [discriminate | reflexivity].
Defined.

(** C4 as stated fails twice.  With the prerequisite block not in ascending
    depth, ["T"] enters [seen] at depth 2 and is overwritten in place by the
    related entry of depth 1, which then stands before the prerequisite
    ["P"] of depth 1 and is kept in its place.  With a negative
    [max_concepts] the kept entries are not [max_concepts] many. *)
Lemma deduplicate_truncation_fails :
  (Forall seed_entry [seed_S] ∧ Forall prereq_entry [prereq_T2; prereq_P1]
   ∧ Forall related_entry [sibling_T1]
   ∧ (2 < Z.of_nat (length (sorted_concepts
             ([seed_S] ++ [prereq_T2; prereq_P1] ++ [sibling_T1]))))%Z
   ∧ _deduplicate_concepts ([seed_S] ++ [prereq_T2; prereq_P1] ++ [sibling_T1]) 2
     = [seed_S; sibling_T1]
   ∧ ¬ keeps_lowest ([seed_S] ++ [prereq_T2; prereq_P1] ++ [sibling_T1]) 2)
  ∧ ¬ keeps_lowest ([seed_S] ++ [prereq_P1] ++ []) (-1).
Proof.
  split; [split; [|split; [|split; [|split; [|split]]]]|].
  - repeat constructor.
  - repeat constructor; simpl; lia.
  - repeat constructor.
  - vm_compute. reflexivity.
  - vm_compute. reflexivity.
  - intros (dropped & Heq & _ & Hprec).
    vm_compute in Heq. injection Heq as <-.
    destruct (Hprec sibling_T1 prereq_P1) as [Hlt | [_ Hrank]].
    + vm_compute. apply list_elem_of_further, list_elem_of_here.
    + apply list_elem_of_here.
    + vm_compute in Hlt. discriminate.
    + vm_compute in Hrank. lia.
  - intros (dropped & _ & Hlen & _). vm_compute in Hlen. discriminate.
Qed.

(** ** Declarative reading of the path patterns *)

Lemma elem_of_indexed {A} (l : list A) (ix : nat * A) :
  ix ∈ indexed l ↔ l !! ix.1 = Some ix.2.
Proof.
  unfold indexed. rewrite elem_of_lookup_imap. destruct ix as [i x]. simpl.
  split; [intros (j & y & [= -> ->] & Hl); done | eauto].
Qed.

Lemma elem_of_match_concepts g t ic :
  ic ∈ match_concepts g t ↔ concept_nodes g !! ic.1 = Some ic.2 ∧ c_title ic.2 = t.
Proof.
  unfold match_concepts. rewrite list_elem_of_filter, elem_of_indexed. tauto.
Qed.

Lemma elem_of_bound_rels g ir :
  ir ∈ bound_rels g ↔
    relationships g !! ir.1 = Some ir.2
    ∧ is_Some (concept_nodes g !! r_start ir.2)
    ∧ is_Some (concept_nodes g !! r_end ir.2).
Proof.
  unfold bound_rels. rewrite list_elem_of_filter, elem_of_indexed. tauto.
Qed.

Lemma prereq_paths_spec g d : ∀ used v p,
  p ∈ prereq_paths g d used v ↔
    p ≠ [] ∧ length p ≤ d ∧ is_prereq_path g v p ∧ NoDup p.*1
    ∧ ∀ i, i ∈ p.*1 → i ∉ used.
Proof.
  induction d as [|d IH]; intros used v p; simpl.
  - split; [intros Hin; inversion Hin|].
    intros (Hne & Hlen & _). destruct p; [done | simpl in Hlen; lia].
  - rewrite list_elem_of_bind. split.
    + intros (ir & Hp & Hir).
      apply list_elem_of_filter in Hir as [(Hty & Hend & Hused) Hir].
      apply elem_of_cons in Hp as [-> | Hp].
      * simpl. split; [done|]. split; [lia|]. split; [done|].
        split; [apply NoDup_singleton|].
        by intros i ->%list_elem_of_singleton.
      * apply list_elem_of_fmap in Hp as (p' & -> & Hp').
        apply IH in Hp' as (Hne & Hlen & Hpath & Hnd & Hfresh).
        split; [done|]. split; [simpl; lia|]. split; [done|]. csimpl. split.
        -- constructor; [|done]. intros Hin. apply (Hfresh _ Hin). by left.
        -- intros i [-> | Hi]%elem_of_cons; [done|].
           intros Hu. apply (Hfresh _ Hi). by right.
    + intros (Hne & Hlen & Hpath & Hnd & Hfresh).
      destruct p as [|ir p']; [done|]. simpl in Hpath.
      destruct Hpath as (Hir & Hty & Hend & Hpath).
      exists ir. split.
      * destruct p' as [|ir' p'']; [by left|]. right.
        apply list_elem_of_fmap. exists (ir' :: p''). split; [done|].
        apply IH. csimpl in *. apply NoDup_cons in Hnd as [Hni Hnd].
        split; [done|]. split; [lia|]. split; [done|]. split; [done|].
        intros i Hi [-> | Hu]%elem_of_cons; [done|].
        apply (Hfresh i); [by right | done].
      * apply list_elem_of_filter. split; [|done].
        split; [done|]. split; [done|]. apply Hfresh. by left.
Qed.

Lemma prereq_paths_trail g d v p :
  p ∈ prereq_paths g d [] v ↔ prereq_trail g d v p.
Proof.
  rewrite prereq_paths_spec. unfold prereq_trail.
  split; [tauto|]. intros (? & ? & ? & ?).
  repeat split; try done. intros i _. apply not_elem_of_nil.
Qed.

Lemma peer_paths_spec g d : ∀ used v p w,
  (p, w) ∈ peer_paths g d used v ↔
    p ≠ [] ∧ length p ≤ d ∧ is_peer_path g v p w ∧ NoDup p.*1
    ∧ ∀ i, i ∈ p.*1 → i ∉ used.
Proof.
  induction d as [|d IH]; intros used v p w; simpl.
  - split; [intros Hin; inversion Hin|].
    intros (Hne & Hlen & _). destruct p; [done | simpl in Hlen; lia].
  - rewrite list_elem_of_bind. split.
    + intros (ir & Hp & Hir).
      apply list_elem_of_filter in Hir as [(Hty & Hused) Hir].
      apply list_elem_of_bind in Hp as (u & Hp & Hu).
      apply elem_of_cons in Hp as [[= -> ->] | Hp].
      * simpl. split; [done|]. split; [lia|].
        split; [split; [done|]; split; [done|]; by exists u|].
        split; [apply NoDup_singleton|].
        by intros i ->%list_elem_of_singleton.
      * apply list_elem_of_fmap in Hp as ([p' w'] & [= -> ->] & Hp').
        apply IH in Hp' as (Hne & Hlen & Hpath & Hnd & Hfresh). simpl.
        split; [done|]. split; [lia|].
        split; [split; [done|]; split; [done|]; by exists u|].
        csimpl. split.
        -- constructor; [|done]. intros Hin. apply (Hfresh _ Hin). by left.
        -- intros i [-> | Hi]%elem_of_cons; [done|].
           intros Hx. apply (Hfresh _ Hi). by right.
    + intros (Hne & Hlen & Hpath & Hnd & Hfresh).
      destruct p as [|ir p']; [done|]. simpl in Hpath.
      destruct Hpath as (Hir & Hty & u & Hu & Hpath).
      exists ir. split.
      * apply list_elem_of_bind. exists u. split; [|done].
        destruct p' as [|ir' p'']; [simpl in Hpath; subst; by left|]. right.
        apply list_elem_of_fmap. exists (ir' :: p'', w). split; [done|].
        apply IH. csimpl in *. apply NoDup_cons in Hnd as [Hni Hnd].
        split; [done|]. split; [lia|]. split; [done|]. split; [done|].
        intros i Hi [-> | Hx]%elem_of_cons; [done|].
        apply (Hfresh i); [by right | done].
      * apply list_elem_of_filter. split; [|done].
        split; [done|]. apply Hfresh. by left.
Qed.

Lemma peer_paths_trail g d v p w :
  (p, w) ∈ peer_paths g d [] v ↔ peer_trail g d v p w.
Proof.
  rewrite peer_paths_spec. unfold peer_trail.
  split; [tauto|]. intros (? & ? & ? & ?).
  repeat split; try done. intros i _. apply not_elem_of_nil.
Qed.

(** ** Aggregation and [DISTINCT] keep rows of the input *)

Lemma min_into_elem row groups r :
  r ∈ min_into row groups → r = row ∨ r ∈ groups.
Proof.
  induction groups as [|grp rest IH]; simpl.
  - intros ->%list_elem_of_singleton. by left.
  - case_bool_decide.
    + intros [-> | Hin]%elem_of_cons.
      * case_bool_decide; [by left | right; by left].
      * right. by right.
    + intros [-> | Hin]%elem_of_cons; [right; by left|].
      destruct (IH Hin); [by left | right; by right].
Qed.

Lemma aggregate_min_elem rows r : r ∈ aggregate_min rows → r ∈ rows.
Proof.
  unfold aggregate_min. induction rows as [|row rows IH] using rev_ind.
  - simpl. inversion 1.
  - rewrite foldl_snoc. intros [-> | Hin]%min_into_elem; apply elem_of_app.
    + right. by left.
    + left. by apply IH.
Qed.

Lemma elem_of_distinct `{EqDecision A} (rows : list A) x :
  x ∈ distinct rows ↔ x ∈ rows.
Proof.
  unfold distinct. induction rows as [|row rows IH] using rev_ind; [done|].
  rewrite foldl_snoc, elem_of_app, list_elem_of_singleton.
  case_bool_decide as Hin.
  - rewrite IH. split; [by left|]. intros [? | ->]; [done|]. by apply IH.
  - rewrite elem_of_app, list_elem_of_singleton, IH. done.
Qed.

(** ** The three stages of [expand_seeds] *)

Lemma get_seed_concepts_entry g titles c :
  c ∈ _get_seed_concepts g titles → seed_entry c.
Proof.
  unfold _get_seed_concepts. intros (r & -> & _)%list_elem_of_fmap. done.
Qed.

Lemma prereq_bindings_depth g titles d r :
  r ∈ prereq_bindings g titles d → (1 ≤ p_depth r ≤ Z.of_nat d)%Z.
Proof.
  unfold prereq_bindings. intros Hr.
  apply list_elem_of_bind in Hr as (seedTitle & Hr & _).
  apply list_elem_of_bind in Hr as (seed & Hr & _).
  apply list_elem_of_bind in Hr as (path & Hr & Hpath).
  apply prereq_paths_trail in Hpath as (Hne & Hlen & _).
  destruct (concept_nodes g !! path_start seed.1 path); [|inversion Hr].
  apply list_elem_of_singleton in Hr as ->. simpl.
  destruct path; [done | simpl in *; lia].
Qed.

Lemma prerequisites_query_elem g titles d r :
  r ∈ prerequisites_query g titles d → r ∈ prereq_bindings g titles d.
Proof.
  unfold prerequisites_query. rewrite sorted_perm. apply aggregate_min_elem.
Qed.

Lemma get_prerequisites_entry g titles d c :
  c ∈ _get_prerequisites g titles d →
  relation_to_seed c = "prerequisite" ∧ (1 ≤ depth c ≤ Z.of_nat d)%Z.
Proof.
  unfold _get_prerequisites. intros (r & -> & Hr)%list_elem_of_fmap.
  split; [done|]. simpl.
  by apply (prereq_bindings_depth g titles d), prerequisites_query_elem.
Qed.

Lemma get_prerequisites_ascending g titles d :
  StronglySorted (λ x y, depth x ≤ depth y)%Z (_get_prerequisites g titles d).
Proof.
  unfold _get_prerequisites, prerequisites_query.
  apply (StronglySorted_fmap _ (λ x y, p_depth x ≤ p_depth y)%Z); [done|].
  apply sorted_ascending.
Qed.

Lemma lower_peer_name t :
  t ≠ PREREQ_OF → lower (rel_type_name t) ∈ peer_relation_names.
Proof.
  unfold peer_relation_names.
  destruct t; [done|..]; intros _; vm_compute; repeat constructor.
Qed.

Lemma peer_name_rank c :
  relation_to_seed c ∈ peer_relation_names → stage_rank c = 2.
Proof.
  unfold peer_relation_names, stage_rank. intros Hin.
  repeat (apply elem_of_cons in Hin as [-> | Hin]; [done|]). inversion Hin.
Qed.

(** A row of the related query comes from a peer trail out of a node titled
    as the seed, and carries the type of the first relationship of it. *)
Lemma related_query_elem g titles d r :
  r ∈ related_query g titles d →
  ∃ seed related p r0,
    l_seed_concept r ∈ titles
    ∧ node_title g seed = Some (l_seed_concept r)
    ∧ node_title g related = Some (l_title r)
    ∧ peer_trail g d seed p related
    ∧ head p = Some r0
    ∧ r_type r0.2 ≠ PREREQ_OF
    ∧ l_relation_type r = rel_type_name (r_type r0.2)
    ∧ l_title r ≠ l_seed_concept r.
Proof.
  unfold related_query. rewrite elem_of_distinct. unfold related_bindings.
  intros Hr.
  apply list_elem_of_bind in Hr as (seedTitle & Hr & HseedT).
  apply list_elem_of_bind in Hr as ([seed sn] & Hr & Hseed).
  apply list_elem_of_bind in Hr as ([p w] & Hr & Hp).
  apply elem_of_match_concepts in Hseed as [Hsn Hst]. simpl in *.
  apply peer_paths_trail in Hp.
  destruct (concept_nodes g !! w) as [rn|] eqn:Hw; [|inversion Hr].
  destruct (head p) as [r0|] eqn:Hhd; [|inversion Hr].
  case_bool_decide as Hne; [|inversion Hr].
  apply list_elem_of_singleton in Hr as ->. simpl.
  exists seed, w, p, r0. unfold node_title. rewrite Hsn, Hw. simpl.
  rewrite Hst. split_and!; try done.
  destruct Hp as (_ & _ & Hpath & _).
  destruct p as [|ir p']; [done|]. simpl in Hhd. injection Hhd as ->.
  simpl in Hpath. tauto.
Qed.

Lemma get_related_concepts_entry g titles d c :
  c ∈ _get_related_concepts g titles d →
  depth c = 1%Z ∧ relation_to_seed c ∈ peer_relation_names.
Proof.
  unfold _get_related_concepts. intros (r & -> & Hr)%list_elem_of_fmap.
  split; [done|]. simpl.
  apply related_query_elem in Hr as (? & ? & ? & r0 & _ & _ & _ & _ & _ & Hty & -> & _).
  by apply lower_peer_name.
Qed.

Lemma gathered_concepts_staged g seed_titles prereq_depth related_depth :
  staged (_get_seed_concepts g seed_titles)
         (_get_prerequisites g seed_titles prereq_depth)
         (_get_related_concepts g seed_titles related_depth).
Proof.
  split.
  - apply Forall_forall. intros c. apply get_seed_concepts_entry.
  - apply Forall_forall. intros c Hc.
    apply get_prerequisites_entry in Hc as [? ?]. split; [done | lia].
  - apply get_prerequisites_ascending.
  - apply Forall_forall. intros c Hc.
    apply get_related_concepts_entry in Hc as [? ?].
    split; [by apply peer_name_rank | done].
Qed.

(** The truncation inside [expand_seeds]: on the list it gathers, with
    [max_concepts] from 0 up to the number of deduplicated entries, the kept
    entries precede the dropped ones. *)
Lemma expand_seeds_keeps_lowest g seed_titles prereq_depth related_depth
    max_concepts :
  (0 ≤ max_concepts
   < Z.of_nat (length (sorted_concepts
        (gathered_concepts g seed_titles prereq_depth related_depth))))%Z →
  keeps_lowest (gathered_concepts g seed_titles prereq_depth related_depth)
    max_concepts.
Proof.
  intros Hmax. unfold gathered_concepts in *.
  apply keeps_lowest_staged; [apply gathered_concepts_staged | done].
Qed.

(** C5: every concept of the peer-relation stage has depth 1, whatever
    [related_depth] is and however many relationships its path has, and its
    [relation_to_seed] is the lower-cased type name of the relationship the
    path leaves the seed by: ["is_a"] for [IS_A], ["part_of"] for [PART_OF],
    ["sibling"] for [SIBLING] and ["contrasts_with"] for [CONTRASTS_WITH]. *)
Theorem related_concepts_fixed_depth g seed_titles related_depth c :
  c ∈ _get_related_concepts g seed_titles related_depth →
  depth c = 1%Z
  ∧ relation_to_seed c ∈ peer_relation_names
  ∧ ∃ seed related p r0,
      seed_concept c ∈ seed_titles
      ∧ node_title g seed = Some (seed_concept c)
      ∧ node_title g related = Some (title c)
      ∧ peer_trail g related_depth seed p related
      ∧ head p = Some r0
      ∧ match r_type r0.2 with
        | IS_A => relation_to_seed c = "is_a"
        | PART_OF => relation_to_seed c = "part_of"
        | SIBLING => relation_to_seed c = "sibling"
        | CONTRASTS_WITH => relation_to_seed c = "contrasts_with"
        | PREREQ_OF => False
        end.
Proof.
  intros Hc.
  destruct (get_related_concepts_entry _ _ _ _ Hc) as [Hd Hrel].
  split; [done|]. split; [done|].
  unfold _get_related_concepts in Hc.
  apply list_elem_of_fmap in Hc as (r & -> & Hr).
  apply related_query_elem in Hr
    as (seed & related & p & r0 & ? & ? & ? & ? & ? & Hpeer & Hty & ?).
  exists seed, related, p, r0. simpl. rewrite Hty.
  split_and!; try done. by destruct (r_type r0.2).
Qed.

(** ["U"] is two relationships away from the seed ["S"]. *)
Lemma related_concepts_fixed_depth_witness :
  related_U ∈ _get_related_concepts tutoring_store ["S"] 2
  ∧ depth related_U = 1%Z
  ∧ relation_to_seed related_U ∈ peer_relation_names.
Proof.
  assert (related_U ∈ _get_related_concepts tutoring_store ["S"] 2) as Hin.
  { vm_compute. apply list_elem_of_further, list_elem_of_here. }
  split; [done|].
  destruct (related_concepts_fixed_depth tutoring_store ["S"] 2 related_U Hin)
    as (Hd & Hrel & _).
  done.
Defined.

(** ** Prerequisite chains *)

Lemma elem_of_chain_candidates g seed d v p :
  (v, p) ∈ chain_candidates g seed d ↔
    node_title g v = Some seed ∧ prereq_trail g d v p.
Proof.
  unfold chain_candidates. rewrite list_elem_of_bind. split.
  - intros ([s sn] & Hp & Hs). apply elem_of_match_concepts in Hs as [Hs Ht].
    simpl in *. apply list_elem_of_fmap in Hp as (p' & [= -> ->] & Hp').
    apply prereq_paths_trail in Hp'. unfold node_title. rewrite Hs. simpl.
    by rewrite Ht.
  - intros [Hv Hp]. unfold node_title in Hv.
    destruct (concept_nodes g !! v) as [sn|] eqn:Hsn; [|done].
    injection Hv as Hv. exists (v, sn). split.
    + apply list_elem_of_fmap. exists p. split; [done|].
      by apply prereq_paths_trail.
    + by apply elem_of_match_concepts.
Qed.

Lemma omap_length_total {A B} (f : A → option B) l :
  Forall (λ x, is_Some (f x)) l → length (omap f l) = length l.
Proof.
  induction 1 as [|x l [y Hy] _ IH]; [done|]. csimpl. rewrite Hy. simpl.
  by rewrite IH.
Qed.

Lemma prereq_path_starts g v p :
  is_prereq_path g v p →
  Forall (λ n, is_Some (node_title g n)) ((λ ir, r_start ir.2) <$> p).
Proof.
  revert v. induction p as [|ir p IH]; intros v Hp; [constructor|].
  simpl in Hp. destruct Hp as (Hir & _ & _ & Hp). csimpl. constructor.
  - apply elem_of_bound_rels in Hir as (_ & [n Hn] & _).
    unfold node_title. rewrite Hn. by eexists.
  - by eapply IH.
Qed.

Lemma chain_titles_shape g v seed p :
  node_title g v = Some seed → is_prereq_path g v p →
  length (omap (node_title g) (path_nodes v p)) = S (length p)
  ∧ last (omap (node_title g) (path_nodes v p)) = Some seed.
Proof.
  intros Hv Hp. unfold path_nodes. split.
  - rewrite omap_length_total.
    + rewrite length_app, length_reverse, length_fmap. simpl. lia.
    + apply Forall_app. split; [|repeat constructor; by rewrite Hv].
      apply Forall_reverse. by eapply prereq_path_starts.
  - rewrite omap_app. csimpl. rewrite Hv. simpl. apply last_snoc.
Qed.

Lemma omap_lookup_total {A B} (f : A → option B) l i :
  Forall (λ x, is_Some (f x)) l → omap f l !! i = l !! i ≫= f.
Proof.
  intros Hall. revert i. induction Hall as [|x l [y Hy] _ IH]; intros i.
  - done.
  - csimpl. rewrite Hy. destruct i as [|i]; simpl; [done | apply IH].
Qed.

Lemma path_nodes_cons v ir p :
  path_nodes v (ir :: p) = path_nodes (r_start ir.2) p ++ [v].
Proof.
  unfold path_nodes. csimpl. by rewrite reverse_cons, <- app_assoc.
Qed.

Lemma path_nodes_length v p : length (path_nodes v p) = S (length p).
Proof.
  unfold path_nodes. rewrite length_app, length_reverse, length_fmap.
  simpl. lia.
Qed.

Lemma path_nodes_last v p : path_nodes v p !! length p = Some v.
Proof.
  unfold path_nodes. rewrite lookup_app_r; rewrite length_reverse, length_fmap;
    [|done]. by rewrite Nat.sub_diag.
Qed.

(** Each relationship of a path leads from a node of [nodes(path)] to the
    next one. *)
Lemma path_nodes_steps g p : ∀ v,
  is_prereq_path g v p →
  ∀ i ir, reverse p !! i = Some ir →
    path_nodes v p !! i = Some (r_start ir.2)
    ∧ path_nodes v p !! S i = Some (r_end ir.2).
Proof.
  induction p as [|ir0 p IH]; intros v Hp i ir Hi; [done|].
  simpl in Hp. destruct Hp as (_ & _ & Hend & Hp).
  rewrite path_nodes_cons. rewrite reverse_cons in Hi.
  destruct (decide (i < length p)) as [Hlt | Hge].
  - rewrite lookup_app_l in Hi by (by rewrite length_reverse).
    destruct (IH _ Hp i ir Hi) as [H1 H2].
    rewrite !lookup_app_l by (rewrite path_nodes_length; lia). done.
  - assert (i = length p) as ->.
    { apply lookup_lt_Some in Hi.
      rewrite length_app, length_reverse in Hi. simpl in Hi. lia. }
    rewrite lookup_app_r in Hi by (by rewrite length_reverse).
    rewrite length_reverse, Nat.sub_diag in Hi. injection Hi as <-.
    rewrite lookup_app_l by (rewrite path_nodes_length; lia).
    rewrite path_nodes_last.
    rewrite lookup_app_r by (rewrite path_nodes_length; lia).
    rewrite path_nodes_length, Nat.sub_diag. simpl. by rewrite Hend.
Qed.

Lemma chain_titles_steps g v seed p :
  node_title g v = Some seed → is_prereq_path g v p →
  ∀ i ir, reverse p !! i = Some ir →
    omap (node_title g) (path_nodes v p) !! i = node_title g (r_start ir.2)
    ∧ omap (node_title g) (path_nodes v p) !! S i
      = node_title g (r_end ir.2).
Proof.
  intros Hv Hp i ir Hi.
  assert (Forall (λ n, is_Some (node_title g n)) (path_nodes v p)) as Hall.
  { unfold path_nodes. apply Forall_app.
    split; [|repeat constructor; by rewrite Hv].
    apply Forall_reverse. by eapply prereq_path_starts. }
  destruct (path_nodes_steps g p v Hp i ir Hi) as [H1 H2].
  rewrite !omap_lookup_total by done. by rewrite H1, H2.
Qed.

Lemma chain_query_single g seed d :
  chain_for g d seed
    (match single (chain_query g seed d) with
     | Some titles => titles
     | None => [seed]
     end).
Proof.
  unfold chain_query, single.
  set (ordered := sorted (λ sp : nat * list (nat * Relationship),
                            (- Z.of_nat (length sp.2))%Z)
                         (chain_candidates g seed d)).
  assert (ordered ≡ₚ chain_candidates g seed d) as Hperm
    by apply sorted_perm.
  assert (StronglySorted
            (λ x y : nat * Path,
               (- Z.of_nat (length x.2) ≤ - Z.of_nat (length y.2))%Z) ordered)
    as Hsorted by apply sorted_ascending.
  clearbody ordered. destruct ordered as [|[v p] rest].
  - left. simpl. split; [done|]. intros v p Hv Hp.
    assert ((v, p) ∈ chain_candidates g seed d) as Hin
      by by apply elem_of_chain_candidates.
    rewrite <- Hperm in Hin. inversion Hin.
  - right. simpl. exists v, p.
    assert ((v, p) ∈ chain_candidates g seed d) as Hin
      by (rewrite <- Hperm; by left).
    apply elem_of_chain_candidates in Hin as [Hv Hp].
    split; [done|]. split; [done|].
    assert (is_prereq_path g v p) as Hpath by (by destruct Hp as (_ & _ & ? & _)).
    destruct (chain_titles_shape g v seed p Hv Hpath) as [Hlen Hlast].
    split; [done|]. split; [by apply (chain_titles_steps g v seed p)|]. split; [done|].
    intros v' p' Hv' Hp'.
    assert ((v', p') ∈ (v, p) :: rest) as Hin'
      by (rewrite Hperm; by apply elem_of_chain_candidates).
    apply StronglySorted_cons in Hsorted as [Hall _].
    apply elem_of_cons in Hin' as [[= -> ->] | Hin']; [done|].
    rewrite Forall_forall in Hall. specialize (Hall _ Hin'). simpl in Hall.
    lia.
Qed.

(** C6: [prereq_chain] holds one chain per seed title, in seed order; the
    chain of a seed lists the titles of the nodes of a longest [PREREQ_OF]
    path of at most [prereq_depth] hops into a node with that title, from
    the far prerequisite to the seed, every title being a prerequisite of
    the next by a relationship of the path; it is the singleton of the seed
    title when there is no such path. *)
Theorem prereq_chain_per_seed g seed_titles prereq_depth related_depth
    max_concepts max_examples_per_concept :
  let chains := prereq_chain (expand_seeds g seed_titles prereq_depth
                  related_depth max_concepts max_examples_per_concept) in
  length chains = length seed_titles
  ∧ ∀ i seed, seed_titles !! i = Some seed →
      ∃ chain, chains !! i = Some chain ∧ chain_for g prereq_depth seed chain.
Proof.
  simpl. unfold _get_prereq_chains. split; [by rewrite length_fmap|].
  intros i seed Hi. rewrite list_lookup_fmap, Hi. simpl.
  eexists. split; [done|]. apply chain_query_single.
Qed.

Lemma prereq_chain_per_seed_witness :
  ["Gradient Descent"; "Derivatives"; "Nothing"] !! 0 = Some "Gradient Descent"
  ∧ ∃ chain,
      prereq_chain (expand_seeds calculus_store
        ["Gradient Descent"; "Derivatives"; "Nothing"] 2 1 15 2) !! 0
      = Some chain
      ∧ chain_for calculus_store 2 "Gradient Descent" chain.
Proof.
  split; [reflexivity|].
  apply (prereq_chain_per_seed calculus_store
           ["Gradient Descent"; "Derivatives"; "Nothing"] 2 1 15 2).
  reflexivity.
Defined.

Example prereq_chain_calculus :
  prereq_chain (expand_seeds calculus_store
    ["Gradient Descent"; "Derivatives"; "Nothing"] 2 1 15 2)
  = [["Calculus"; "Derivatives"; "Gradient Descent"];
     ["Calculus"; "Derivatives"]; ["Nothing"]].
Proof. vm_compute. reflexivity. Qed.

(** C10: in the concepts returned by [expand_seeds], depth 0 goes with the
    relation ["seed"] and only with it: an entry is a whole entry of one of
    the three stages, with depth 0 and ["seed"], or a depth from 1 to
    [prereq_depth] and ["prerequisite"], or depth 1 and a peer relation
    name. *)
Theorem expand_seeds_depth_relation g seed_titles prereq_depth related_depth
    max_concepts max_examples_per_concept c :
  c ∈ concepts (expand_seeds g seed_titles prereq_depth related_depth
                  max_concepts max_examples_per_concept) →
  (depth c = 0%Z ↔ relation_to_seed c = "seed")
  ∧ ((c ∈ _get_seed_concepts g seed_titles
      ∧ relation_to_seed c = "seed" ∧ depth c = 0%Z)
     ∨ (c ∈ _get_prerequisites g seed_titles prereq_depth
        ∧ relation_to_seed c = "prerequisite"
        ∧ (1 ≤ depth c ≤ Z.of_nat prereq_depth)%Z)
     ∨ (c ∈ _get_related_concepts g seed_titles related_depth
        ∧ relation_to_seed c ∈ peer_relation_names ∧ depth c = 1%Z)).
Proof.
  simpl. intros Hc. apply deduplicate_subset in Hc.
  unfold gathered_concepts in Hc. rewrite !elem_of_app in Hc.
  destruct Hc as [Hc | [Hc | Hc]].
  - destruct (get_seed_concepts_entry _ _ _ Hc) as [Hr Hd].
    split; [by rewrite Hr, Hd | by left].
  - destruct (get_prerequisites_entry _ _ _ _ Hc) as [Hr Hd].
    split; [|right; by left]. rewrite Hr. split; [lia | done].
  - destruct (get_related_concepts_entry _ _ _ _ Hc) as [Hd Hr].
    split; [|right; by right]. rewrite Hd. split; [done|].
    intros Hs. apply peer_name_rank in Hr. unfold stage_rank in Hr.
    rewrite Hs in Hr. done.
Qed.

Lemma expand_seeds_depth_relation_witness :
  related_U ∈ concepts (expand_seeds tutoring_store ["S"] 2 2 15 2)
  ∧ (depth related_U = 0%Z ↔ relation_to_seed related_U = "seed").
Proof.
  assert (related_U ∈ concepts (expand_seeds tutoring_store ["S"] 2 2 15 2))
    as Hin.
  { vm_compute. do 2 apply list_elem_of_further. apply list_elem_of_here. }
  split; [done|].
  apply (expand_seeds_depth_relation tutoring_store ["S"] 2 2 15 2 related_U Hin).
Defined.

(** ** The orchestrator *)

(** C7: when the semantic search finds nothing, [retrieve] returns a
    result whose matches, seeds and order are empty and whose subgraph has
    five empty lists; it is a plain value, the empty-result state, and the
    store plays no part in it. *)
Theorem retrieve_no_matches self q top_k_semantic min_semantic_score
    prereq_depth related_depth max_concepts max_examples_per_concept :
  embedder self q top_k_semantic min_semantic_score = [] →
  let result := retrieve self q top_k_semantic min_semantic_score
                  prereq_depth related_depth max_concepts
                  max_examples_per_concept in
  result = empty_result q
  ∧ query result = q
  ∧ semantic_matches result = []
  ∧ used_seed_concepts result = []
  ∧ ordered_concepts result = []
  ∧ seed_concepts (subgraph result) = []
  ∧ concepts (subgraph result) = []
  ∧ resources (subgraph result) = []
  ∧ examples (subgraph result) = []
  ∧ prereq_chain (subgraph result) = []
  ∧ ∀ g, retrieve (mkHybridRetriever (embedder self) g) q top_k_semantic
           min_semantic_score prereq_depth related_depth max_concepts
           max_examples_per_concept
         = result.
Proof.
  intros Hnone. simpl. unfold retrieve. simpl. rewrite Hnone. simpl.
  split_and!; try done.
Qed.

Lemma retrieve_no_matches_witness :
  embedder silent_retriever "What is a tensor?" 5%Z 4000%Z = []
  ∧ retrieve silent_retriever "What is a tensor?" 5%Z 4000%Z 2 1 15%Z 2%Z
    = empty_result "What is a tensor?".
Proof.
  split; [reflexivity|].
  apply (retrieve_no_matches silent_retriever "What is a tensor?"
           5%Z 4000%Z 2 1 15%Z 2%Z).
  reflexivity.
Defined.

(** With matches, [retrieve] seeds the expansion with their titles. *)
Lemma retrieve_steps self q top_k_semantic min_semantic_score
    prereq_depth related_depth max_concepts max_examples_per_concept :
  let matches := embedder self q top_k_semantic min_semantic_score in
  let result := retrieve self q top_k_semantic min_semantic_score
                  prereq_depth related_depth max_concepts
                  max_examples_per_concept in
  matches ≠ [] →
  query result = q
  ∧ semantic_matches result = matches
  ∧ used_seed_concepts result = m_title <$> matches
  ∧ subgraph result
    = expand_seeds (graph_retriever self) (used_seed_concepts result)
        prereq_depth related_depth max_concepts max_examples_per_concept
  ∧ ordered_concepts result
    = get_topological_order (graph_retriever self) (concepts (subgraph result)).
Proof.
  simpl. unfold retrieve.
  destruct (embedder self q top_k_semantic min_semantic_score); done.
Qed.

Lemma StronglySorted_sublist {A} (R : relation A) l k :
  l `sublist_of` k → StronglySorted R k → StronglySorted R l.
Proof.
  induction 1 as [|x l k Hsub IH|x l k Hsub IH]; intros Hk; [done|..].
  - apply StronglySorted_cons in Hk as [Hx Hk]. constructor; [by apply IH|].
    rewrite Forall_forall in Hx |- *. intros y Hy.
    apply Hx. by eapply elem_of_sublist.
  - apply StronglySorted_cons in Hk as [_ Hk]. by apply IH.
Qed.

Lemma union_seeds_spec matches : ∀ acc,
  ∃ kept,
    kept `sublist_of` matches
    ∧ union_seeds acc matches = acc ++ (m_title <$> kept)
    ∧ NoDup (m_title <$> kept)
    ∧ ∀ t, t ∈ m_title <$> kept ↔ t ∈ m_title <$> matches ∧ t ∉ acc.
Proof.
  unfold union_seeds.
  induction matches as [|m ms IH]; intros acc.
  - exists []. simpl. rewrite app_nil_r.
    split; [done|]. split; [done|]. split; [constructor|].
    intros t. split; [inversion 1 | intros [Hin _]; inversion Hin].
  - simpl. unfold add_match at 2. case_bool_decide as Hin.
    + destruct (IH acc) as (kept & Hsub & Heq & Hnd & Hiff).
      exists kept. split; [by apply sublist_cons|]. split; [done|].
      split; [done|]. intros t. rewrite Hiff, elem_of_cons.
      split; [tauto|]. intros [[-> | ?] ?]; tauto.
    + destruct (IH (acc ++ [m_title m])) as (kept & Hsub & Heq & Hnd & Hiff).
      exists (m :: kept). split; [by apply sublist_skip|].
      split; [by rewrite Heq, <- app_assoc|]. csimpl. split.
      * constructor; [|done]. rewrite Hiff, elem_of_app, list_elem_of_singleton.
        tauto.
      * intros t. rewrite !elem_of_cons, Hiff, elem_of_app,
          list_elem_of_singleton.
        destruct (decide (t = m_title m)) as [-> | Hne]; tauto.
Qed.

(** C9: the seeds handed to the expansion are the explicit titles in their
    order, then the titles of the semantic matches that are not among them,
    each once and in the order of the matches (descending score when the
    search returns them so); expansion, ordering and assembly are those of
    [retrieve] (see [retrieve_steps]). *)
Theorem explicit_seeds_first self q explicit_concepts kwargs :
  let matches :=
    embedder self q (default 3%Z (kw_top_k_semantic kwargs))
      (default 4000%Z (kw_min_semantic_score kwargs)) in
  let result :=
    retrieve_with_explicit_concepts self q explicit_concepts kwargs in
  (∃ kept,
     kept `sublist_of` matches
     ∧ used_seed_concepts result = explicit_concepts ++ (m_title <$> kept)
     ∧ NoDup (m_title <$> kept)
     ∧ (∀ t, t ∈ m_title <$> kept ↔
             t ∈ m_title <$> matches ∧ t ∉ explicit_concepts)
     ∧ (StronglySorted (λ a b, m_score b ≤ m_score a)%Z matches →
        StronglySorted (λ a b, m_score b ≤ m_score a)%Z kept))
  ∧ query result = q
  ∧ semantic_matches result = matches
  ∧ subgraph result
    = expand_seeds (graph_retriever self) (used_seed_concepts result)
        (default 2 (kw_prereq_depth kwargs))
        (default 1 (kw_related_depth kwargs))
        (default 15%Z (kw_max_concepts kwargs))
        (default 2%Z (kw_max_examples_per_concept kwargs))
  ∧ ordered_concepts result
    = get_topological_order (graph_retriever self) (concepts (subgraph result)).
Proof.
  simpl. split; [|done].
  destruct (union_seeds_spec
    (embedder self q (default 3%Z (kw_top_k_semantic kwargs))
       (default 4000%Z (kw_min_semantic_score kwargs))) explicit_concepts)
    as (kept & Hsub & Heq & Hnd & Hiff).
  exists kept. split; [done|]. split; [done|]. split; [done|].
  split; [done|]. by apply StronglySorted_sublist.
Qed.

Example explicit_seeds_example :
  used_seed_concepts
    (retrieve_with_explicit_concepts tutor_retriever "gradient descent?"
       ["Gradient Descent"; "Backpropagation"] no_kwargs)
  = ["Gradient Descent"; "Backpropagation"; "Derivatives"; "Calculus"].
Proof. vm_compute. reflexivity. Qed.

(** ** Defaults for missing properties *)

Lemma get_resources_elem g concept_titles r :
  r ∈ _get_resources g concept_titles →
  ∃ record, record ∈ resources_query g concept_titles
            ∧ r = resource_of_record record.
Proof.
  unfold _get_resources.
  induction (resources_query g concept_titles) as [|rec recs IH] using rev_ind.
  - simpl. inversion 1.
  - rewrite foldl_snoc. unfold resource_step at 1. case_bool_decide.
    + intros Hr. destruct (IH Hr) as (record & ? & ?).
      exists record. split; [|done]. apply elem_of_app. by left.
    + simpl. intros [Hr | ->%list_elem_of_singleton]%elem_of_app.
      * destruct (IH Hr) as (record & ? & ?).
        exists record. split; [|done]. apply elem_of_app. by left.
      * exists rec. split; [|done]. apply elem_of_app. right. by left.
Qed.

(** C8, as amended: where the record lacks it, the difficulty of a concept,
    the type of a resource and the type of an example become ["unknown"],
    the definition of a concept and the source URL of an example become the
    empty string; the text of an example is passed on as the record has it.
    Every concept, resource and example of the subgraph is built from a
    record in this way. *)
Theorem missing_properties_defaulted :
  (∀ r, (c_definition r = None → definition (seed_of_record r) = "")
        ∧ (c_difficulty r = None → difficulty (seed_of_record r) = "unknown"))
  ∧ (∀ r, (p_definition r = None → definition (prerequisite_of_record r) = "")
          ∧ (p_difficulty r = None →
             difficulty (prerequisite_of_record r) = "unknown"))
  ∧ (∀ r, (l_definition r = None → definition (related_of_record r) = "")
          ∧ (l_difficulty r = None →
             difficulty (related_of_record r) = "unknown"))
  ∧ (∀ r, s_resource_type r = None →
          resource_type (resource_of_record r) = "unknown")
  ∧ (∀ r, (x_example_type r = None →
           example_type (example_of_record r) = "unknown")
          ∧ (x_source_url r = None → source_url (example_of_record r) = "")
          ∧ text (example_of_record r) = x_text r)
  ∧ ∀ g seed_titles prereq_depth related_depth max_concepts
      max_examples_per_concept,
      let sg := expand_seeds g seed_titles prereq_depth related_depth
                  max_concepts max_examples_per_concept in
      (∀ c, c ∈ concepts sg →
         c ∈ seed_of_record <$> seed_query g seed_titles
         ∨ c ∈ prerequisite_of_record
               <$> prerequisites_query g seed_titles prereq_depth
         ∨ c ∈ related_of_record <$> related_query g seed_titles related_depth)
      ∧ (∀ r, r ∈ resources sg →
           ∃ record, record ∈ resources_query g (title <$> concepts sg)
                     ∧ r = resource_of_record record)
      ∧ examples sg
        = example_of_record
            <$> examples_query g (title <$> concepts sg)
                  max_examples_per_concept.
Proof.
  split; [|split; [|split; [|split; [|split]]]].
  - intros r. split; simpl; by intros ->.
  - intros r. split; simpl; by intros ->.
  - intros r. split; simpl; by intros ->.
  - intros r. simpl. by intros ->.
  - intros r. split; [|split]; simpl; try done; by intros ->.
  - intros g seed_titles prereq_depth related_depth max_concepts
      max_examples_per_concept. simpl. split; [|split; [|done]].
    + intros c Hc. apply deduplicate_subset in Hc.
      unfold gathered_concepts in Hc. rewrite !elem_of_app in Hc. done.
    + intros r. apply get_resources_elem.
Qed.

(** C8 as stated fails for the text of an example: the record of an
    [Example] node without [text] gives an example whose text is [None],
    not the empty string. *)
Lemma example_text_not_defaulted :
  mkRetrievedExample None "unknown" "S" ""
    ∈ examples (expand_seeds tutoring_store ["S"] 2 1 15 2)
  ∧ text (mkRetrievedExample None "unknown" "S" "") ≠ Some "".
Proof.
  split; [|done]. vm_compute.
  apply list_elem_of_further, list_elem_of_here.
Qed.

(** ** Resources of the subgraph *)

Lemma elem_of_resource_bindings g titles rn t :
  (rn, t) ∈ resource_bindings g titles ↔ t ∈ titles ∧ explains_title g rn t.
Proof.
  unfold resource_bindings, explains_title. rewrite list_elem_of_bind. split.
  - intros (conceptTitle & Hin & Ht).
    apply list_elem_of_bind in Hin as ([ci cn] & Hin & Hc).
    apply elem_of_match_concepts in Hc as [Hc Htitle]. simpl in *.
    apply list_elem_of_bind in Hin as ([ri ci'] & Hin & Hrc).
    apply list_elem_of_filter in Hrc as [Heq Hrc]. simpl in *. subst ci'.
    destruct (resource_nodes g !! ri) as [r|] eqn:Hr; [|by inversion Hin].
    apply list_elem_of_singleton in Hin as [= -> ->].
    split; [by rewrite Htitle|]. by exists ri, ci, cn.
  - intros (Ht & ri & ci & cn & Hex & Hr & Hc & Htitle).
    exists t. split; [|done].
    apply list_elem_of_bind. exists (ci, cn). split.
    + apply list_elem_of_bind. exists (ri, ci). split.
      * simpl. rewrite Hr, Htitle. apply list_elem_of_here.
      * by apply list_elem_of_filter.
    + by apply elem_of_match_concepts.
Qed.

Lemma collect_title_spec b groups :
  (((n_url b.1, n_type b.1) ∉ resource_key <$> groups)
   ∧ collect_title b groups
     = groups ++ [mkResourceRecord (n_url b.1) (n_type b.1) [b.2]])
  ∨ ∃ g1 grp g2,
      groups = g1 ++ grp :: g2
      ∧ resource_key grp = (n_url b.1, n_type b.1)
      ∧ collect_title b groups = g1 ++ extend_group grp b.2 :: g2.
Proof.
  induction groups as [|grp rest IH]; simpl.
  - left. split; [apply not_elem_of_nil | done].
  - case_bool_decide as Hkey.
    + right. exists [], grp, rest. destruct Hkey as [Hu Ht].
      split; [done|]. split; [unfold resource_key; by rewrite Hu, Ht | done].
    + destruct IH as [[Hnot Heq] | (g1 & grp' & g2 & Heq & Hk & Hc)].
      * left. split; [|by rewrite Heq].
        apply not_elem_of_cons. split; [|done].
        unfold resource_key. intros [= Hu Ht]. by apply Hkey.
      * right. exists (grp :: g1), grp', g2.
        split; [by rewrite Heq|]. split; [done | by rewrite Hc].
Qed.

Lemma collect_title_groups b bs groups :
  resource_groups bs groups →
  resource_groups (bs ++ [b]) (collect_title b groups).
Proof.
  intros [Hk Hcov Hnd Hi Hc].
  destruct (collect_title_spec b groups)
    as [[Hnot ->] | (g1 & grp & g2 & -> & Hkey & ->)].
  - split.
    + rewrite fmap_app. apply NoDup_app. split; [done|].
      split; [|apply NoDup_singleton].
      intros k Hin ->%list_elem_of_singleton. done.
    + intros b' [Hb | ->%list_elem_of_singleton]%elem_of_app;
        rewrite fmap_app, elem_of_app; [left; by apply Hcov|].
      right. apply list_elem_of_here.
    + intros r [Hr | ->%list_elem_of_singleton]%elem_of_app;
        [by apply Hnd | apply NoDup_singleton].
    + intros r [Hr | ->%list_elem_of_singleton]%elem_of_app;
        [by apply Hi | done].
    + intros r t [Hr | ->%list_elem_of_singleton]%elem_of_app.
      * rewrite (Hc r t Hr). split.
        -- intros (rn & Hin & Hrn). exists rn. split; [|done].
           apply elem_of_app. by left.
        -- intros (rn & [Hin | Hin%list_elem_of_singleton]%elem_of_app & Hrn);
             [by exists rn|].
           exfalso. apply Hnot. subst b. simpl. rewrite Hrn.
           apply list_elem_of_fmap. by exists r.
      * simpl. rewrite list_elem_of_singleton. split.
        -- intros ->. exists b.1. split; [|done].
           apply elem_of_app. right. destruct b. apply list_elem_of_here.
        -- intros (rn & [Hin | Hin%list_elem_of_singleton]%elem_of_app & Hrn).
           ++ exfalso. apply Hnot. unfold resource_key in Hrn. simpl in Hrn.
              rewrite <- Hrn. by apply (Hcov (rn, t)).
           ++ by subst b.
  - assert (resource_key (extend_group grp b.2) = resource_key grp) as Hsame
      by done.
    assert (resource_key <$> (g1 ++ extend_group grp b.2 :: g2)
            = resource_key <$> (g1 ++ grp :: g2)) as Hkeys.
    { by rewrite !fmap_app, !fmap_cons, Hsame. }
    assert (∀ r, r ∈ g1 ++ extend_group grp b.2 :: g2 →
                 r = extend_group grp b.2 ∨ (r ∈ g1 ++ grp :: g2 ∧ resource_key r ≠ resource_key grp))
      as Hcases.
    { intros r Hr. rewrite fmap_app, fmap_cons in Hk.
      apply NoDup_app in Hk as (Hk1 & Hdis & Hk2).
      apply NoDup_cons in Hk2 as [Hk2 Hk3].
      apply elem_of_app in Hr as [Hr | Hr].
      - right. split; [apply elem_of_app; by left|].
        intros Heq. apply (Hdis (resource_key r)).
        + apply list_elem_of_fmap. by exists r.
        + rewrite Heq. apply list_elem_of_here.
      - apply elem_of_cons in Hr as [-> | Hr]; [by left|].
        right. split; [apply elem_of_app; right; by apply list_elem_of_further|].
        intros Heq. apply Hk2. rewrite <- Heq.
        apply list_elem_of_fmap. by exists r. }
    assert (grp ∈ g1 ++ grp :: g2) as Hgrp.
    { apply elem_of_app. right. apply list_elem_of_here. }
    split.
    + by rewrite Hkeys.
    + rewrite Hkeys.
      intros b' [Hb | ->%list_elem_of_singleton]%elem_of_app; [by apply Hcov|].
      rewrite <- Hkey. apply list_elem_of_fmap. by exists grp.
    + intros r Hr. destruct (Hcases r Hr) as [-> | [Hr' _]]; [|by apply Hnd].
      simpl. case_bool_decide as Hin; [by apply Hnd|].
      apply NoDup_app. split; [by apply Hnd|].
      split; [|apply NoDup_singleton].
      intros t Ht ->%list_elem_of_singleton. done.
    + intros r Hr. destruct (Hcases r Hr) as [-> | [Hr' _]]; [|by apply Hi].
      simpl. case_bool_decide as Hin; [by apply Hi|].
      intros Happ. by apply app_eq_nil in Happ as [_ ?].
    + intros r t Hr. destruct (Hcases r Hr) as [-> | [Hr' Hne]].
      * rewrite Hsame. simpl.
        assert (t ∈ (if bool_decide (b.2 ∈ s_concepts grp) then s_concepts grp
                     else s_concepts grp ++ [b.2])
                ↔ t ∈ s_concepts grp ∨ t = b.2) as ->.
        { case_bool_decide as Hin.
          - split; [by left|]. intros [? | ->]; done.
          - rewrite elem_of_app, list_elem_of_singleton. done. }
        rewrite (Hc grp t Hgrp). split.
        -- intros [(rn & Hin & Hrn) | ->].
           ++ exists rn. split; [apply elem_of_app; by left | done].
           ++ exists b.1. split; [|done]. apply elem_of_app. right.
              destruct b. apply list_elem_of_here.
        -- intros (rn & [Hin | Hin%list_elem_of_singleton]%elem_of_app & Hrn).
           ++ left. by exists rn.
           ++ right. by subst b.
      * rewrite (Hc r t Hr'). split.
        -- intros (rn & Hin & Hrn). exists rn. split; [|done].
           apply elem_of_app. by left.
        -- intros (rn & [Hin | Hin%list_elem_of_singleton]%elem_of_app & Hrn);
             [by exists rn|].
           exfalso. apply Hne. subst b. simpl in Hkey. by rewrite <- Hrn, Hkey.
Qed.

Lemma resources_query_groups g titles :
  resource_groups (resource_bindings g titles) (resources_query g titles).
Proof.
  unfold resources_query.
  induction (resource_bindings g titles) as [|b bs IH] using rev_ind.
  - simpl. split; try (intros ? Hin; by inversion Hin).
    + constructor.
    + intros r t Hin. by inversion Hin.
  - rewrite foldl_snoc. by apply collect_title_groups.
Qed.

Lemma resource_step_spec st rec :
  (∀ u, u ∈ st.2 ↔ u ∈ url <$> st.1) → NoDup (url <$> st.1) →
  (∀ u, u ∈ (resource_step st rec).2 ↔ u ∈ url <$> (resource_step st rec).1)
  ∧ NoDup (url <$> (resource_step st rec).1)
  ∧ (∀ u, u ∈ url <$> (resource_step st rec).1
          ↔ u ∈ url <$> st.1 ∨ u = s_url rec).
Proof.
  intros Hset Hnd. unfold resource_step. case_bool_decide as Hseen.
  - split; [done|]. split; [done|]. intros u. split; [by left|].
    intros [? | ->]; [done | by apply Hset].
  - simpl. rewrite fmap_app. simpl. split; [|split].
    + intros u. rewrite elem_of_app, elem_of_union, elem_of_singleton.
      rewrite list_elem_of_singleton, Hset. tauto.
    + apply NoDup_app. split; [done|]. split; [|apply NoDup_singleton].
      intros u Hu ->%list_elem_of_singleton. apply Hseen. by apply Hset.
    + intros u. by rewrite elem_of_app, list_elem_of_singleton.
Qed.

Lemma resource_fold_spec records : ∀ st,
  (∀ u, u ∈ st.2 ↔ u ∈ url <$> st.1) → NoDup (url <$> st.1) →
  (∀ u, u ∈ (foldl resource_step st records).2
        ↔ u ∈ url <$> (foldl resource_step st records).1)
  ∧ NoDup (url <$> (foldl resource_step st records).1)
  ∧ (∀ u, u ∈ url <$> (foldl resource_step st records).1
          ↔ u ∈ url <$> st.1 ∨ u ∈ s_url <$> records).
Proof.
  induction records as [|rec recs IH]; intros st Hset Hnd; simpl.
  - split; [done|]. split; [done|]. intros u. split; [by left|].
    intros [? | Hin]; [done | by inversion Hin].
  - destruct (resource_step_spec st rec Hset Hnd) as (S1 & S2 & S3).
    destruct (IH (resource_step st rec) S1 S2) as (H1 & H2 & H3).
    split; [done|]. split; [done|]. intros u.
    rewrite H3, S3, elem_of_cons. tauto.
Qed.

(** X1: no two resources of the result share a URL, and the URLs listed are
    exactly those of the [Resource] nodes that explain a concept with one of
    the given titles. *)
Theorem get_resources_urls g concept_titles :
  NoDup (url <$> _get_resources g concept_titles)
  ∧ ∀ u, u ∈ url <$> _get_resources g concept_titles ↔
         ∃ rn t, t ∈ concept_titles ∧ explains_title g rn t ∧ n_url rn = u.
Proof.
  unfold _get_resources.
  destruct (resource_fold_spec (resources_query g concept_titles) ([], ∅))
    as (_ & Hnd & Hurls); simpl.
  - intros u. rewrite elem_of_empty. split; [done | by inversion 1].
  - constructor.
  - split; [done|]. intros u. rewrite Hurls. simpl.
    destruct (resources_query_groups g concept_titles) as [_ Hcov _ Hi Hc].
    split.
    + intros [Hin | Hin]; [by inversion Hin|].
      apply list_elem_of_fmap in Hin as (r & -> & Hr).
      destruct (s_concepts r) as [|t ts] eqn:Hts; [by apply Hi in Hr|].
      destruct (Hc r t Hr) as [(rn & Hin & Hkey) _].
      { rewrite Hts. apply list_elem_of_here. }
      apply elem_of_resource_bindings in Hin as [Ht Hex].
      exists rn, t. split; [done|]. split; [done|]. by injection Hkey.
    + intros (rn & t & Ht & Hex & <-). right.
      assert ((rn, t) ∈ resource_bindings g concept_titles) as Hin
        by (by apply elem_of_resource_bindings).
      apply Hcov in Hin. simpl in Hin.
      apply list_elem_of_fmap in Hin as (r & Hkey & Hr).
      apply list_elem_of_fmap. exists r. split; [by injection Hkey | done].
Qed.

(** X2: a resource of the result carries its URL as title, no page numbers
    and no time codes; the concepts it explains are listed once each, there
    is at least one, and they are the given titles explained by a
    [Resource] node with the URL and type of the resource. *)
Theorem get_resources_contents g concept_titles r :
  r ∈ _get_resources g concept_titles →
  resource_title r = url r ∧ page_numbers r = None ∧ timecodes r = None
  ∧ concepts_explained r ≠ [] ∧ NoDup (concepts_explained r)
  ∧ ∃ ty, resource_type r = or_default ty "unknown"
          ∧ ∀ t, t ∈ concepts_explained r ↔
                 t ∈ concept_titles
                 ∧ ∃ rn, explains_title g rn t ∧ n_url rn = url r
                         ∧ n_type rn = ty.
Proof.
  intros Hr. apply get_resources_elem in Hr as (record & Hrec & ->). simpl.
  destruct (resources_query_groups g concept_titles) as [_ _ Hnd Hi Hc].
  split; [done|]. split; [done|]. split; [done|].
  split; [by apply Hi|]. split; [by apply Hnd|].
  exists (s_resource_type record). split; [done|].
  intros t. rewrite (Hc record t Hrec). split.
  - intros (rn & Hin & Hkey).
    apply elem_of_resource_bindings in Hin as [Ht Hex].
    injection Hkey as Hu Hty. split; [done|]. by exists rn.
  - intros (Ht & rn & Hex & Hu & Hty). exists rn.
    split; [by apply elem_of_resource_bindings|].
    unfold resource_key. by rewrite Hu, Hty.
Qed.

Lemma get_resources_contents_witness :
  mkRetrievedResource (Some "http://r") "unknown" (Some "http://r")
    ["S"; "T"] None None
    ∈ _get_resources tutoring_store ["S"; "T"; "U"]
  ∧ NoDup ["S"; "T"].
Proof.
  assert (mkRetrievedResource (Some "http://r") "unknown" (Some "http://r")
            ["S"; "T"] None None
          ∈ _get_resources tutoring_store ["S"; "T"; "U"]) as Hin.
  { vm_compute. apply list_elem_of_here. }
  split; [done|].
  apply (get_resources_contents tutoring_store ["S"; "T"; "U"] _ Hin).
Defined.

(** ** Examples of the subgraph *)

Lemma elem_of_example_bindings g titles t en :
  (t, en) ∈ example_bindings g titles ↔ t ∈ titles ∧ exemplifies_title g en t.
Proof.
  unfold example_bindings, exemplifies_title. rewrite list_elem_of_bind. split.
  - intros (conceptTitle & Hin & Ht).
    apply list_elem_of_bind in Hin as ([ci cn] & Hin & Hc).
    apply elem_of_match_concepts in Hc as [Hc Htitle]. simpl in *.
    apply list_elem_of_bind in Hin as ([ei ci'] & Hin & Hec).
    apply list_elem_of_filter in Hec as [Heq Hec]. simpl in *. subst ci'.
    destruct (example_nodes g !! ei) as [e|] eqn:He; [|by inversion Hin].
    apply list_elem_of_singleton in Hin as [= -> ->].
    split; [by rewrite Htitle|]. by exists ei, ci, cn.
  - intros (Ht & ei & ci & cn & Hex & He & Hc & Htitle).
    exists t. split; [|done].
    apply list_elem_of_bind. exists (ci, cn). split.
    + apply list_elem_of_bind. exists (ei, ci). split.
      * simpl. rewrite He, Htitle. apply list_elem_of_here.
      * by apply list_elem_of_filter.
    + by apply elem_of_match_concepts.
Qed.

Lemma collect_example_keys b groups :
  (collect_example b groups).*1
  = if bool_decide (b.1 ∈ groups.*1) then groups.*1 else groups.*1 ++ [b.1].
Proof.
  induction groups as [|grp rest IH]; [done|].
  cbn [collect_example]. rewrite fmap_cons.
  destruct (decide (grp.1 = b.1)) as [Hkey | Hkey].
  - rewrite (bool_decide_eq_true_2 (grp.1 = b.1)) by done.
    rewrite bool_decide_eq_true_2; [done|]. rewrite Hkey. apply list_elem_of_here.
  - rewrite (bool_decide_eq_false_2 (grp.1 = b.1)) by done.
    rewrite fmap_cons, IH. destruct (decide (b.1 ∈ rest.*1)) as [Hin | Hin].
    + rewrite !bool_decide_eq_true_2; [done | by apply list_elem_of_further | done].
    + rewrite !bool_decide_eq_false_2; [done | | done].
      intros [? | ?]%elem_of_cons; [by apply Hkey | done].
Qed.

Lemma collect_example_elem b groups k e :
  (∃ grp, grp ∈ collect_example b groups ∧ grp.1 = k ∧ e ∈ grp.2) →
  (k, e) = b ∨ ∃ grp, grp ∈ groups ∧ grp.1 = k ∧ e ∈ grp.2.
Proof.
  induction groups as [|grp rest IH]; simpl.
  - intros (grp & ->%list_elem_of_singleton & <- & He). simpl in *.
    apply list_elem_of_singleton in He as ->. left. by destruct b.
  - case_bool_decide as Hkey.
    + intros (grp' & [-> | Hin]%elem_of_cons & <- & He); simpl in *.
      * apply elem_of_app in He as [He | ->%list_elem_of_singleton].
        -- right. exists grp. split; [apply list_elem_of_here | done].
        -- left. rewrite Hkey. by destruct b.
      * right. exists grp'. split; [by apply list_elem_of_further | done].
    + intros (grp' & [-> | Hin]%elem_of_cons & <- & He).
      * right. exists grp. split; [apply list_elem_of_here | done].
      * destruct IH as [? | (grp'' & ? & ? & ?)]; [by exists grp' | by left |].
        right. exists grp''. split; [by apply list_elem_of_further | done].
Qed.

Lemma collect_example_fold rows :
  NoDup (foldl (λ groups b, collect_example b groups) [] rows).*1
  ∧ ∀ grp e, grp ∈ foldl (λ groups b, collect_example b groups) [] rows →
             e ∈ grp.2 → (grp.1, e) ∈ rows.
Proof.
  induction rows as [|b bs IH] using rev_ind; simpl.
  - split; [constructor | intros ? ? Hin; by inversion Hin].
  - rewrite foldl_snoc. destruct IH as [Hnd Hel]. split.
    + rewrite collect_example_keys. case_bool_decide as Hin; [done|].
      apply NoDup_app. split; [done|]. split; [|apply NoDup_singleton].
      intros k Hk ->%list_elem_of_singleton. done.
    + intros grp e Hgrp He.
      assert (∃ grp0, grp0 ∈ collect_example b
                (foldl (λ groups b, collect_example b groups) [] bs)
              ∧ grp0.1 = grp.1 ∧ e ∈ grp0.2) as Hex by (by exists grp).
      apply collect_example_elem in Hex as [<- | (grp' & ? & Hk & ?)].
      * apply elem_of_app. right. apply list_elem_of_here.
      * apply elem_of_app. left. rewrite <- Hk. by apply Hel.
Qed.

Lemma py_slice_to_length {A} (l : list A) (n : Z) :
  (0 ≤ n)%Z → (Z.of_nat (length (py_slice_to l n)) ≤ n)%Z.
Proof. intros Hn. rewrite py_slice_to_nonneg by done. rewrite length_take. lia. Qed.

Lemma py_slice_to_elem {A} (l : list A) (n : Z) x : x ∈ py_slice_to l n → x ∈ l.
Proof.
  destruct (py_slice_to_take l n) as [k ->]. intros Hx.
  apply elem_of_take in Hx as (i & Hi & _). by eapply list_elem_of_lookup_2.
Qed.

Lemma group_rows_concept max grp r : r ∈ group_rows max grp → x_concept r = grp.1.
Proof.
  unfold group_rows. intros (e & ->%list_elem_of_singleton & _)%list_elem_of_bind.
  done.
Qed.

Lemma group_rows_length max grp :
  (0 ≤ max)%Z → (Z.of_nat (length (group_rows max grp)) ≤ max)%Z.
Proof.
  intros Hmax. pose proof (py_slice_to_length grp.2 max Hmax) as Hlen.
  unfold group_rows.
  assert (∀ es : list ExampleNode,
    length (es ≫= λ e, [mkExampleRecord (e_text e) (e_example_type e) grp.1
                           (e_source_url e)]) = length es) as ->; [|done].
  induction es as [|e es IH]; [done|]. csimpl. by rewrite IH.
Qed.

Lemma filter_none {A} (P : A → Prop) `{!∀ x, Decision (P x)} (l : list A) :
  (∀ x, x ∈ l → ¬ P x) → filter P l = [].
Proof.
  intros Hnone. apply elem_of_nil_inv. intros x [HP Hx]%list_elem_of_filter.
  by apply (Hnone x).
Qed.

Lemma groups_rows_per_concept max t groups :
  (0 ≤ max)%Z → NoDup groups.*1 →
  (Z.of_nat (length (filter (λ r, x_concept r = t) (groups ≫= group_rows max)))
   ≤ max)%Z.
Proof.
  intros Hmax. induction groups as [|grp rest IH]; intros Hnd; csimpl; [done|].
  apply NoDup_cons in Hnd as [Hnot Hnd]. rewrite filter_app, length_app.
  destruct (decide (grp.1 = t)) as [Hk | Hk].
  - assert (filter (λ r, x_concept r = t) (rest ≫= group_rows max) = []) as ->.
    { apply filter_none. intros r Hr Ht.
      apply list_elem_of_bind in Hr as (grp' & Hr & Hgrp).
      apply group_rows_concept in Hr. apply Hnot. rewrite Hk, <- Ht, Hr.
      apply list_elem_of_fmap. by exists grp'. }
    pose proof (group_rows_length max grp Hmax).
    pose proof (length_filter (λ r, x_concept r = t) (group_rows max grp)).
    simpl. lia.
  - assert (filter (λ r, x_concept r = t) (group_rows max grp) = []) as ->.
    { apply filter_none. intros r Hr Ht.
      apply group_rows_concept in Hr. congruence. }
    simpl. by apply IH.
Qed.

Lemma examples_query_rows g titles max :
  examples_query g titles max
  = foldl (λ groups b, collect_example b groups) []
      (stable_sort (λ a b, example_type_le (e_example_type a.2)
                                           (e_example_type b.2))
                   (example_bindings g titles))
    ≫= group_rows max.
Proof. done. Qed.

Lemma filter_fmap_length {A B} (f : A → B) (P : B → Prop)
    `{!∀ y, Decision (P y)} (l : list A) :
  length (filter P (f <$> l)) = length (filter (λ x, P (f x)) l).
Proof.
  induction l as [|x l IH]; [done|]. csimpl.
  rewrite !filter_cons. destruct (decide (P (f x))); simpl; by rewrite IH.
Qed.

(** X3: every example of the result belongs to an [Example] node that
    exemplifies a concept with one of the given titles and carries that
    title; with a limit that is not negative, no title has more than
    [max_per_concept] examples, whatever the number of nodes that share the
    title. *)
Theorem get_examples_per_concept g concept_titles max_per_concept :
  (∀ e, e ∈ _get_examples g concept_titles max_per_concept →
     concept e ∈ concept_titles
     ∧ ∃ en, exemplifies_title g en (concept e)
             ∧ text e = e_text en
             ∧ example_type e = or_default (e_example_type en) "unknown"
             ∧ source_url e = or_default (e_source_url en) "")
  ∧ ((0 ≤ max_per_concept)%Z →
     ∀ t, (Z.of_nat (length (filter (λ e, concept e = t)
                        (_get_examples g concept_titles max_per_concept)))
           ≤ max_per_concept)%Z).
Proof.
  unfold _get_examples. rewrite examples_query_rows.
  set (rows := stable_sort _ (example_bindings g concept_titles)).
  assert (rows ≡ₚ example_bindings g concept_titles) as Hperm
    by apply stable_sort_perm.
  destruct (collect_example_fold rows) as [Hnd Hel]. split.
  - intros e (r & -> & Hr)%list_elem_of_fmap.
    apply list_elem_of_bind in Hr as (grp & Hr & Hgrp).
    unfold group_rows in Hr.
    apply list_elem_of_bind in Hr as (en & ->%list_elem_of_singleton & Hen).
    apply py_slice_to_elem in Hen. apply (Hel grp en Hgrp) in Hen.
    rewrite Hperm in Hen. apply elem_of_example_bindings in Hen as [Ht Hex].
    simpl. split; [done|]. by exists en.
  - intros Hmax t. rewrite filter_fmap_length. simpl.
    by apply groups_rows_per_concept.
Qed.

Lemma get_examples_per_concept_witness :
  (0 ≤ 1)%Z
  ∧ (Z.of_nat (length (filter (λ e, concept e = "S")
                 (_get_examples tutoring_store ["S"; "T"] 1))) ≤ 1)%Z.
Proof.
  split; [lia|].
  apply (get_examples_per_concept tutoring_store ["S"; "T"] 1). lia.
Defined.

Example get_examples_limit :
  _get_examples tutoring_store ["S"; "T"] 2
  = [mkRetrievedExample (Some "x = 1") "code" "S" "http://e";
     mkRetrievedExample None "unknown" "S" ""]
  ∧ _get_examples tutoring_store ["S"; "T"] 1
    = [mkRetrievedExample (Some "x = 1") "code" "S" "http://e"]
  ∧ _get_examples tutoring_store ["S"; "T"] 0 = [].
Proof. vm_compute. done. Qed.

(** ** Seeds that the store does not know *)

Lemma bind_nil_all {A B} (f : A → list B) (l : list A) :
  (∀ x, x ∈ l → f x = []) → l ≫= f = [].
Proof.
  induction l as [|x l IH]; intros Hf; [done|]. csimpl.
  rewrite (Hf x) by apply list_elem_of_here. simpl. apply IH.
  intros y Hy. apply Hf. by apply list_elem_of_further.
Qed.

Lemma match_concepts_none g t :
  (∀ n, n ∈ concept_nodes g → c_title n ≠ t) → match_concepts g t = [].
Proof.
  intros Hnone. unfold match_concepts. apply filter_none.
  intros [i n] Hin%elem_of_indexed. simpl in *.
  apply Hnone. by eapply list_elem_of_lookup_2.
Qed.

Lemma py_slice_to_nil {A} (stop : Z) : py_slice_to (@nil A) stop = [].
Proof. unfold py_slice_to. case_bool_decide; apply take_nil. Qed.

(** X4: when no [Concept] node has one of the seed titles, the subgraph
    has no concepts, resources or examples, the seeds are handed back as
    given and every seed gets the chain that holds only its title. *)
Theorem expand_seeds_unknown_seeds g seed_titles prereq_depth related_depth
    max_concepts max_examples_per_concept :
  (∀ t n, t ∈ seed_titles → n ∈ concept_nodes g → c_title n ≠ t) →
  expand_seeds g seed_titles prereq_depth related_depth max_concepts
    max_examples_per_concept
  = mkSubgraph seed_titles [] [] [] ((λ seed, [seed]) <$> seed_titles).
Proof.
  intros Hunknown.
  assert (∀ t, t ∈ seed_titles → match_concepts g t = []) as Hnone.
  { intros t Ht. apply match_concepts_none. intros n. by apply Hunknown. }
  assert (gathered_concepts g seed_titles prereq_depth related_depth = [])
    as Hgathered.
  { unfold gathered_concepts, _get_seed_concepts, _get_prerequisites,
      _get_related_concepts, seed_query, prerequisites_query, related_query,
      prereq_bindings, related_bindings.
    rewrite !bind_nil_all; [done | | |];
      intros t Ht; by rewrite (Hnone t Ht). }
  unfold expand_seeds. rewrite Hgathered.
  assert (_deduplicate_concepts [] max_concepts = []) as ->
    by apply py_slice_to_nil.
  f_equal. unfold _get_prereq_chains.
  clear Hgathered. induction seed_titles as [|seed seeds IH]; [done|].
  csimpl. f_equal.
  - unfold chain_query, chain_candidates.
    rewrite (Hnone seed) by apply list_elem_of_here. done.
  - apply IH.
    + intros t n Ht. apply Hunknown. by apply list_elem_of_further.
    + intros t Ht. apply Hnone. by apply list_elem_of_further.
Qed.

Lemma expand_seeds_unknown_seeds_witness :
  expand_seeds calculus_store ["Tensor"; "Kernel"] 2 1 15 2
  = mkSubgraph ["Tensor"; "Kernel"] [] [] [] [["Tensor"]; ["Kernel"]].
Proof.
  apply (expand_seeds_unknown_seeds calculus_store ["Tensor"; "Kernel"]).
  intros t n Ht Hn.
  repeat (apply elem_of_cons in Hn as [-> | Hn]);
    [| | | by inversion Hn];
    repeat (apply elem_of_cons in Ht as [-> | Ht]);
    try discriminate; by inversion Ht.
Defined.

(** ** Where the entries of the three stages come from *)

Lemma elem_of_seed_query g titles n :
  n ∈ seed_query g titles ↔ c_title n ∈ titles ∧ n ∈ concept_nodes g.
Proof.
  unfold seed_query. rewrite list_elem_of_bind. split.
  - intros (t & Hin & Ht).
    apply list_elem_of_bind in Hin as ([i n'] & ->%list_elem_of_singleton & Hc).
    apply elem_of_match_concepts in Hc as [Hc Htitle]. simpl in *.
    split; [by rewrite Htitle | by eapply list_elem_of_lookup_2].
  - intros [Ht [i Hi]%list_elem_of_lookup_1]. exists (c_title n). split; [|done].
    apply list_elem_of_bind. exists (i, n). split; [apply list_elem_of_here|].
    by apply elem_of_match_concepts.
Qed.

Lemma get_seed_concepts_title g titles c :
  c ∈ _get_seed_concepts g titles →
  title c ∈ titles ∧ seed_concept c = title c
  ∧ ∃ n, n ∈ concept_nodes g ∧ c = seed_of_record n.
Proof.
  intros (n & -> & [Ht Hn]%elem_of_seed_query)%list_elem_of_fmap. simpl.
  split; [done|]. split; [done|]. by exists n.
Qed.

Lemma elem_of_prereq_bindings g titles d r :
  r ∈ prereq_bindings g titles d ↔
    ∃ v p n,
      p_seed_concept r ∈ titles
      ∧ node_title g v = Some (p_seed_concept r)
      ∧ prereq_trail g d v p
      ∧ concept_nodes g !! path_start v p = Some n
      ∧ r = mkPrereqRecord (c_title n) (c_definition n) (c_difficulty n)
              (Z.of_nat (length p)) (p_seed_concept r).
Proof.
  unfold prereq_bindings. rewrite list_elem_of_bind. split.
  - intros (seedTitle & Hin & Ht).
    apply list_elem_of_bind in Hin as ([v vn] & Hin & Hc).
    apply elem_of_match_concepts in Hc as [Hc Htitle]. simpl in *.
    apply list_elem_of_bind in Hin as (p & Hin & Hp).
    apply prereq_paths_trail in Hp.
    destruct (concept_nodes g !! path_start v p) as [n|] eqn:Hn;
      [|by inversion Hin].
    apply list_elem_of_singleton in Hin as ->. simpl.
    exists v, p, n. split; [done|].
    split; [unfold node_title; rewrite Hc; simpl; by rewrite Htitle|].
    done.
  - intros (v & p & n & Ht & Hv & Hp & Hn & Hr).
    exists (p_seed_concept r). split; [|done].
    unfold node_title in Hv.
    destruct (concept_nodes g !! v) as [vn|] eqn:Hvn; [|done].
    injection Hv as Hv.
    apply list_elem_of_bind. exists (v, vn). split.
    + apply list_elem_of_bind. exists p. split.
      * simpl. rewrite Hn, Hr. simpl. apply list_elem_of_here.
      * by apply prereq_paths_trail.
    + by apply elem_of_match_concepts.
Qed.

(** Every gathered entry carries the title of a node of the store. *)
Lemma gathered_concepts_title g seed_titles prereq_depth related_depth c :
  c ∈ gathered_concepts g seed_titles prereq_depth related_depth →
  ∃ n, n ∈ concept_nodes g ∧ c_title n = title c.
Proof.
  unfold gathered_concepts. rewrite !elem_of_app. intros [Hc | [Hc | Hc]].
  - apply get_seed_concepts_title in Hc as (_ & _ & n & Hn & ->). by exists n.
  - apply list_elem_of_fmap in Hc as (r & -> & Hr).
    apply prerequisites_query_elem, elem_of_prereq_bindings in Hr
      as (v & p & n & _ & _ & _ & Hn & ->).
    exists n. split; [by eapply list_elem_of_lookup_2 | done].
  - apply list_elem_of_fmap in Hc as (r & -> & Hr).
    apply related_query_elem in Hr
      as (seed & related & p & r0 & _ & _ & Hrel & _).
    unfold node_title in Hrel.
    destruct (concept_nodes g !! related) as [n|] eqn:Hn; [|done].
    injection Hrel as Hrel. exists n.
    split; [by eapply list_elem_of_lookup_2 | done].
Qed.

Lemma NoDup_fmap_eq {A B} (f : A → B) (l : list A) x y :
  NoDup (f <$> l) → x ∈ l → y ∈ l → f x = f y → x = y.
Proof.
  induction l as [|z l IH]; intros Hnd Hx Hy Hf; [by inversion Hx|].
  rewrite fmap_cons in Hnd. apply NoDup_cons in Hnd as [Hz Hnd].
  apply elem_of_cons in Hx as [-> | Hx]; apply elem_of_cons in Hy as [-> | Hy].
  - done.
  - exfalso. apply Hz. rewrite Hf. apply list_elem_of_fmap. by exists y.
  - exfalso. apply Hz. rewrite <- Hf. apply list_elem_of_fmap. by exists x.
  - by apply IH.
Qed.

Lemma deduplicate_sorted_elem cs max_concepts c :
  c ∈ _deduplicate_concepts cs max_concepts → c ∈ sorted_concepts cs.
Proof. apply py_slice_to_elem. Qed.

(** An entry of depth 0 or less is an entry of the seed stage. *)
Lemma gathered_depth_zero g seed_titles prereq_depth related_depth c :
  c ∈ gathered_concepts g seed_titles prereq_depth related_depth →
  (depth c ≤ 0)%Z → c ∈ _get_seed_concepts g seed_titles.
Proof.
  unfold gathered_concepts. rewrite !elem_of_app. intros [Hc | [Hc | Hc]] Hd.
  - done.
  - apply get_prerequisites_entry in Hc as [_ ?]. lia.
  - apply get_related_concepts_entry in Hc as [? _]. lia.
Qed.

(** X5: a concept of the subgraph whose title is one of the seed titles is
    the seed entry of that title: depth 0, relation ["seed"], its own
    seed.  A seed that is also a prerequisite or a peer of another seed is
    never reported as such. *)
Theorem expand_seeds_seed_entry g seed_titles prereq_depth related_depth
    max_concepts max_examples_per_concept c :
  c ∈ concepts (expand_seeds g seed_titles prereq_depth related_depth
                  max_concepts max_examples_per_concept) →
  title c ∈ seed_titles →
  depth c = 0%Z ∧ relation_to_seed c = "seed" ∧ seed_concept c = title c.
Proof.
  simpl. intros Hc Ht.
  set (input := gathered_concepts g seed_titles prereq_depth related_depth) in *.
  apply deduplicate_sorted_elem in Hc.
  destruct (sorted_concepts_dedup input) as (Hnd & Hsub & Hlow).
  destruct (gathered_concepts_title _ _ _ _ _ (Hsub c Hc)) as (n & Hn & Hnt).
  assert (seed_of_record n ∈ input) as Hseed.
  { unfold input, gathered_concepts. apply elem_of_app. left.
    apply list_elem_of_fmap. exists n. split; [done|].
    apply elem_of_seed_query. by rewrite Hnt. }
  destruct (Hlow _ Hseed) as (k & Hk & Hkt & Hkd). simpl in Hkt, Hkd.
  assert (k = c) as ->.
  { apply (NoDup_fmap_eq title (sorted_concepts input)); [done..|].
    by rewrite Hkt. }
  pose proof (gathered_depth_zero _ _ _ _ _ (Hsub c Hc) Hkd) as Hin.
  destruct (get_seed_concepts_entry _ _ _ Hin) as [Hrel Hd].
  apply get_seed_concepts_title in Hin as (_ & Hs & _). done.
Qed.

Lemma expand_seeds_seed_entry_witness :
  concept_of "Derivatives" 0 "seed"
    ∈ concepts (expand_seeds calculus_store
                  ["Gradient Descent"; "Derivatives"] 2 1 15 2)
  ∧ depth (concept_of "Derivatives" 0 "seed") = 0%Z.
Proof.
  assert (concept_of "Derivatives" 0 "seed"
            ∈ concepts (expand_seeds calculus_store
                          ["Gradient Descent"; "Derivatives"] 2 1 15 2))
    as Hin.
  { vm_compute. apply list_elem_of_further, list_elem_of_here. }
  split; [done|].
  apply (expand_seeds_seed_entry calculus_store
           ["Gradient Descent"; "Derivatives"] 2 1 15 2 _ Hin).
  vm_compute. apply list_elem_of_further, list_elem_of_here.
Defined.

(** ** The depth of a prerequisite *)

Lemma same_group_key a b : same_group a b ↔ prereq_key a = prereq_key b.
Proof.
  unfold same_group, prereq_key. split.
  - intros (-> & -> & -> & ->). done.
  - intros [= -> -> -> ->]. done.
Qed.

Lemma min_into_spec row groups :
  ((prereq_key row ∉ prereq_key <$> groups)
   ∧ min_into row groups = groups ++ [row])
  ∨ ∃ g1 grp g2,
      groups = g1 ++ grp :: g2
      ∧ prereq_key grp = prereq_key row
      ∧ min_into row groups
        = g1 ++ (if bool_decide (p_depth row < p_depth grp)%Z then row else grp)
             :: g2.
Proof.
  induction groups as [|grp rest IH]; cbn [min_into].
  - left. split; [apply not_elem_of_nil | done].
  - destruct (decide (same_group grp row)) as [Hkey | Hkey].
    + rewrite (bool_decide_eq_true_2 (same_group grp row)) by done.
      right. exists [], grp, rest. split; [done|].
      split; [by apply same_group_key | done].
    + rewrite (bool_decide_eq_false_2 (same_group grp row)) by done.
      destruct IH as [[Hnot Heq] | (g1 & grp' & g2 & Heq & Hk & Hc)].
      * left. split; [|by rewrite Heq].
        rewrite fmap_cons. apply not_elem_of_cons. split; [|done].
        intros Hk. apply Hkey. by apply same_group_key.
      * right. exists (grp :: g1), grp', g2.
        split; [by rewrite Heq|]. split; [done | by rewrite Hc].
Qed.

Lemma min_into_groups row rows groups :
  min_groups rows groups → min_groups (rows ++ [row]) (min_into row groups).
Proof.
  intros [Hk Hsub Hmin].
  destruct (min_into_spec row groups)
    as [[Hnot ->] | (g1 & grp & g2 & -> & Hkey & ->)].
  - split.
    + rewrite fmap_app. apply NoDup_app. split; [done|].
      split; [|apply NoDup_singleton].
      intros k Hin ->%list_elem_of_singleton. done.
    + intros r [Hr | ->%list_elem_of_singleton]%elem_of_app;
        apply elem_of_app; [left; by apply Hsub | right; apply list_elem_of_here].
    + intros row' [Hr | ->%list_elem_of_singleton]%elem_of_app.
      * destruct (Hmin row' Hr) as (r & ? & ? & ?). exists r.
        split; [apply elem_of_app; by left | done].
      * exists row. split; [|done]. apply elem_of_app. right.
        apply list_elem_of_here.
  - set (winner := if bool_decide (p_depth row < p_depth grp)%Z then row else grp).
    assert (prereq_key winner = prereq_key grp) as Hsame.
    { unfold winner. by case_bool_decide. }
    assert ((p_depth winner ≤ p_depth grp)%Z ∧ (p_depth winner ≤ p_depth row)%Z)
      as [Hwg Hwr].
    { unfold winner. case_bool_decide; lia. }
    assert (winner ∈ g1 ++ winner :: g2) as Hwin.
    { apply elem_of_app. right. apply list_elem_of_here. }
    split.
    + by rewrite fmap_app, fmap_cons, Hsame, <- fmap_cons, <- fmap_app.
    + intros r [Hr | [-> | Hr]%elem_of_cons]%elem_of_app.
      * apply elem_of_app. left. apply Hsub, elem_of_app. by left.
      * unfold winner. case_bool_decide.
        -- apply elem_of_app. right. apply list_elem_of_here.
        -- apply elem_of_app. left. apply Hsub, elem_of_app. right.
           apply list_elem_of_here.
      * apply elem_of_app. left. apply Hsub, elem_of_app. right.
        by apply list_elem_of_further.
    + intros row' [Hr | ->%list_elem_of_singleton]%elem_of_app.
      * destruct (Hmin row' Hr) as (r & Hin & Hrk & Hrd).
        apply elem_of_app in Hin as [Hin | [-> | Hin]%elem_of_cons].
        -- exists r. split; [apply elem_of_app; by left | done].
        -- exists winner. split; [done|]. split; [congruence | lia].
        -- exists r. split; [|done]. apply elem_of_app. right.
           by apply list_elem_of_further.
      * exists winner. split; [done|]. split; [congruence | done].
Qed.

Lemma aggregate_min_groups rows : min_groups rows (aggregate_min rows).
Proof.
  unfold aggregate_min. induction rows as [|row rows IH] using rev_ind.
  - simpl. split; [constructor | intros ? Hin; by inversion Hin
                               | intros ? Hin; by inversion Hin].
  - rewrite foldl_snoc. by apply min_into_groups.
Qed.

Lemma aggregate_min_least rows r row :
  r ∈ aggregate_min rows → row ∈ rows → prereq_key r = prereq_key row →
  (p_depth r ≤ p_depth row)%Z.
Proof.
  intros Hr Hrow Hkey. destruct (aggregate_min_groups rows) as [Hk _ Hmin].
  destruct (Hmin row Hrow) as (r' & Hr' & Hk' & Hd).
  assert (r' = r) as ->; [|done].
  apply (NoDup_fmap_eq prereq_key (aggregate_min rows)); [done..|congruence].
Qed.

(** X6: an entry of the prerequisite stage stands for a node that reaches
    a seed along a [PREREQ_OF] path of at most [depth] hops; its depth is
    the length of such a path, and no path from that node to a node with
    the title of that seed is shorter. *)
Theorem get_prerequisites_shortest g seed_titles d c :
  c ∈ _get_prerequisites g seed_titles d →
  ∃ v p n,
    seed_concept c ∈ seed_titles
    ∧ node_title g v = Some (seed_concept c)
    ∧ prereq_trail g d v p
    ∧ concept_nodes g !! path_start v p = Some n
    ∧ title c = c_title n
    ∧ definition c = or_default (c_definition n) ""
    ∧ difficulty c = or_default (c_difficulty n) "unknown"
    ∧ depth c = Z.of_nat (length p)
    ∧ ∀ v' p',
        node_title g v' = Some (seed_concept c) → prereq_trail g d v' p' →
        concept_nodes g !! path_start v' p' = Some n →
        length p ≤ length p'.
Proof.
  intros (r & -> & Hr)%list_elem_of_fmap. unfold prerequisites_query in Hr.
  rewrite sorted_perm in Hr.
  pose proof (aggregate_min_elem _ _ Hr) as Hrow.
  apply elem_of_prereq_bindings in Hrow as (v & p & n & Ht & Hv & Hp & Hn & Heq).
  exists v, p, n. simpl. rewrite Heq. simpl.
  split; [done|]. split; [done|]. split; [done|]. split; [done|].
  split; [done|]. split; [done|]. split; [done|]. split; [done|].
  intros v' p' Hv' Hp' Hn'.
  assert (mkPrereqRecord (c_title n) (c_definition n) (c_difficulty n)
            (Z.of_nat (length p')) (p_seed_concept r)
          ∈ prereq_bindings g seed_titles d) as Hrow'.
  { apply elem_of_prereq_bindings. by exists v', p', n. }
  pose proof (aggregate_min_least _ _ _ Hr Hrow') as Hle.
  rewrite Heq in Hle. simpl in Hle. specialize (Hle eq_refl). lia.
Qed.

Lemma get_prerequisites_shortest_witness :
  ∃ v p n,
    node_title diamond_store v = Some "C"
    ∧ prereq_trail diamond_store 2 v p
    ∧ concept_nodes diamond_store !! path_start v p = Some n
    ∧ c_title n = "B" ∧ length p = 1.
Proof.
  assert (mkRetrievedConcept "B" "" "unknown" 1 "prerequisite" "C"
          ∈ _get_prerequisites diamond_store ["C"] 2) as Hin.
  { vm_compute. apply list_elem_of_further, list_elem_of_here. }
  destruct (get_prerequisites_shortest diamond_store ["C"] 2 _ Hin)
    as (v & p & n & _ & Hv & Hp & Hn & Ht & _ & _ & Hd & _).
  exists v, p, n. simpl in *. split; [done|]. split; [done|].
  split; [done|]. split; [done | lia].
Defined.

(** ** Seeds survive the truncation *)

Lemma sorted_concepts_ascending cs :
  StronglySorted (λ x y, depth x ≤ depth y)%Z (sorted_concepts cs).
Proof. apply sorted_ascending. Qed.

(** X7: when [max_concepts] is at least the number of seed titles, every
    seed title that names a [Concept] node is among the concepts of the
    subgraph, as a seed entry: the truncation drops no seed. *)
Theorem expand_seeds_keeps_seeds g seed_titles prereq_depth related_depth
    max_concepts max_examples_per_concept t n :
  (Z.of_nat (length seed_titles) ≤ max_concepts)%Z →
  t ∈ seed_titles → n ∈ concept_nodes g → c_title n = t →
  ∃ c, c ∈ concepts (expand_seeds g seed_titles prereq_depth related_depth
                       max_concepts max_examples_per_concept)
       ∧ title c = t ∧ depth c = 0%Z ∧ relation_to_seed c = "seed".
Proof.
  simpl. intros Hmax Ht Hn Hnt.
  set (input := gathered_concepts g seed_titles prereq_depth related_depth).
  destruct (sorted_concepts_dedup input) as (Hnd & Hsub & Hlow).
  assert (seed_of_record n ∈ input) as Hseed.
  { unfold input, gathered_concepts. apply elem_of_app. left.
    apply list_elem_of_fmap. exists n. split; [done|].
    apply elem_of_seed_query. by rewrite Hnt. }
  destruct (Hlow _ Hseed) as (k & Hk & Hkt & Hkd). simpl in Hkt, Hkd.
  pose proof (gathered_depth_zero _ _ _ _ _ (Hsub k Hk) Hkd) as Hkseed.
  destruct (get_seed_concepts_entry _ _ _ Hkseed) as [Hrel Hd].
  exists k. split; [|by rewrite Hkt, Hnt].
  unfold _deduplicate_concepts. rewrite py_slice_to_nonneg by lia.
  set (m := Z.to_nat max_concepts).
  pose proof (sorted_concepts_ascending input) as Hsorted.
  rewrite <- (take_drop m (sorted_concepts input)) in Hk, Hsorted, Hnd.
  apply elem_of_app in Hk as [Hk | Hk]; [done|]. exfalso.
  assert (∀ x, x ∈ take m (sorted_concepts input) → title x ∈ seed_titles)
    as Hfront.
  { intros x Hx.
    pose proof (StronglySorted_app_1_elem_of _ _ _ x k Hsorted Hx Hk) as Hle.
    simpl in Hle.
    assert (x ∈ input) as Hxin.
    { apply Hsub. rewrite <- (take_drop m). apply elem_of_app. by left. }
    assert (x ∈ _get_seed_concepts g seed_titles) as Hxs
      by (apply (gathered_depth_zero _ _ _ _ _ Hxin); lia).
    by apply get_seed_concepts_title in Hxs as [? _]. }
  assert (NoDup (title <$> (take m (sorted_concepts input) ++ [k]))) as Hnd'.
  { rewrite fmap_app in Hnd |- *. apply NoDup_app in Hnd as (H1 & Hdis & H2).
    apply NoDup_app. split; [done|]. split; [|apply NoDup_singleton].
    intros y Hy ->%list_elem_of_singleton. apply (Hdis _ Hy).
    apply list_elem_of_fmap. by exists k. }
  assert (length (title <$> (take m (sorted_concepts input) ++ [k]))
          ≤ length seed_titles) as Hlen.
  { apply submseteq_length, NoDup_submseteq; [done|].
    intros y (x & -> & [Hx | ->%list_elem_of_singleton]%elem_of_app)%list_elem_of_fmap.
    - by apply Hfront.
    - apply get_seed_concepts_title in Hkseed as [? _]. done. }
  rewrite length_fmap, length_app, length_take in Hlen. simpl in Hlen.
  assert (m < length (sorted_concepts input)).
  { destruct (decide (m < length (sorted_concepts input))); [done|].
    rewrite drop_ge in Hk by lia. by inversion Hk. }
  lia.
Qed.

Lemma expand_seeds_keeps_seeds_witness :
  ∃ c, c ∈ concepts (expand_seeds calculus_store
                       ["Gradient Descent"; "Derivatives"] 2 1 2 2)
       ∧ title c = "Derivatives" ∧ depth c = 0%Z
       ∧ relation_to_seed c = "seed".
Proof.
  apply (expand_seeds_keeps_seeds calculus_store
           ["Gradient Descent"; "Derivatives"] 2 1 2 2 "Derivatives"
           (bare_node "Derivatives")).
  - simpl. lia.
  - apply list_elem_of_further, list_elem_of_here.
  - vm_compute. apply list_elem_of_further, list_elem_of_here.
  - reflexivity.
Defined.

(** ** The head of the explanation order *)

Lemma kahn_loop_prefix fuel graph : ∀ st,
  ∃ extra,
    ks_result (kahn_loop fuel graph st) ++ ks_queue (kahn_loop fuel graph st)
    = ks_result st ++ ks_queue st ++ extra.
Proof.
  induction fuel as [|fuel IH]; intros st; simpl.
  - exists []. by rewrite app_nil_r.
  - destruct (ks_queue st) as [|node rest] eqn:Hq.
    + exists []. by rewrite Hq.
    + destruct (IH (kahn_step graph node rest st)) as (extra & ->).
      unfold kahn_step. simpl.
      destruct (visit_fold (graph_at graph node) (ks_in_degree st) rest)
        as [_ (extra0 & -> & _)].
      exists (extra0 ++ extra). by rewrite <- !app_assoc.
Qed.

Lemma append_remaining_prefix titles : ∀ res,
  ∃ rest, append_remaining res titles = res ++ rest.
Proof.
  unfold append_remaining.
  induction titles as [|t titles IH]; intros res; simpl.
  - exists []. by rewrite app_nil_r.
  - case_bool_decide; [apply IH|].
    destruct (IH (res ++ [t])) as (rest & ->).
    exists (t :: rest). by rewrite <- app_assoc.
Qed.

Lemma append_remaining_all titles : ∀ res,
  (∀ t, t ∈ titles → t ∈ res) → append_remaining res titles = res.
Proof.
  unfold append_remaining.
  induction titles as [|t titles IH]; intros res Hall; simpl; [done|].
  rewrite bool_decide_eq_true_2 by (apply Hall, list_elem_of_here).
  apply IH. intros t' Ht'. apply Hall. by apply list_elem_of_further.
Qed.

Lemma in_degree_zero titles edges t :
  in_degree_at (build_graph titles edges).2 t = 0%Z ↔ t ∉ edges.*2.
Proof.
  destruct (build_graph_spec titles edges) as [_ ->].
  pose proof (occurrences_nonneg t (edges.*2)) as Hnn.
  pose proof (occurrences_pos t (edges.*2)) as Hpos.
  split.
  - intros Hz Hin. apply Hpos in Hin. lia.
  - intros Hnot. destruct (decide (occurrences t (edges.*2) = 0%Z)); [done|].
    exfalso. apply Hnot, Hpos. lia.
Qed.

(** X8: the order starts with the titles that have no prerequisite among
    the given concepts, in the order they were given; this holds for every
    input, repeated titles and cycles included. *)
Theorem topological_order_roots_first g concepts :
  (∃ rest,
     get_topological_order g concepts
     = filter (λ t, t ∉ (internal_prereq_edges g (title <$> concepts)).*2)
              (title <$> concepts)
       ++ rest)
  ∧ ∀ t, t ∈ (internal_prereq_edges g (title <$> concepts)).*2
         ↔ ∃ a, internal_edge g (title <$> concepts) a t.
Proof.
  split.
  - unfold get_topological_order.
    set (titles := title <$> concepts).
    set (edges := internal_prereq_edges g titles).
    destruct (append_remaining_prefix titles (ks_result (kahn_run titles edges)))
      as (rest & ->).
    pose proof (topological_queue_drains g concepts) as Hdrain.
    fold titles edges in Hdrain.
    unfold kahn_run in *.
    destruct (kahn_loop_prefix (length titles) (build_graph titles edges).1
      {| ks_queue := filter (λ t, in_degree_at (build_graph titles edges).2 t
                                  = 0%Z) titles;
         ks_result := [];
         ks_in_degree := (build_graph titles edges).2 |}) as (extra & Hpre).
    rewrite Hdrain, app_nil_r in Hpre. simpl in Hpre. rewrite Hpre.
    exists (extra ++ rest). rewrite <- app_assoc. f_equal.
    apply filter_ext_in. intros t _. apply in_degree_zero.
  - intros t. rewrite list_elem_of_fmap. split.
    + intros ([a b] & -> & Hin). exists a.
      by apply elem_of_internal_prereq_edges.
    + intros (a & Hin). exists (a, t). split; [done|].
      by apply elem_of_internal_prereq_edges.
Qed.

Lemma filter_all {A} (P : A → Prop) `{!∀ x, Decision (P x)} (l : list A) :
  (∀ x, x ∈ l → P x) → filter P l = l.
Proof.
  induction l as [|x l IH]; intros Hall; [done|].
  rewrite filter_cons_True by apply Hall, list_elem_of_here.
  f_equal. apply IH. intros y Hy. apply Hall. by apply list_elem_of_further.
Qed.

Lemma kahn_loop_no_edges fuel : ∀ st,
  length (ks_queue st) ≤ fuel →
  ks_result (kahn_loop fuel ∅ st) = ks_result st ++ ks_queue st.
Proof.
  induction fuel as [|fuel IH]; intros st Hlen; simpl.
  - destruct (ks_queue st); [by rewrite app_nil_r | simpl in Hlen; lia].
  - destruct (ks_queue st) as [|node rest] eqn:Hq; [by rewrite app_nil_r|].
    rewrite IH; unfold kahn_step, graph_at; rewrite lookup_empty; simpl.
    + by rewrite <- app_assoc.
    + simpl in Hlen. lia.
Qed.

(** X9: when no [PREREQ_OF] relationship joins two of the given concepts,
    the order is the list of their titles as given, repeated titles
    included. *)
Theorem topological_order_no_edges g concepts :
  (∀ a b, ¬ internal_edge g (title <$> concepts) a b) →
  get_topological_order g concepts = title <$> concepts.
Proof.
  intros Hnone. unfold get_topological_order.
  assert (internal_prereq_edges g (title <$> concepts) = []) as ->.
  { apply elem_of_nil_inv. intros [a b] Hin.
    by apply elem_of_internal_prereq_edges, Hnone in Hin. }
  set (titles := title <$> concepts).
  assert (ks_result (kahn_run titles []) = titles) as ->.
  { unfold kahn_run. simpl. rewrite kahn_loop_no_edges; simpl.
    - apply filter_all. intros t _. apply init_in_degree_at.
    - apply length_filter. }
  by apply append_remaining_all.
Qed.

Lemma topological_order_no_edges_witness :
  get_topological_order calculus_store
    [concept_of "Gradient Descent" 0 "seed"; concept_of "Calculus" 0 "seed";
     concept_of "Calculus" 1 "prerequisite"]
  = ["Gradient Descent"; "Calculus"; "Calculus"].
Proof.
  apply (topological_order_no_edges calculus_store
    [concept_of "Gradient Descent" 0 "seed"; concept_of "Calculus" 0 "seed";
     concept_of "Calculus" 1 "prerequisite"]).
  intros a b Hab. apply elem_of_internal_prereq_edges in Hab.
  vm_compute in Hab. by inversion Hab.
Defined.

(** ** The two entry points of the orchestrator *)

Lemma expand_and_order_permutation self q matches seeds prereq_depth
    related_depth max_concepts max_examples_per_concept :
  let result := expand_and_order self q matches seeds prereq_depth
                  related_depth max_concepts max_examples_per_concept in
  ordered_concepts result ≡ₚ concept_titles (subgraph result)
  ∧ NoDup (ordered_concepts result).
Proof.
  simpl. unfold concept_titles. simpl.
  set (cs := _deduplicate_concepts _ max_concepts).
  assert (NoDup (title <$> cs)) as Hnd by apply deduplicate_nodup.
  pose proof (order_nodup (graph_retriever self) cs Hnd) as Hout.
  split; [|done]. apply NoDup_Permutation; [done..|].
  intros t. by apply order_elem.
Qed.

(** X10: for every call of [retrieve] and of
    [retrieve_with_explicit_concepts], the explanation order lists the
    titles of the concepts of the returned subgraph, each exactly once:
    it is a permutation of [concept_titles()] without repetition. *)
Theorem retrieve_order_permutation self q :
  (∀ top_k_semantic min_semantic_score prereq_depth related_depth
     max_concepts max_examples_per_concept,
     let result := retrieve self q top_k_semantic min_semantic_score
                     prereq_depth related_depth max_concepts
                     max_examples_per_concept in
     ordered_concepts result ≡ₚ concept_titles (subgraph result)
     ∧ NoDup (ordered_concepts result))
  ∧ (∀ explicit_concepts kwargs,
       let result :=
         retrieve_with_explicit_concepts self q explicit_concepts kwargs in
       ordered_concepts result ≡ₚ concept_titles (subgraph result)
       ∧ NoDup (ordered_concepts result)).
Proof.
  split.
  - intros top_k_semantic min_semantic_score prereq_depth related_depth
      max_concepts max_examples_per_concept. unfold retrieve.
    destruct (m_title <$> embedder self q top_k_semantic min_semantic_score)
      as [|t ts].
    + simpl. split; [done | constructor].
    + apply expand_and_order_permutation.
  - intros explicit_concepts kwargs. unfold retrieve_with_explicit_concepts.
    apply expand_and_order_permutation.
Qed.

Lemma union_seeds_distinct matches : ∀ acc,
  NoDup (acc ++ (m_title <$> matches)) →
  union_seeds acc matches = acc ++ (m_title <$> matches).
Proof.
  unfold union_seeds.
  induction matches as [|m ms IH]; intros acc Hnd; simpl.
  - by rewrite app_nil_r.
  - unfold add_match at 2. rewrite fmap_cons in Hnd.
    rewrite bool_decide_eq_false_2.
    + rewrite IH; rewrite <- app_assoc; done.
    + intros Hin. apply NoDup_app in Hnd as (_ & Hdis & _).
      apply (Hdis _ Hin), list_elem_of_here.
Qed.

Lemma expand_and_order_no_seeds self q prereq_depth related_depth max_concepts
    max_examples_per_concept :
  expand_and_order self q [] [] prereq_depth related_depth max_concepts
    max_examples_per_concept
  = mkRetrievalResult q [] [] (mkSubgraph [] [] [] [] []) [].
Proof.
  unfold expand_and_order, expand_seeds.
  assert (gathered_concepts (graph_retriever self) [] prereq_depth
            related_depth = []) as -> by done.
  assert (_deduplicate_concepts [] max_concepts = []) as ->
    by apply py_slice_to_nil.
  done.
Qed.

(** X11: with no explicit concepts and the same settings given as keyword
    arguments, [retrieve_with_explicit_concepts] returns what [retrieve]
    returns, whenever the titles of the semantic matches are pairwise
    distinct; this covers the search without matches, where both return
    the empty result. *)
Theorem explicit_none_agrees self q top_k_semantic min_semantic_score
    prereq_depth related_depth max_concepts max_examples_per_concept :
  NoDup (m_title <$> embedder self q top_k_semantic min_semantic_score) →
  retrieve_with_explicit_concepts self q []
    (mkKwargs (Some top_k_semantic) (Some min_semantic_score)
       (Some prereq_depth) (Some related_depth) (Some max_concepts)
       (Some max_examples_per_concept))
  = retrieve self q top_k_semantic min_semantic_score prereq_depth
      related_depth max_concepts max_examples_per_concept.
Proof.
  intros Hnd. unfold retrieve_with_explicit_concepts, retrieve. simpl.
  rewrite (union_seeds_distinct _ []) by done. simpl.
  destruct (embedder self q top_k_semantic min_semantic_score) as [|m ms].
  - apply expand_and_order_no_seeds.
  - done.
Qed.

Lemma explicit_none_agrees_witness :
  retrieve_with_explicit_concepts tutor_retriever "gradient descent?" []
    (mkKwargs (Some 5%Z) (Some 4000%Z) (Some 2) (Some 1) (Some 15%Z) (Some 2%Z))
  = retrieve tutor_retriever "gradient descent?" 5%Z 4000%Z 2 1 15%Z 2%Z.
Proof.
  apply (explicit_none_agrees tutor_retriever "gradient descent?"
           5%Z 4000%Z 2 1 15%Z 2%Z).
  apply (bool_decide_unpack _). vm_compute. exact I.
Defined.

(** With repeated match titles the two entry points differ: [retrieve]
    hands the repeated title to the expansion twice. *)
Example explicit_none_differs :
  let self := mkHybridRetriever
    (λ _ _ _, [mkSemanticMatch "Calculus" "" "unknown" 9000%Z "";
               mkSemanticMatch "Calculus" "" "unknown" 8000%Z ""])
    calculus_store in
  used_seed_concepts (retrieve self "calculus?" 5%Z 4000%Z 2 1 15%Z 2%Z)
  = ["Calculus"; "Calculus"]
  ∧ used_seed_concepts
      (retrieve_with_explicit_concepts self "calculus?" [] no_kwargs)
    = ["Calculus"].
Proof. vm_compute. done. Qed.

(** ** The call of the chat interface *)

Lemma get_examples_bound g concept_titles max_per_concept t :
  (0 ≤ max_per_concept)%Z →
  (Z.of_nat (length (filter (λ e, concept e = t)
               (_get_examples g concept_titles max_per_concept)))
   ≤ max_per_concept)%Z.
Proof.
  intros Hmax. unfold _get_examples. rewrite examples_query_rows.
  rewrite filter_fmap_length. simpl.
  apply groups_rows_per_concept; [done|]. apply collect_example_fold.
Qed.

Lemma expand_and_order_examples self q matches seeds prereq_depth
    related_depth max_concepts max_examples_per_concept :
  let result := expand_and_order self q matches seeds prereq_depth
                  related_depth max_concepts max_examples_per_concept in
  examples (subgraph result)
  = _get_examples (graph_retriever self) (concept_titles (subgraph result))
      max_examples_per_concept
  ∧ concepts (subgraph result)
    = _deduplicate_concepts
        (gathered_concepts (graph_retriever self) seeds prereq_depth
           related_depth) max_concepts.
Proof. done. Qed.

(** X12: with the settings the chat interface can send (between 10 and 25
    concepts), the subgraph of its call holds at most [max_concepts]
    concepts, hence at most 25, no concept has more than two examples, and
    the explanation order lists every concept of the subgraph once. *)
Theorem app_retrieve_limits self prompt top_k prereq_depth max_concepts :
  (10 ≤ max_concepts ≤ 25)%Z →
  let result := app_retrieve self prompt top_k prereq_depth max_concepts in
  (Z.of_nat (length (concepts (subgraph result))) ≤ max_concepts)%Z
  ∧ (Z.of_nat (length (ordered_concepts result)) ≤ 25)%Z
  ∧ ordered_concepts result ≡ₚ concept_titles (subgraph result)
  ∧ ∀ t, length (filter (λ e, concept e = t) (examples (subgraph result))) ≤ 2.
Proof.
  intros Hmax. cbv zeta. unfold app_retrieve, retrieve.
  destruct (m_title <$> embedder self prompt top_k 4000%Z) as [|s ss].
  - simpl. split; [lia|]. split; [lia|]. split; [done|]. intros t. simpl. lia.
  - set (result := expand_and_order _ _ _ _ _ _ _ _).
    destruct (expand_and_order_permutation self prompt
                (embedder self prompt top_k 4000%Z) (s :: ss) prereq_depth 1
                max_concepts 2%Z) as [Hperm _].
    destruct (expand_and_order_examples self prompt
                (embedder self prompt top_k 4000%Z) (s :: ss) prereq_depth 1
                max_concepts 2%Z) as [Hex Hcs].
    fold result in Hperm, Hex, Hcs.
    assert (Z.of_nat (length (concepts (subgraph result))) ≤ max_concepts)%Z
      as Hlen by (rewrite Hcs; apply deduplicate_length; lia).
    split; [done|]. split; [|split; [done|]].
    + rewrite Hperm. unfold concept_titles. rewrite length_fmap. lia.
    + intros t. rewrite Hex.
      pose proof (get_examples_bound (graph_retriever self)
                    (concept_titles (subgraph result)) 2 t) as Hb.
      lia.
Qed.

Lemma app_retrieve_limits_witness :
  (10 ≤ 15 ≤ 25)%Z
  ∧ (Z.of_nat (length (concepts (subgraph
        (app_retrieve tutor_retriever "gradient descent?" 5 2 15)))) ≤ 15)%Z.
Proof.
  split; [lia|].
  apply (app_retrieve_limits tutor_retriever "gradient descent?" 5 2 15). lia.
Defined.

(** ** Batches *)

Lemma range_step_covers stop step :
  0 < step →
  stop ≤ (stop + step - 1) / step * step
  ∧ (stop + step - 1) / step * step < stop + step.
Proof.
  intros Hstep.
  pose proof (Nat.div_mod_eq (stop + step - 1) step) as Hdiv.
  pose proof (Nat.mod_upper_bound (stop + step - 1) step) as Hmod.
  nia.
Qed.

Lemma batches_prefix {A} (l : list A) n k :
  concat ((λ i, py_slice l i (i + n)) <$> ((λ k, k * n) <$> seq 0 k))
  = take (k * n) l.
Proof.
  induction k as [|k IH]; [done|].
  rewrite seq_S, !fmap_app, concat_app, IH. simpl. rewrite app_nil_r.
  unfold py_slice. replace (k * n + n - k * n) with n by lia.
  rewrite take_take_drop. f_equal. lia.
Qed.

Lemma batches_concat {A} (l : list A) n : 0 < n → concat (batches l n) = l.
Proof.
  intros Hn. unfold batches, range_step. rewrite batches_prefix.
  apply take_ge. by apply range_step_covers.
Qed.

Lemma batches_sizes {A} (l : list A) n b :
  0 < n → b ∈ batches l n → b ≠ [] ∧ length b ≤ n.
Proof.
  intros Hn Hb. unfold batches, range_step in Hb.
  apply list_elem_of_fmap in Hb as (i & -> & Hi).
  apply list_elem_of_fmap in Hi as (k & -> & Hk).
  apply elem_of_seq in Hk as [_ Hk].
  destruct (range_step_covers (length l) n Hn) as [_ Hup].
  assert (k * n < length l) as Hlt by nia.
  unfold py_slice. replace (k * n + n - k * n) with n by lia.
  split; [|rewrite length_take; lia].
  intros Hnil. apply (f_equal length) in Hnil.
  rewrite length_take, length_drop in Hnil. simpl in Hnil. lia.
Qed.

(** ** Import of the examples *)

Section import_examples.
Variable md5_hex16 : string → string.

Lemma example_doc_Some chunk_id source_url example d :
  example_doc md5_hex16 chunk_id source_url example = Some d ↔
    j_text example = Value (doc_text d)
    ∧ j_concept example = Value (doc_concept d)
    ∧ doc_text d ≠ "" ∧ doc_concept d ≠ ""
    ∧ d = mkExampleDoc
            (generate_example_id md5_hex16 (doc_text d) (doc_concept d))
            (doc_text d) (doc_concept d)
            (get_or "unknown" (j_example_type example)) chunk_id source_url.
Proof.
  unfold example_doc.
  destruct (j_text example) as [| |text], (j_concept example) as [| |concept];
    simpl; try (split; [done | by intros (? & ? & _)]).
  - rewrite andb_false_r. split; [done | by intros (? & ? & _)].
  - rewrite andb_false_r. split; [done | by intros (? & ? & _)].
  - destruct (decide (text = "")) as [-> | Ht].
    { simpl. split; [done|]. intros ([= <-] & _ & ? & _). done. }
    destruct (decide (concept = "")) as [-> | Hc].
    { rewrite andb_false_r. split; [done|]. intros (_ & [= <-] & _ & ? & _).
      done. }
    rewrite !bool_decide_eq_true_2 by done. simpl. split.
    + intros [= <-]. simpl. done.
    + intros ([= <-] & [= <-] & _ & _ & ->). done.
Qed.

Lemma all_examples_None extractions :
  all_examples md5_hex16 extractions = None ↔
    ∃ ext, ext ∈ extractions ∧ ext_examples ext = Null.
Proof.
  induction extractions as [|ext rest IH]; simpl.
  - split; [done|]. intros (? & Hin & _). by inversion Hin.
  - unfold extraction_docs. destruct (ext_examples ext) as [| |examples] eqn:He;
      simpl.
    + rewrite fmap_None, IH. split.
      * intros (e & ? & ?). exists e. split; [by apply list_elem_of_further|done].
      * intros (e & [-> | ?]%elem_of_cons & Hnull); [congruence | by exists e].
    + split; [|done]. intros _. exists ext. split; [apply list_elem_of_here|done].
    + rewrite fmap_None, IH. split.
      * intros (e & ? & ?). exists e. split; [by apply list_elem_of_further|done].
      * intros (e & [-> | ?]%elem_of_cons & Hnull); [congruence | by exists e].
Qed.

Lemma all_examples_Some extractions all d :
  all_examples md5_hex16 extractions = Some all →
  (d ∈ all ↔
   ∃ ext example,
     ext ∈ extractions ∧ example ∈ listed_examples ext
     ∧ example_doc md5_hex16 (get_or "" (ext_chunk_id ext))
         (get_or "" (ext_source_url ext)) example = Some d).
Proof.
  revert all. induction extractions as [|ext rest IH]; intros all; simpl.
  - intros [= <-]. split; [by inversion 1|].
    intros (? & ? & Hin & _). by inversion Hin.
  - unfold extraction_docs at 1, listed_examples.
    destruct (ext_examples ext) as [| |examples] eqn:He; [|done|]; simpl;
      destruct (all_examples md5_hex16 rest) as [docs|] eqn:Hrest; try done;
      intros [= <-]; specialize (IH docs eq_refl).
    + simpl. rewrite IH. split.
      * intros (e & ex & ? & ? & ?). exists e, ex.
        split; [by apply list_elem_of_further | done].
      * intros (e & ex & [-> | ?]%elem_of_cons & Hex & ?).
        -- unfold listed_examples in Hex. rewrite He in Hex. by inversion Hex.
        -- by exists e, ex.
    + rewrite elem_of_app, list_elem_of_omap, IH. split.
      * intros [(ex & Hex & Hd) | (e & ex & ? & ? & ?)].
        -- exists ext, ex. split; [apply list_elem_of_here|].
           unfold listed_examples. by rewrite He.
        -- exists e, ex. split; [by apply list_elem_of_further | done].
      * intros (e & ex & [-> | ?]%elem_of_cons & Hex & ?).
        -- left. unfold listed_examples in Hex. rewrite He in Hex.
           by exists ex.
        -- right. by exists e, ex.
Qed.

(** X13: collecting the examples raises exactly when some extraction has
    ["examples": null]; otherwise the collected documents are those of
    the listed examples whose text and concept are non-empty strings, each
    with the identifier computed from its text and concept, and an
    example without text or concept is never collected. *)
Theorem all_examples_collected extractions :
  (all_examples md5_hex16 extractions = None ↔
   ∃ ext, ext ∈ extractions ∧ ext_examples ext = Null)
  ∧ ∀ all, all_examples md5_hex16 extractions = Some all →
      (∀ d, d ∈ all →
         doc_text d ≠ "" ∧ doc_concept d ≠ ""
         ∧ doc_example_id d
           = generate_example_id md5_hex16 (doc_text d) (doc_concept d)
         ∧ ∃ ext example,
             ext ∈ extractions ∧ example ∈ listed_examples ext
             ∧ j_text example = Value (doc_text d)
             ∧ j_concept example = Value (doc_concept d)
             ∧ doc_example_type d = get_or "unknown" (j_example_type example)
             ∧ doc_chunk_id d = get_or "" (ext_chunk_id ext)
             ∧ doc_source_url d = get_or "" (ext_source_url ext))
      ∧ ∀ ext example text concept,
          ext ∈ extractions → example ∈ listed_examples ext →
          j_text example = Value text → j_concept example = Value concept →
          text ≠ "" → concept ≠ "" →
          ∃ d, d ∈ all ∧ doc_text d = text ∧ doc_concept d = concept.
Proof.
  split; [apply all_examples_None|]. intros all Hall. split.
  - intros d Hd. apply (all_examples_Some _ _ _ Hall) in Hd
      as (ext & example & Hext & Hex & Hdoc).
    apply example_doc_Some in Hdoc as (Ht & Hc & Htne & Hcne & Heq).
    split; [done|]. split; [done|]. split; [by rewrite Heq|].
    exists ext, example. rewrite Heq. simpl. done.
  - intros ext example text concept Hext Hex Ht Hc Htne Hcne.
    exists (mkExampleDoc (generate_example_id md5_hex16 text concept) text
              concept (get_or "unknown" (j_example_type example))
              (get_or "" (ext_chunk_id ext)) (get_or "" (ext_source_url ext))).
    split; [|done]. apply (all_examples_Some _ _ _ Hall).
    exists ext, example. split; [done|]. split; [done|].
    by apply example_doc_Some.
Qed.

Lemma unique_step_spec st ex :
  (∀ i, i ∈ st.1 ↔ i ∈ doc_example_id <$> st.2) →
  (∀ i, i ∈ (unique_step st ex).1 ↔ i ∈ doc_example_id <$> (unique_step st ex).2)
  ∧ ((doc_example_id ex ∈ doc_example_id <$> st.2 ∧ (unique_step st ex).2 = st.2)
     ∨ ((doc_example_id ex ∉ doc_example_id <$> st.2)
        ∧ (unique_step st ex).2 = st.2 ++ [ex])).
Proof.
  intros Hset. unfold unique_step. case_bool_decide as Hseen; simpl.
  - split; [done|]. left. split; [by apply Hset | done].
  - split.
    + intros i. rewrite fmap_app, elem_of_app, elem_of_union, elem_of_singleton.
      simpl. rewrite list_elem_of_singleton, Hset. tauto.
    + right. split; [|done]. intros Hin. by apply Hseen, Hset.
Qed.

Lemma unique_fold all : ∀ st,
  (∀ i, i ∈ st.1 ↔ i ∈ doc_example_id <$> st.2) →
  ∀ seen, deduplicated seen st.2 →
  (∀ i, i ∈ (foldl unique_step st all).1
        ↔ i ∈ doc_example_id <$> (foldl unique_step st all).2)
  ∧ deduplicated (seen ++ all) (foldl unique_step st all).2.
Proof.
  induction all as [|ex all IH]; intros st Hset seen Hdd; simpl.
  - by rewrite app_nil_r.
  - destruct (unique_step_spec st ex Hset) as [Hset' Hcases].
    replace (seen ++ ex :: all) with ((seen ++ [ex]) ++ all)
      by (by rewrite <- app_assoc).
    apply IH; [done|]. destruct Hdd as [Hnd Hsub Hfirst Hcover].
    destruct Hcases as [[Hin ->] | [Hnot ->]].
    + split; [done | by apply sublist_inserts_r | |].
      * intros u Hu. destruct (Hfirst u Hu) as (l1 & l2 & -> & Hl1).
        exists l1, (l2 ++ [ex]). split; [by rewrite <- app_assoc | done].
      * intros d [Hd | ->%list_elem_of_singleton]%elem_of_app;
          [by apply Hcover | done].
    + split.
      * rewrite fmap_app. apply NoDup_app. split; [done|].
        split; [|apply NoDup_singleton].
        intros i Hi ->%list_elem_of_singleton. done.
      * by apply sublist_app.
      * intros u [Hu | ->%list_elem_of_singleton]%elem_of_app.
        -- destruct (Hfirst u Hu) as (l1 & l2 & -> & Hl1).
           exists l1, (l2 ++ [ex]). split; [by rewrite <- app_assoc | done].
        -- exists seen, []. split; [done|]. intros Hin. apply Hnot.
           apply list_elem_of_fmap in Hin as (d & Hid & Hd). rewrite Hid.
           by apply Hcover.
      * intros d [Hd | ->%list_elem_of_singleton]%elem_of_app;
          rewrite fmap_app, elem_of_app; [left; by apply Hcover|].
        right. apply list_elem_of_here.
Qed.

Lemma unique_examples_deduplicated all :
  deduplicated all (unique_examples all).
Proof.
  unfold unique_examples.
  destruct (unique_fold all (∅, [])) with (seen := @nil ExampleDoc)
    as [_ Hdd]; [| |done].
  - intros i. simpl. split; [by intros ?%not_elem_of_empty | by inversion 1].
  - split; [constructor | constructor | intros ? Hin; by inversion Hin
                        | intros ? Hin; by inversion Hin].
Qed.

(** X14: the deduplication keeps, for every identifier, the first
    collected example with it and no other: the identifiers of the kept
    examples are pairwise distinct, the kept examples are a sublist of the
    collected ones in their order, and every collected identifier is
    kept. *)
Theorem unique_examples_first all :
  NoDup (doc_example_id <$> unique_examples all)
  ∧ unique_examples all `sublist_of` all
  ∧ (∀ u, u ∈ unique_examples all →
       ∃ l1 l2, all = l1 ++ u :: l2
                ∧ doc_example_id u ∉ doc_example_id <$> l1)
  ∧ (∀ d, d ∈ all →
       doc_example_id d ∈ doc_example_id <$> unique_examples all).
Proof.
  destruct (unique_examples_deduplicated all) as [H1 H2 H3 H4]. done.
Qed.

Lemma update_extractions_completes extractions :
  (update_extractions extractions).2 = true ↔
    ∀ ext, ext ∈ extractions →
           listed_examples ext ≠ [] → ext_chunk_id ext ≠ Missing.
Proof.
  induction extractions as [|ext rest IH]; simpl.
  - split; [|done]. intros _ ext Hin. by inversion Hin.
  - assert ((∀ e, e ∈ ext :: rest →
               listed_examples e ≠ [] → ext_chunk_id e ≠ Missing)
            ↔ (listed_examples ext ≠ [] → ext_chunk_id ext ≠ Missing)
              ∧ ∀ e, e ∈ rest →
                     listed_examples e ≠ [] → ext_chunk_id e ≠ Missing)
      as ->.
    { split.
      - intros Hall. split; [apply Hall, list_elem_of_here|].
        intros e He. by apply Hall, list_elem_of_further.
      - intros [Hext Hrest] e [-> | He]%elem_of_cons; [done | by apply Hrest]. }
    rewrite <- IH. unfold listed_examples.
    destruct (ext_examples ext) as [| |[|example examples]]; simpl;
      try (split; [by intros ? | by intros [_ ?]]).
    destruct (ext_chunk_id ext) as [| |chunk_id]; simpl.
    + split; [done|]. intros [Hext _]. by destruct Hext.
    + split; [by intros ? | by intros [_ ?]].
    + split; [by intros ? | by intros [_ ?]].
Qed.

(** X15: a run of the import completes exactly when no extraction has
    ["examples": null] and every extraction with a non-empty list of
    examples has a ["chunk_id"] key; it raises [TypeError] before anything
    is written in the first case, and in the second [KeyError] after the
    upserts into MongoDB and before any batch is sent to Neo4j. When the
    run completes, every kept example is handed to the Neo4j query in
    exactly one batch, in order; no batch is empty or holds more than 500
    examples; and every example handed over, like every document
    upserted into MongoDB, has a non-empty text and concept. *)
Theorem import_examples_batches extractions :
  let run := import_examples md5_hex16 extractions in
  (outcome run = Completed ↔
     (∀ ext, ext ∈ extractions → ext_examples ext ≠ Null)
     ∧ (∀ ext, ext ∈ extractions →
               listed_examples ext ≠ [] → ext_chunk_id ext ≠ Missing))
  ∧ (outcome run = TypeError ↔
       ∃ ext, ext ∈ extractions ∧ ext_examples ext = Null)
  ∧ (outcome run = TypeError →
       mongo_upserts run = [] ∧ mongo_updates run = []
       ∧ neo4j_batches run = [])
  ∧ (outcome run = KeyError →
       neo4j_batches run = []
       ∧ ∃ all, all_examples md5_hex16 extractions = Some all
                ∧ mongo_upserts run = unique_examples all)
  ∧ (outcome run = Completed →
       concat (neo4j_batches run) = mongo_upserts run
       ∧ (∀ b, b ∈ neo4j_batches run → b ≠ [] ∧ length b ≤ 500)
       ∧ NoDup (doc_example_id <$> mongo_upserts run)
       ∧ ∀ d, d ∈ mongo_upserts run → doc_text d ≠ "" ∧ doc_concept d ≠ "").
Proof.
  simpl. unfold import_examples.
  pose proof (all_examples_None extractions) as Hnone.
  pose proof (update_extractions_completes extractions) as Hupd.
  destruct (all_examples md5_hex16 extractions) as [all|] eqn:Hall.
  - assert (∀ ext, ext ∈ extractions → ext_examples ext ≠ Null) as Hnonull.
    { intros ext Hext Hnull.
      assert (Some all = None) as Habs; [|done].
      apply Hnone. by exists ext. }
    destruct ((update_extractions extractions).2) eqn:Hok; simpl.
    + split; [split; [intros _; split; [done | by apply Hupd] | done]|].
      split; [split; [done|]; intros Hnull; by apply Hnone in Hnull|].
      split; [done|]. split; [done|]. intros _.
      destruct (unique_examples_deduplicated all) as [Hnd Hsub _ _].
      split; [apply batches_concat; lia|].
      split; [intros b; apply batches_sizes; lia|].
      split; [done|]. intros d Hd.
      assert (d ∈ all) as Hin by (by eapply elem_of_sublist).
      apply (all_examples_Some _ _ _ Hall) in Hin
        as (ext & example & _ & _ & Hdoc).
      by apply example_doc_Some in Hdoc as (_ & _ & ? & ? & _).
    + split.
      { split; [done|]. intros [_ Hkeys]. apply Hupd in Hkeys. congruence. }
      split; [split; [done|]; intros Hnull; by apply Hnone in Hnull|].
      split; [done|]. split; [|done]. intros _. split; [done|].
      by exists all.
  - simpl. split.
    { split; [done|]. intros [Hnonull _].
      destruct Hnone as [Hex _]. destruct (Hex eq_refl) as (ext & Hext & Hnull).
      by destruct (Hnonull ext Hext). }
    split; [split; [intros _; by apply Hnone | done]|].
    split; [done|]. split; [done|]. done.
Qed.
End import_examples.

Lemma all_examples_collected_witness :
  all_examples (λ s, s) sample_extractions
  = Some [sample_doc;
          mkExampleDoc "x = 1:S" "x = 1" "S" (Some "math") (Some "c1")
            (Some "http://a")]
  ∧ doc_text sample_doc ≠ "".
Proof.
  assert (all_examples (λ s, s) sample_extractions
          = Some [sample_doc;
                  mkExampleDoc "x = 1:S" "x = 1" "S" (Some "math") (Some "c1")
                    (Some "http://a")]) as Hall
    by (vm_compute; reflexivity).
  split; [done|].
  destruct (all_examples_collected (λ s, s) sample_extractions) as [_ Hsome].
  destruct (Hsome _ Hall) as [Hdocs _].
  apply (Hdocs sample_doc). apply list_elem_of_here.
Defined.

Lemma import_examples_batches_witness :
  outcome (import_examples (λ s, s) sample_extractions) = Completed
  ∧ concat (neo4j_batches (import_examples (λ s, s) sample_extractions))
    = mongo_upserts (import_examples (λ s, s) sample_extractions)
  ∧ outcome (import_examples (λ s, s) unkeyed_extractions) = KeyError
  ∧ neo4j_batches (import_examples (λ s, s) unkeyed_extractions) = [].
Proof.
  assert (outcome (import_examples (λ s, s) sample_extractions) = Completed)
    as Hdone by (vm_compute; reflexivity).
  assert (outcome (import_examples (λ s, s) unkeyed_extractions) = KeyError)
    as Hkey by (vm_compute; reflexivity).
  destruct (import_examples_batches (λ s, s) sample_extractions)
    as (_ & _ & _ & _ & Hcompleted).
  destruct (import_examples_batches (λ s, s) unkeyed_extractions)
    as (_ & _ & _ & Hraised & _).
  split; [done|]. split; [by apply Hcompleted|].
  split; [done|]. by apply Hraised.
Defined.

(** The run on the sample, and a run that stops between the two
    databases. *)
Example import_examples_runs :
  import_examples (λ s, s) sample_extractions
  = mkImportRun [sample_doc]
      [mkExtractionUpdate (Some "c1")
         [mkJsonExample (Value "x = 1") (Value "S") Missing;
          mkJsonExample Null (Value "S") (Value "code");
          mkJsonExample (Value "x = 1") (Value "S") (Value "math")]]
      [[sample_doc]] Completed
  ∧ import_examples (λ s, s) unkeyed_extractions
    = mkImportRun
        [mkExampleDoc "x = 1:S" "x = 1" "S" (Some "unknown") (Some "")
           (Some "http://a")]
        [] [] KeyError.
Proof. vm_compute. done. Qed.

(** ** Embedding of the concepts *)

Lemma string_app_nil_r (s : string) : s +:+ "" = s.
Proof.
  induction s as [|c s IH]; [done|].
  change (String c (s +:+ "") = String c s). by rewrite IH.
Qed.

Lemma join_cons sep p parts :
  join sep (p :: parts)
  = p +:+ (if bool_decide (parts = []) then "" else sep +:+ join sep parts).
Proof.
  destruct parts as [|q parts]; [|done]. simpl. by rewrite string_app_nil_r.
Qed.

Lemma length_omap_le {A B} (f : A → option B) (l : list A) :
  length (omap f l) ≤ length l.
Proof.
  induction l as [|x l IH]; [done|]. csimpl. destruct (f x); simpl; lia.
Qed.

Lemma elem_of_concat {A} (x : A) (ls : list (list A)) :
  x ∈ concat ls ↔ ∃ l, l ∈ ls ∧ x ∈ l.
Proof.
  induction ls as [|l ls IH]; simpl.
  - split; [by inversion 1|]. intros (? & Hin & _). by inversion Hin.
  - rewrite elem_of_app, IH. split.
    + intros [? | (l' & ? & ?)].
      * exists l. split; [apply list_elem_of_here | done].
      * exists l'. split; [by apply list_elem_of_further | done].
    + intros (l' & [-> | ?]%elem_of_cons & ?); [by left|].
      right. by exists l'.
Qed.

Lemma concept_to_text_titled concept title :
  titled concept = Some title →
  ∃ rest, _concept_to_text concept = Some (title +:+ rest).
Proof.
  unfold titled, _concept_to_text.
  destruct (cd_title concept) as [| |t]; [done..|]. case_bool_decide; [|done].
  intros [= ->]. cbn -[join]. rewrite join_cons. eauto.
Qed.

Section embed_all_concepts.
Variable md5_hex16 : string → string.
Variable embedding : Type.
Variable encode : list string → list embedding.

Lemma embed_concept_untitled concept :
  titled concept = None → embed_concept md5_hex16 concept = Some None.
Proof.
  unfold titled, embed_concept.
  destruct (cd_title concept) as [| |t]; simpl; [done..|].
  case_bool_decide; done.
Qed.

Lemma embed_concept_titled concept title :
  titled concept = Some title →
  (cd_definition concept = Null ∧ embed_concept md5_hex16 concept = None)
  ∨ (cd_definition concept ≠ Null
     ∧ ∃ entry,
         embed_concept md5_hex16 concept = Some (Some entry)
         ∧ en_id entry = _generate_id md5_hex16 title
         ∧ _concept_to_text concept = Some (en_text entry)
         ∧ md_title (en_metadata entry) = title
         ∧ md_difficulty (en_metadata entry)
           = get_or "unknown" (cd_difficulty concept)
         ∧ md_mention_count (en_metadata entry)
           = get_or 0%Z (cd_mention_count concept)
         ∧ ∃ definition,
             get_or "" (cd_definition concept) = Some definition
             ∧ md_definition (en_metadata entry) = str_take 500 definition).
Proof.
  intros Ht. destruct (concept_to_text_titled _ _ Ht) as (rest & Htext).
  unfold titled in Ht. unfold embed_concept. rewrite Htext.
  destruct (cd_title concept) as [| |t]; [done..|]. case_bool_decide; [|done].
  injection Ht as ->. simpl. rewrite bool_decide_eq_true_2 by done. simpl.
  destruct (cd_definition concept) as [| |definition]; simpl.
  - right. split; [done|]. eexists. split; [done|]. simpl.
    split; [done|]. split; [done|]. split; [done|]. split; [done|].
    split; [done|]. by exists "".
  - left. done.
  - right. split; [done|]. eexists. split; [done|]. simpl.
    split; [done|]. split; [done|]. split; [done|]. split; [done|].
    split; [done|]. by exists definition.
Qed.

Lemma embed_batch_None batch :
  embed_batch md5_hex16 batch = None ↔ ∃ c, c ∈ batch ∧ unsliceable c.
Proof.
  induction batch as [|c rest IH]; simpl.
  - split; [done|]. intros (? & Hin & _). by inversion Hin.
  - destruct (titled c) as [title|] eqn:Ht.
    + destruct (embed_concept_titled c title Ht)
        as [[Hnull ->] | (Hdef & entry & -> & _)].
      * split; [|done]. intros _. exists c. split; [apply list_elem_of_here|].
        split; [by rewrite Ht | done].
      * rewrite fmap_None, IH. split.
        -- intros (c' & ? & ?). exists c'.
           split; [by apply list_elem_of_further | done].
        -- intros (c' & [-> | ?]%elem_of_cons & Hbad); [|by exists c'].
           by destruct Hbad as [_ ?].
    + rewrite (embed_concept_untitled c Ht), IH. split.
      * intros (c' & ? & ?). exists c'.
        split; [by apply list_elem_of_further | done].
      * intros (c' & [-> | ?]%elem_of_cons & Hbad); [|by exists c'].
        destruct Hbad as [[? Hs] _]. congruence.
Qed.

Lemma embed_batch_Some batch entries :
  embed_batch md5_hex16 batch = Some entries →
  en_id <$> entries = _generate_id md5_hex16 <$> omap titled batch
  ∧ Forall2 (λ entry concept,
       _concept_to_text concept = Some (en_text entry)
       ∧ titled concept = Some (md_title (en_metadata entry)))
      entries (filter (λ c, is_Some (titled c)) batch).
Proof.
  revert entries. induction batch as [|c rest IH]; intros entries; simpl.
  - intros [= <-]. split; [done | constructor].
  - destruct (titled c) as [title|] eqn:Ht.
    + rewrite filter_cons_True by (by rewrite Ht).
      destruct (embed_concept_titled c title Ht)
        as [[_ ->] | (_ & entry & -> & Hid & Htext & Htitle & _)]; [done|].
      destruct (embed_batch md5_hex16 rest) as [es|]; [|done].
      simpl. intros [= <-]. destruct (IH es eq_refl) as [Hids Hall].
      split; [csimpl; by rewrite Hid, Hids|].
      constructor; [|done]. by rewrite Htitle.
    + rewrite filter_cons_False by (rewrite Ht; by intros [? ?]).
      rewrite (embed_concept_untitled c Ht). apply IH.
Qed.

(** The calls made by the loop over [bs], when no batch raises. *)
Lemma embed_batches_Some bs : ∀ calls total,
  (∀ b c, b ∈ bs → c ∈ b → ¬ unsliceable c) →
  ∃ new,
    embed_batches md5_hex16 embedding encode bs calls total
    = (calls ++ new,
       Some (total + Z.of_nat (length (omap titled (concat bs))))%Z)
    ∧ concat (add_ids <$> new)
      = _generate_id md5_hex16 <$> omap titled (concat bs)
    ∧ ∀ call, call ∈ new →
        ∃ b entries,
          b ∈ bs ∧ embed_batch md5_hex16 b = Some entries ∧ entries ≠ []
          ∧ call = add_call embedding encode entries.
Proof.
  induction bs as [|b bs IH]; intros calls total Hgood; simpl.
  - exists []. rewrite app_nil_r, Z.add_0_r. split; [done|].
    split; [done|]. intros ? Hin. by inversion Hin.
  - destruct (embed_batch md5_hex16 b) as [entries|] eqn:Hb.
    2: { exfalso. apply embed_batch_None in Hb as (c & Hc & Hbad).
         apply (Hgood b c); [apply list_elem_of_here | done..]. }
    destruct (embed_batch_Some b entries Hb) as [Hids _].
    assert (length entries = length (omap titled b)) as Hlen.
    { by rewrite <- (length_fmap en_id), Hids, length_fmap. }
    rewrite omap_app, length_app, fmap_app, <- Hlen, <- Hids.
    destruct entries as [|entry entries'].
    + destruct (IH calls total) as (new & -> & Hnew & Hcalls).
      { intros b' c Hb'. apply Hgood. by apply list_elem_of_further. }
      exists new. simpl.
      split; [done|]. split; [done|].
      intros call Hcall. destruct (Hcalls call Hcall) as (b' & es & ? & ?).
      exists b', es. split; [by apply list_elem_of_further | done].
    + destruct (IH (calls ++ [add_call embedding encode (entry :: entries')])
                  (total + Z.of_nat (length (entry :: entries')))%Z)
        as (new & -> & Hnew & Hcalls).
      { intros b' c Hb'. apply Hgood. by apply list_elem_of_further. }
      exists (add_call embedding encode (entry :: entries') :: new).
      split; [rewrite <- app_assoc; simpl; f_equal; f_equal; lia|].
      split; [csimpl; by rewrite Hnew|].
      intros call [-> | Hcall]%elem_of_cons.
      * exists b, (entry :: entries'). split; [apply list_elem_of_here|done].
      * destruct (Hcalls call Hcall) as (b' & es & ? & ?).
        exists b', es. split; [by apply list_elem_of_further | done].
Qed.

Lemma embed_batches_None bs : ∀ calls total,
  (embed_batches md5_hex16 embedding encode bs calls total).2 = None ↔
    ∃ b c, b ∈ bs ∧ c ∈ b ∧ unsliceable c.
Proof.
  induction bs as [|b bs IH]; intros calls total; simpl.
  - split; [done|]. intros (? & ? & Hin & _). by inversion Hin.
  - destruct (embed_batch md5_hex16 b) as [entries|] eqn:Hb.
    + assert (∀ c, c ∈ b → ¬ unsliceable c) as Hgood.
      { intros c Hc Hbad.
        assert (embed_batch md5_hex16 b = None) as Hnone
          by (apply embed_batch_None; by exists c).
        congruence. }
      assert ((∃ b' c, b' ∈ b :: bs ∧ c ∈ b' ∧ unsliceable c)
              ↔ ∃ b' c, b' ∈ bs ∧ c ∈ b' ∧ unsliceable c) as ->.
      { split.
        - intros (b' & c & [-> | ?]%elem_of_cons & Hc & Hbad);
            [by apply Hgood in Hbad | by exists b', c].
        - intros (b' & c & ? & ?). exists b', c.
          split; [by apply list_elem_of_further | done]. }
      destruct entries; apply IH.
    + simpl. split; [|done]. intros _.
      apply embed_batch_None in Hb as (c & ? & ?). exists b, c.
      split; [apply list_elem_of_here | done].
Qed.

(** X16: with a positive [batch_size] and no titled document whose
    definition is [null], [embed_all_concepts] returns the number of
    documents with a non-empty title and adds exactly these, in order and
    each once, whatever the batch size; no call of [collection.add] is
    empty or larger than [batch_size], and each call passes as many
    documents, metadata and identifiers, with the embeddings of its
    documents. *)
Theorem embed_all_concepts_batches concepts batch_size :
  (0 < batch_size)%Z →
  (∀ c, c ∈ concepts → ¬ unsliceable c) →
  let result :=
    embed_all_concepts md5_hex16 embedding encode concepts batch_size in
  result.2 = Some (Z.of_nat (length (omap titled concepts)))
  ∧ concat (add_ids <$> result.1)
    = _generate_id md5_hex16 <$> omap titled concepts
  ∧ ∀ call, call ∈ result.1 →
      add_ids call ≠ []
      ∧ (Z.of_nat (length (add_ids call)) ≤ batch_size)%Z
      ∧ length (add_documents call) = length (add_ids call)
      ∧ length (add_metadatas call) = length (add_ids call)
      ∧ add_embeddings call = encode (add_documents call).
Proof.
  intros Hsize Hgood. cbv zeta. unfold embed_all_concepts.
  rewrite !bool_decide_eq_false_2 by lia.
  assert (0 < Z.to_nat batch_size) as Hn by lia.
  pose proof (batches_concat concepts (Z.to_nat batch_size) Hn) as Hconcat.
  destruct (embed_batches_Some (batches concepts (Z.to_nat batch_size)) [] 0%Z)
    as (new & -> & Hids & Hcalls).
  { intros b c Hb Hc. apply Hgood. rewrite <- Hconcat.
    apply elem_of_concat. by exists b. }
  rewrite Hconcat in *. simpl. split; [done|]. split; [done|].
  intros call Hcall.
  destruct (Hcalls call Hcall) as (b & entries & Hb & Hentries & Hne & ->).
  simpl. rewrite !length_fmap.
  split; [by destruct entries|]. split; [|done].
  destruct (embed_batch_Some b entries Hentries) as [Hid _].
  apply (f_equal length) in Hid. rewrite !length_fmap in Hid.
  pose proof (batches_sizes concepts _ b Hn Hb) as [_ Hlen].
  pose proof (length_omap_le titled b). lia.
Qed.

(** X17: [embed_all_concepts] raises exactly when [batch_size] is 0, or
    when it is positive and some document has a non-empty title and a
    definition that is [null]; with a negative [batch_size] it adds
    nothing and returns 0. *)
Theorem embed_all_concepts_raises concepts batch_size :
  ((embed_all_concepts md5_hex16 embedding encode concepts batch_size).2 = None
   ↔ batch_size = 0%Z
     ∨ ((0 < batch_size)%Z ∧ ∃ c, c ∈ concepts ∧ unsliceable c))
  ∧ ((batch_size < 0)%Z →
     embed_all_concepts md5_hex16 embedding encode concepts batch_size
     = ([], Some 0%Z)).
Proof.
  unfold embed_all_concepts. split.
  - case_bool_decide as Hz; [simpl; split; [by left | done]|].
    case_bool_decide as Hneg.
    + simpl. split; [done|]. intros [? | [? _]]; lia.
    + rewrite embed_batches_None.
      assert (0 < Z.to_nat batch_size) as Hn by lia.
      pose proof (batches_concat concepts (Z.to_nat batch_size) Hn) as Hconcat.
      split.
      * intros (b & c & Hb & Hc & Hbad). right. split; [lia|].
        exists c. split; [|done]. rewrite <- Hconcat.
        apply elem_of_concat. by exists b.
      * intros [? | [_ (c & Hc & Hbad)]]; [done|].
        rewrite <- Hconcat in Hc.
        apply elem_of_concat in Hc as (b & ? & ?). by exists b, c.
  - intros Hneg. rewrite bool_decide_eq_false_2 by lia.
    by rewrite bool_decide_eq_true_2.
Qed.
End embed_all_concepts.

Lemma embed_all_concepts_batches_witness :
  (embed_all_concepts (λ s, s) string (λ texts, texts) three_concepts 1).2
  = Some 2%Z.
Proof.
  apply (embed_all_concepts_batches (λ s, s) string (λ texts, texts)
           three_concepts 1); [lia|].
  intros c Hc [_ Hnull].
  repeat (apply elem_of_cons in Hc as [-> | Hc]; [discriminate|]).
  by inversion Hc.
Defined.

Lemma embed_all_concepts_raises_witness :
  embed_all_concepts (λ s, s) string (λ texts, texts) three_concepts (-1)
  = ([], Some 0%Z).
Proof.
  apply (embed_all_concepts_raises (λ s, s) string (λ texts, texts)
           three_concepts (-1)).
  lia.
Defined.

Example embed_three_concepts :
  embed_all_concepts (λ s, s) string (λ texts, texts) three_concepts 2
  = ([mkAddCall ["Calculus"]
        ["Calculus. The study of change.. Also known as: Analysis, Infinitesimal calculus"]
        ["Calculus. The study of change.. Also known as: Analysis, Infinitesimal calculus"]
        [mkConceptMetadata "Calculus" "The study of change." (Some "unknown")
           (Some 3%Z)];
      mkAddCall ["Derivatives"] ["Derivatives"] ["Derivatives"]
        [mkConceptMetadata "Derivatives" "" (Some "beginner") (Some 0%Z)]],
     Some 2%Z).
Proof. vm_compute. reflexivity. Qed.

(** ** The prompt context *)

Lemma concept_lookup_snoc cs c :
  concept_lookup (cs ++ [c]) = dict_set (concept_lookup cs) (title c) c.
Proof. unfold concept_lookup. by rewrite foldl_snoc. Qed.

Lemma concept_lookup_get cs c :
  NoDup (title <$> cs) → c ∈ cs →
  dict_get (concept_lookup cs) (title c) = Some c.
Proof.
  induction cs as [|x cs IH] using rev_ind; intros Hnd Hc; [by inversion Hc|].
  rewrite concept_lookup_snoc, dict_get_set.
  rewrite fmap_app in Hnd. apply NoDup_app in Hnd as (Hnd & Hdis & _).
  apply elem_of_app in Hc as [Hc | ->%list_elem_of_singleton].
  - rewrite bool_decide_eq_false_2; [by apply IH|].
    intros Heq. apply (Hdis (title c)).
    + apply list_elem_of_fmap. by exists c.
    + simpl. rewrite Heq. apply list_elem_of_here.
  - by rewrite bool_decide_eq_true_2.
Qed.

Lemma concept_lines_entry cs c i :
  NoDup (title <$> cs) → c ∈ cs →
  concept_lines (concept_lookup cs) i (title c) = concept_entry i c.
Proof.
  intros Hnd Hc. unfold concept_lines. by rewrite concept_lookup_get.
Qed.

(** The concepts behind an order that lists the title of each once. *)
Lemma ordered_concepts_exist (cs : list RetrievedConcept) ordered :
  NoDup (title <$> cs) → ordered ≡ₚ title <$> cs →
  ∃ cs', cs' ≡ₚ cs ∧ title <$> cs' = ordered.
Proof.
  intros Hnd Hperm.
  assert (∃ cs', title <$> cs' = ordered ∧ ∀ c, c ∈ cs' → c ∈ cs)
    as (cs' & Ht & Hsub).
  { assert (∀ t, t ∈ ordered → t ∈ title <$> cs) as Hin
      by (intros t; by rewrite Hperm).
    clear Hperm. induction ordered as [|t ordered IH].
    - exists []. split; [done|]. intros ? Hc. by inversion Hc.
    - destruct IH as (cs' & Ht & Hsub).
      { intros t' Ht'. apply Hin. by apply list_elem_of_further. }
      assert (t ∈ title <$> cs) as (c & -> & Hc)%list_elem_of_fmap
        by apply Hin, list_elem_of_here.
      exists (c :: cs'). split; [csimpl; by rewrite Ht|].
      intros c' [-> | ?]%elem_of_cons; [done | by apply Hsub]. }
  exists cs'. split; [|done].
  assert (NoDup (title <$> cs')) as Hnd' by (by rewrite Ht, Hperm).
  apply NoDup_Permutation.
  - by apply NoDup_fmap_1 in Hnd'.
  - by apply NoDup_fmap_1 in Hnd.
  - intros c. split; [apply Hsub|]. intros Hc.
    assert (title c ∈ title <$> cs') as (c' & Heq & Hc')%list_elem_of_fmap.
    { rewrite Ht, Hperm. apply list_elem_of_fmap. by exists c. }
    assert (c = c') as ->; [|done].
    apply (NoDup_fmap_eq title cs); [done | done | by apply Hsub | done].
Qed.

Lemma concepts_sections_entries cs cs' :
  NoDup (title <$> cs) → (∀ c, c ∈ cs' → c ∈ cs) →
  concepts_sections (title <$> cs') cs
  = mjoin (imap (λ i c, concept_entry (S i) c) cs').
Proof.
  intros Hnd Hsub. unfold concepts_sections. f_equal.
  rewrite imap_fmap. apply imap_ext. intros i c Hi. simpl.
  apply concept_lines_entry; [done|]. apply Hsub.
  by eapply list_elem_of_lookup_2.
Qed.

Lemma context_entries cs ordered :
  NoDup (title <$> cs) → ordered ≡ₚ title <$> cs →
  ∃ cs', cs' ≡ₚ cs ∧ title <$> cs' = ordered
         ∧ concepts_sections ordered cs
           = mjoin (imap (λ i c, concept_entry (S i) c) cs').
Proof.
  intros Hnd Hperm.
  destruct (ordered_concepts_exist cs ordered Hnd Hperm) as (cs' & Hcs & <-).
  exists cs'. split; [done|]. split; [done|].
  apply concepts_sections_entries; [done|]. intros c. by rewrite Hcs.
Qed.

(** X18: in the context built from a result of [retrieve] or of
    [retrieve_with_explicit_concepts], the part on the concepts lists
    every concept of the subgraph exactly once, in the explanation order
    and numbered from 1 without a gap. *)
Theorem build_context_concepts self q :
  (∀ top_k_semantic min_semantic_score prereq_depth related_depth
     max_concepts max_examples_per_concept,
     let result := retrieve self q top_k_semantic min_semantic_score
                     prereq_depth related_depth max_concepts
                     max_examples_per_concept in
     ∃ cs', cs' ≡ₚ concepts (subgraph result)
            ∧ title <$> cs' = ordered_concepts result
            ∧ concepts_sections (ordered_concepts result)
                (concepts (subgraph result))
              = mjoin (imap (λ i c, concept_entry (S i) c) cs'))
  ∧ (∀ explicit_concepts kwargs,
       let result :=
         retrieve_with_explicit_concepts self q explicit_concepts kwargs in
       ∃ cs', cs' ≡ₚ concepts (subgraph result)
              ∧ title <$> cs' = ordered_concepts result
              ∧ concepts_sections (ordered_concepts result)
                  (concepts (subgraph result))
                = mjoin (imap (λ i c, concept_entry (S i) c) cs')).
Proof.
  assert (∀ matches seeds prereq_depth related_depth max_concepts
            max_examples_per_concept,
    let result := expand_and_order self q matches seeds prereq_depth
                    related_depth max_concepts max_examples_per_concept in
    ∃ cs', cs' ≡ₚ concepts (subgraph result)
           ∧ title <$> cs' = ordered_concepts result
           ∧ concepts_sections (ordered_concepts result)
               (concepts (subgraph result))
             = mjoin (imap (λ i c, concept_entry (S i) c) cs')) as Hboth.
  { intros matches seeds prereq_depth related_depth max_concepts
      max_examples_per_concept result.
    destruct (expand_and_order_permutation self q matches seeds prereq_depth
                related_depth max_concepts max_examples_per_concept)
      as [Hperm _].
    apply context_entries; [|done].
    subst result. simpl. apply deduplicate_nodup. }
  split.
  - intros top_k_semantic min_semantic_score prereq_depth related_depth
      max_concepts max_examples_per_concept. unfold retrieve.
    destruct (m_title <$> embedder self q top_k_semantic min_semantic_score).
    + by exists [].
    + apply Hboth.
  - intros explicit_concepts kwargs. apply Hboth.
Qed.

Lemma collect_lines_total {A} (f : A → option (list string)) (l : list A) :
  (∀ x, x ∈ l → is_Some (f x)) → is_Some (collect_lines f l).
Proof.
  induction l as [|x l IH]; intros Hall; simpl; [done|].
  destruct (Hall x) as [lines ->]; [apply list_elem_of_here|].
  destruct IH as [rest ->]; [|done].
  intros y Hy. apply Hall. by apply list_elem_of_further.
Qed.

Lemma by_type_elem resources : ∀ group r,
  group ∈ by_type resources → r ∈ group.2 → r ∈ resources.
Proof.
  unfold by_type. induction resources as [|x rs IH] using rev_ind.
  - intros group r Hg. by inversion Hg.
  - intros group r Hg Hr. rewrite foldl_snoc in Hg.
    apply dict_set_elem in Hg as [-> | Hg].
    + simpl in Hr. apply elem_of_app in Hr as [Hr | ->%list_elem_of_singleton].
      * apply elem_of_app. left.
        destruct (dict_get _ _) as [old|] eqn:Hold; [|by inversion Hr].
        apply dict_get_Some_elem in Hold. by apply (IH _ r Hold).
      * apply elem_of_app. right. apply list_elem_of_here.
    + apply elem_of_app. left. by apply (IH group).
Qed.

Lemma resources_sections_total resources :
  (∀ r, r ∈ resources → timecodes r = None) →
  is_Some (resources_sections resources).
Proof.
  intros Hnone. unfold resources_sections.
  destruct resources as [|r0 rs]; [done|]. apply fmap_is_Some.
  apply collect_lines_total. intros group Hgroup. apply fmap_is_Some.
  apply collect_lines_total. intros r Hr.
  assert (r ∈ r0 :: rs) as Hin.
  { apply (by_type_elem _ group); [done|].
    apply elem_of_take in Hr as (i & Hi & _). by eapply list_elem_of_lookup_2. }
  unfold resource_lines. by rewrite (Hnone r Hin).
Qed.

(** X19: [_build_context] does not raise on a result whose resources carry
    no time codes, and so on no result of [retrieve] or of
    [retrieve_with_explicit_concepts]: the only failure of the function,
    the [KeyError] on [timecodes], cannot occur there. *)
Theorem build_context_total self q :
  (∀ result, (∀ r, r ∈ resources (subgraph result) → timecodes r = None) →
     is_Some (_build_context result))
  ∧ (∀ top_k_semantic min_semantic_score prereq_depth related_depth
       max_concepts max_examples_per_concept,
       is_Some (_build_context
                  (retrieve self q top_k_semantic min_semantic_score
                     prereq_depth related_depth max_concepts
                     max_examples_per_concept)))
  ∧ (∀ explicit_concepts kwargs,
       is_Some (_build_context
                  (retrieve_with_explicit_concepts self q explicit_concepts
                     kwargs))).
Proof.
  assert (∀ result, (∀ r, r ∈ resources (subgraph result) → timecodes r = None) →
            is_Some (_build_context result)) as Hgen.
  { intros result Hnone. unfold _build_context.
    by destruct (resources_sections_total _ Hnone) as [part ->]. }
  split; [done|]. split.
  - intros top_k_semantic min_semantic_score prereq_depth related_depth
      max_concepts max_examples_per_concept. apply Hgen. unfold retrieve.
    destruct (m_title <$> embedder self q top_k_semantic min_semantic_score).
    + intros r Hr. by inversion Hr.
    + intros r Hr. simpl in Hr.
      by apply get_resources_elem in Hr as (record & _ & ->).
  - intros explicit_concepts kwargs. apply Hgen. intros r Hr. simpl in Hr.
    by apply get_resources_elem in Hr as (record & _ & ->).
Qed.

Lemma build_context_total_witness :
  is_Some (_build_context
             (mkRetrievalResult "q" [] ["S"]
                (mkSubgraph ["S"] [concept_of "S" 0 "seed"]
                   [mkRetrievedResource (Some "http://r") "pdf" (Some "http://r")
                      ["S"] (Some [3%Z; 4%Z]) None] [] [["S"]])
                ["S"])).
Proof.
  destruct (build_context_total silent_retriever "q") as [Hgen _].
  apply Hgen. simpl. intros r ->%list_elem_of_singleton. reflexivity.
Defined.

(** Time codes without ["start"] make the function raise. *)
Example build_context_key_error :
  _build_context
    (mkRetrievalResult "q" [] ["S"]
       (mkSubgraph ["S"] [concept_of "S" 0 "seed"]
          [mkRetrievedResource (Some "http://v") "video" (Some "http://v")
             ["S"] None (Some [("end", "12")])] [] [["S"]])
       ["S"])
  = None.
Proof. vm_compute. reflexivity. Qed.

(** X20: for a query without semantic matches, the context built from the
    result of [retrieve] is the heading of the concept part and nothing
    else. *)
Theorem build_context_no_matches self q top_k_semantic min_semantic_score
    prereq_depth related_depth max_concepts max_examples_per_concept :
  embedder self q top_k_semantic min_semantic_score = [] →
  _build_context
    (retrieve self q top_k_semantic min_semantic_score prereq_depth
       related_depth max_concepts max_examples_per_concept)
  = Some "### Relevant Concepts (ordered from foundational to advanced)".
Proof.
  intros Hnone. unfold retrieve. rewrite Hnone. reflexivity.
Qed.

Lemma build_context_no_matches_witness :
  _build_context
    (retrieve silent_retriever "What is a tensor?" 5%Z 4000%Z 2 1 15%Z 2%Z)
  = Some "### Relevant Concepts (ordered from foundational to advanced)".
Proof.
  apply (build_context_no_matches silent_retriever "What is a tensor?").
  reflexivity.
Defined.

Example build_context_calculus :
  _build_context
    (retrieve tutor_retriever "gradient descent?" 5%Z 4000%Z 1 1 2%Z 2%Z)
  = Some (join nl
      ["### Relevant Concepts (ordered from foundational to advanced)";
       nl +:+ "**1. Derivatives** [unknown]";
       "No definition available.";
       nl +:+ "**2. Gradient Descent** [unknown]";
       "No definition available.";
       nl +:+ "### Learning Path (Prerequisites → Target)";
       "- Calculus → Derivatives";
       "- Derivatives → Gradient Descent"]).
Proof. vm_compute. reflexivity. Qed.

(** ** The subgraph as a whole *)

Lemma get_examples_concept g concept_titles max_per_concept e :
  e ∈ _get_examples g concept_titles max_per_concept →
  concept e ∈ concept_titles.
Proof.
  unfold _get_examples. rewrite examples_query_rows.
  intros (r & -> & Hr)%list_elem_of_fmap.
  apply list_elem_of_bind in Hr as (grp & Hr & Hgrp).
  unfold group_rows in Hr.
  apply list_elem_of_bind in Hr as (en & ->%list_elem_of_singleton & Hen).
  apply py_slice_to_elem in Hen.
  destruct (collect_example_fold
    (stable_sort (λ a b, example_type_le (e_example_type a.2)
                                         (e_example_type b.2))
       (example_bindings g concept_titles))) as [_ Hel].
  apply (Hel grp en Hgrp) in Hen. rewrite stable_sort_perm in Hen.
  by apply elem_of_example_bindings in Hen as [? _].
Qed.

Lemma get_resources_concepts g concept_titles r t :
  r ∈ _get_resources g concept_titles → t ∈ concepts_explained r →
  t ∈ concept_titles.
Proof.
  intros (record & Hrec & ->)%get_resources_elem Ht. simpl in Ht.
  destruct (resources_query_groups g concept_titles) as [_ _ _ _ Hc].
  apply (Hc record t Hrec) in Ht as (rn & Hin & _).
  by apply elem_of_resource_bindings in Hin as [? _].
Qed.

(** X21: the subgraph returned by [expand_seeds] is closed: every title
    in the [concepts_explained] of one of its resources and the concept of
    every one of its examples is the title of one of its concepts, so
    nothing refers to a concept that the truncation dropped. *)
Theorem expand_seeds_closed g seed_titles prereq_depth related_depth
    max_concepts max_examples_per_concept :
  let sg := expand_seeds g seed_titles prereq_depth related_depth
              max_concepts max_examples_per_concept in
  (∀ r t, r ∈ resources sg → t ∈ concepts_explained r →
          t ∈ concept_titles sg)
  ∧ (∀ e, e ∈ examples sg → concept e ∈ concept_titles sg).
Proof.
  simpl. split.
  - intros r t. apply get_resources_concepts.
  - intros e. apply get_examples_concept.
Qed.

(** X22: raising [max_concepts] only appends concepts: for limits that
    are not negative, the concepts returned under the smaller limit are
    the first ones returned under the larger limit, in the same order; the
    prerequisite chains do not depend on the limit. *)
Theorem expand_seeds_limit_prefix g seed_titles prereq_depth related_depth
    smaller larger max_examples_per_concept :
  (0 ≤ smaller ≤ larger)%Z →
  concepts (expand_seeds g seed_titles prereq_depth related_depth smaller
              max_examples_per_concept)
  = take (Z.to_nat smaller)
      (concepts (expand_seeds g seed_titles prereq_depth related_depth larger
                   max_examples_per_concept))
  ∧ prereq_chain (expand_seeds g seed_titles prereq_depth related_depth
                    smaller max_examples_per_concept)
    = prereq_chain (expand_seeds g seed_titles prereq_depth related_depth
                      larger max_examples_per_concept).
Proof.
  intros Hle. simpl. split; [|done]. unfold _deduplicate_concepts.
  rewrite !py_slice_to_nonneg by lia. rewrite take_take. f_equal. lia.
Qed.

Lemma expand_seeds_limit_prefix_witness :
  concepts (expand_seeds calculus_store ["Gradient Descent"] 2 1 1 2)
  = take 1 (concepts (expand_seeds calculus_store ["Gradient Descent"] 2 1 3 2)).
Proof.
  apply (expand_seeds_limit_prefix calculus_store ["Gradient Descent"] 2 1 1 3 2).
  lia.
Defined.

(** ** The examples of the prompt context *)

Lemma examples_by_concept_snoc examples ex :
  examples_by_concept (examples ++ [ex])
  = dict_set (examples_by_concept examples) (concept ex)
      (default [] (dict_get (examples_by_concept examples) (concept ex))
       ++ [ex]).
Proof. unfold examples_by_concept. by rewrite foldl_snoc. Qed.

Lemma examples_by_concept_get examples concept_title :
  dict_get (examples_by_concept examples) concept_title
  = match examples_of examples concept_title with
    | [] => None
    | ex :: exs => Some (ex :: exs)
    end.
Proof.
  induction examples as [|x examples IH] using rev_ind; [done|].
  rewrite examples_by_concept_snoc, dict_get_set. unfold examples_of in *.
  rewrite filter_app. case_bool_decide as Hx.
  - subst concept_title. rewrite IH.
    rewrite (filter_cons_True _ x []) by done. rewrite filter_nil.
    by destruct (filter _ examples).
  - rewrite IH. rewrite (filter_cons_False _ x []) by done.
    rewrite filter_nil. by rewrite app_nil_r.
Qed.

Lemma examples_sections_groups ordered examples :
  examples_sections ordered examples
  = match examples with
    | [] => []
    | _ :: _ =>
        [nl +:+ "### Examples from Course Materials"]
        ++ (concept_title ← ordered; example_group examples concept_title)
    end.
Proof.
  unfold examples_sections. destruct examples as [|x xs]; [done|].
  f_equal. apply list_bind_ext; [|done]. intros concept_title.
  rewrite examples_by_concept_get. unfold example_group.
  by destruct (examples_of (x :: xs) concept_title).
Qed.

Lemma filter_filter_ne (examples : list RetrievedExample) t t' :
  t' ≠ t →
  filter (λ ex, concept ex = t') (filter (λ ex, concept ex ≠ t) examples)
  = filter (λ ex, concept ex = t') examples.
Proof.
  intros Hne. induction examples as [|x xs IH]; [done|].
  destruct (decide (concept x = t')) as [Hx|Hx].
  - rewrite (filter_cons_True (λ ex, concept ex ≠ t)) by congruence.
    rewrite !filter_cons_True by done. by rewrite IH.
  - rewrite (filter_cons_False (λ ex, concept ex = t') x xs) by done.
    destruct (decide (concept x ≠ t)).
    + rewrite (filter_cons_True (λ ex, concept ex ≠ t)) by done.
      by rewrite filter_cons_False.
    + by rewrite (filter_cons_False (λ ex, concept ex ≠ t)).
Qed.

Lemma filter_split (examples : list RetrievedExample) t :
  filter (λ ex, concept ex = t) examples
  ++ filter (λ ex, concept ex ≠ t) examples ≡ₚ examples.
Proof.
  induction examples as [|x xs IH]; [done|].
  destruct (decide (concept x = t)) as [Hx|Hx].
  - rewrite filter_cons_True by done.
    rewrite (filter_cons_False (λ ex, concept ex ≠ t)) by (intros ?; done).
    simpl. by rewrite IH.
  - rewrite filter_cons_False by done.
    rewrite (filter_cons_True (λ ex, concept ex ≠ t)) by done.
    rewrite <- Permutation_middle. by rewrite IH.
Qed.

(** Grouping by the titles of a list without repetition that holds every
    concept of the examples loses and repeats no example. *)
Lemma examples_of_partition ordered : ∀ examples,
  NoDup ordered → (∀ ex, ex ∈ examples → concept ex ∈ ordered) →
  (concept_title ← ordered; examples_of examples concept_title) ≡ₚ examples.
Proof.
  unfold examples_of.
  induction ordered as [|t ts IH]; intros examples Hnd Hin.
  - destruct examples as [|x xs]; [done|].
    specialize (Hin x (list_elem_of_here _ _)). by inversion Hin.
  - apply NoDup_cons in Hnd as [Ht Hnd]. csimpl.
    etrans; [|apply (filter_split examples t)]. f_equiv.
    etrans;
      [|apply (IH (filter (λ ex, concept ex ≠ t) examples) Hnd)].
    + assert (∀ t', t' ∈ ts →
        filter (λ ex, concept ex = t') examples
        = filter (λ ex, concept ex = t')
            (filter (λ ex, concept ex ≠ t) examples)) as Heq.
      { intros t' Ht'. symmetry. apply filter_filter_ne. by intros ->. }
      clear IH Hnd Ht Hin. induction ts as [|t' ts IH]; [done|]. csimpl.
      rewrite Heq by apply list_elem_of_here. f_equiv.
      apply IH. intros t'' Ht''. apply Heq. by apply list_elem_of_further.
    + intros ex [Hne Hex]%list_elem_of_filter.
      by apply Hin in Hex as [?|?]%elem_of_cons.
Qed.

(** X23: in the context built from a result of [retrieve] or of
    [retrieve_with_explicit_concepts], the part on the examples has one
    group per ordered concept that has examples, in the explanation order,
    and the groups together hold every example of the subgraph exactly
    once: no retrieved example is left out of the prompt or repeated. *)
Theorem build_context_examples self q :
  (∀ top_k_semantic min_semantic_score prereq_depth related_depth
     max_concepts max_examples_per_concept,
     let result := retrieve self q top_k_semantic min_semantic_score
                     prereq_depth related_depth max_concepts
                     max_examples_per_concept in
     examples_sections (ordered_concepts result) (examples (subgraph result))
     = match examples (subgraph result) with
       | [] => []
       | _ :: _ =>
           [nl +:+ "### Examples from Course Materials"]
           ++ (concept_title ← ordered_concepts result;
               example_group (examples (subgraph result)) concept_title)
       end
     ∧ (concept_title ← ordered_concepts result;
        examples_of (examples (subgraph result)) concept_title)
       ≡ₚ examples (subgraph result))
  ∧ (∀ explicit_concepts kwargs,
       let result :=
         retrieve_with_explicit_concepts self q explicit_concepts kwargs in
       examples_sections (ordered_concepts result) (examples (subgraph result))
       = match examples (subgraph result) with
         | [] => []
         | _ :: _ =>
             [nl +:+ "### Examples from Course Materials"]
             ++ (concept_title ← ordered_concepts result;
                 example_group (examples (subgraph result)) concept_title)
         end
       ∧ (concept_title ← ordered_concepts result;
          examples_of (examples (subgraph result)) concept_title)
         ≡ₚ examples (subgraph result)).
Proof.
  assert (∀ matches seeds prereq_depth related_depth max_concepts
            max_examples_per_concept,
    let result := expand_and_order self q matches seeds prereq_depth
                    related_depth max_concepts max_examples_per_concept in
    (concept_title ← ordered_concepts result;
     examples_of (examples (subgraph result)) concept_title)
    ≡ₚ examples (subgraph result)) as Hboth.
  { intros matches seeds prereq_depth related_depth max_concepts
      max_examples_per_concept result.
    destruct (expand_and_order_permutation self q matches seeds prereq_depth
                related_depth max_concepts max_examples_per_concept)
      as [Hperm Hnd].
    apply examples_of_partition; [done|]. intros ex Hex.
    fold result in Hperm. rewrite Hperm.
    subst result. simpl in *. by apply get_examples_concept in Hex. }
  split.
  - intros top_k_semantic min_semantic_score prereq_depth related_depth
      max_concepts max_examples_per_concept result.
    split; [apply examples_sections_groups|].
    subst result. unfold retrieve.
    destruct (m_title <$> embedder self q top_k_semantic min_semantic_score).
    + done.
    + apply Hboth.
  - intros explicit_concepts kwargs result.
    split; [apply examples_sections_groups | apply Hboth].
Qed.

(** Both examples of [S] in the tutoring store come under one heading; an
    example without text prints as [None]. *)
Example build_context_examples_tutoring :
  let result :=
    retrieve (mkHybridRetriever
                (λ _ _ _, [mkSemanticMatch "T" "" "unknown" 9000%Z "";
                           mkSemanticMatch "S" "" "unknown" 9000%Z ""])
                tutoring_store) "q" 5%Z 4000%Z 2 1 15%Z 2%Z in
  examples_sections (ordered_concepts result) (examples (subgraph result))
  = [nl +:+ "### Examples from Course Materials";
     nl +:+ "**Examples for S:**";
     "- [code] x = 1"; "  Source: http://e"; "- [unknown] None"].
Proof. vm_compute. reflexivity. Qed.

